(** * chatgpt-to-qwen-converter: a shallow embedding of [src/converter.js]

    The converter turns a ChatGPT export (a tree of message nodes per
    conversation) into the linear message list of the Qwen chat schema.
    This file embeds the transformation core of [converter.js]
    ([transformConversation] and everything it calls) and states the
    properties of the specification over that embedding.

    Conventions of the embedding.
    - A JavaScript string is a [string]: a sequence of code units below 256.
    - A finite JavaScript number is a rational [Q] (every finite double is
      one); [NaN] and the two infinities are separate constructors.  Rounding
      and overflow of double arithmetic are not modelled.
    - [undefined], [null] and a missing property are [None] wherever the code
      only tests truthiness; where the code distinguishes them the field is a
      [value].
    - The global [parseFloat] is a parameter of the development (a Section
      variable); [decimalParseFloat] is an executable stand-in for it.
    - The two [while] loops and the recursive traversal take a [fuel] and
      answer [OutOfFuel] when it runs out; a [TypeError] is [Throws].
    - The records give every field the type the export format gives it: an
      id is a string, [children] an array of strings, and so on.  A lookup
      [mapping[id]] sees the own keys of the mapping only: no id is the name
      of a property of [Object.prototype]. *)

From Stdlib Require Import String Ascii DecimalString List Bool Arith ZArith QArith Qround Lia.
Import ListNotations.
Close Scope Q_scope.
Open Scope string_scope.
Open Scope list_scope.

(** ** JavaScript values and numbers *)

Inductive jsnum : Type :=
| NaN
| Inf (negative : bool)
| Fin (q : Q).

(** What [typeof] and the property tests of the converter can tell apart. *)
Inductive value : Type :=
| VUndefined
| VNull
| VBool (b : bool)
| VNum (n : jsnum)
| VStr (s : string)
| VObject.

Definition Number_isNaN (n : jsnum) : bool :=
  match n with NaN => true | _ => false end.

(** [Math.floor]: the infinities and NaN are fixed points. *)
Definition Math_floor (n : jsnum) : jsnum :=
  match n with
  | Fin q => Fin (inject_Z (Qfloor q))
  | other => other
  end.

Definition Qnegative (q : Q) : bool := (Qnum q <? 0)%Z.
Definition Qzero (q : Q) : bool := (Qnum q =? 0)%Z.

(** The [*] operator on numbers. *)
Definition Number_mul (a b : jsnum) : jsnum :=
  match a, b with
  | NaN, _ | _, NaN => NaN
  | Inf s, Inf t => Inf (xorb s t)
  | Inf s, Fin q | Fin q, Inf s => if Qzero q then NaN else Inf (xorb s (Qnegative q))
  | Fin p, Fin q => Fin (Qmult p q)
  end.

(** Truthiness of a number: everything but [0] and [NaN]. *)
Definition Number_truthy (n : jsnum) : bool :=
  match n with
  | NaN => false
  | Inf _ => true
  | Fin q => negb (Qzero q)
  end.

(** Truthiness of a string: everything but the empty string. *)
Definition truthy (s : string) : bool :=
  match s with EmptyString => false | String _ _ => true end.

(** Truthiness of a property that holds a string when it is there. *)
Definition truthy_opt (o : option string) : bool :=
  match o with Some s => truthy s | None => false end.

(** [x || null] on such a property. *)
Definition or_null (o : option string) : option string :=
  if truthy_opt o then o else None.

(** ** Strings: [trim] and [join] *)

(** White space and line terminators among the code units below 256:
    TAB, LF, VT, FF, CR, SP and NBSP. *)
Definition isWhiteSpace (c : ascii) : bool :=
  let n := nat_of_ascii c in
  existsb (Nat.eqb n) [9; 10; 11; 12; 13; 32; 160].

Fixpoint trimStart (s : string) : string :=
  match s with
  | EmptyString => EmptyString
  | String c s' => if isWhiteSpace c then trimStart s' else s
  end.

Fixpoint trimEnd (s : string) : string :=
  match s with
  | EmptyString => EmptyString
  | String c s' =>
      match trimEnd s' with
      | EmptyString => if isWhiteSpace c then EmptyString else String c EmptyString
      | t => String c t
      end
  end.

Definition trim (s : string) : string := trimEnd (trimStart s).

(** [Array.prototype.join] on an array of strings. *)
Definition join (sep : string) (parts : list string) : string := String.concat sep parts.

Definition newline : string := String (ascii_of_nat 10) EmptyString.

(** ** An executable stand-in for [parseFloat]

    Leading white space is skipped and the longest prefix that is a decimal
    literal (optional sign, [Infinity] or digits with an optional fraction and
    exponent) is read; the value is taken exactly. *)

Definition isDigit (c : ascii) : bool :=
  let n := nat_of_ascii c in Nat.leb 48 n && Nat.leb n 57.

Definition digitVal (c : ascii) : Z := Z.of_nat (nat_of_ascii c - 48).

Fixpoint readDigits (s : string) (acc : Z) (count : nat) : Z * nat * string :=
  match s with
  | String c s' =>
      if isDigit c then readDigits s' (acc * 10 + digitVal c)%Z (S count)
      else (acc, count, s)
  | EmptyString => (acc, count, s)
  end.

Definition readSign (s : string) : bool * string :=
  match s with
  | String "-" s' => (true, s')
  | String "+" s' => (false, s')
  | _ => (false, s)
  end.

Definition readExponent (s : string) : Z :=
  match s with
  | String c s' =>
      if (Ascii.eqb c "e" || Ascii.eqb c "E")%bool then
        let '(neg, s'') := readSign s' in
        let '(e, n, _) := readDigits s'' 0%Z 0 in
        match n with
        | 0 => 0%Z
        | S _ => if neg then (- e)%Z else e
        end
      else 0%Z
  | EmptyString => 0%Z
  end.

Definition decimalParseFloat (input : string) : jsnum :=
  let '(neg, s) := readSign (trimStart input) in
  if String.prefix "Infinity" s then Inf neg
  else
    let '(ip, ni, r1) := readDigits s 0%Z 0 in
    let '(mant, nf, r2) :=
      match r1 with
      | String "." r => readDigits r ip 0
      | _ => (ip, 0, r1)
      end in
    match ni + nf with
    | 0 => NaN
    | S _ =>
        let e := (readExponent r2 - Z.of_nat nf)%Z in
        let m := if neg then (- mant)%Z else mant in
        Fin (Qred (Qmult (inject_Z m) (Qpower (inject_Z 10) e)))
    end.

(** ** The input: conversations, nodes and messages *)

(** One element of [message.content.parts]. *)
Inductive Part : Type :=
| PString (s : string)
    (* a plain string *)
| PObject (text : option string) (asset_pointer : option string)
    (* an object; [text] is [Some] when [typeof part.text === "string"] *)
| POther.
    (* null, a number or a boolean *)

Record Message : Type := mkMessage {
  message_id : option string;
  author_role : option string;
    (* [message.author && message.author.role] *)
  content_parts : option (list Part);
    (* [None]: [message.content] is missing or [content.parts] is no array *)
  message_create_time : value;
  model_slug : option string
    (* [message.metadata && message.metadata.model_slug] *)
}.

Record Node : Type := mkNode {
  node_id : option string;
  parent : option string;
  children : option (list string);
    (* [None]: [node.children] is no array *)
  message : option Message
}.

(** The node mapping, in the order [Object.keys] lists it.  An entry whose
    value is [null] is [(key, None)].  A parsed JSON object has distinct
    keys; lookup takes the first entry of a key. *)
Definition Mapping : Type := list (string * option Node).

Record Conversation : Type := mkConversation {
  conversation_id : option string;
  conv_id : option string;
  title : option string;
  create_time : value;
  update_time : value;
  current_node : option string;
  default_model_slug : option string;
  mapping : Mapping
}.

Definition keys (m : Mapping) : list string := map fst m.

(** [mapping[nodeId]], as far as its truthiness goes: [None] when the key is
    absent or its value is [null]. *)
Fixpoint mget (m : Mapping) (nodeId : string) : option Node :=
  match m with
  | [] => None
  | (k, v) :: rest => if String.eqb k nodeId then v else mget rest nodeId
  end.

(** ** The output *)

(** The fields of a Qwen message that vary; the constant ones
    ([chat_type], [edited], [done], ...) and [modelName] are left out.  For an
    assistant [content] is empty and the text is the [content] of the one
    [content_list] entry; a user message has [models] and no [model]. *)
Record QwenMessage : Type := mkQwenMessage {
  id : option string;
  role : string;
  content : string;
  content_list : list string;
  model : option string;
  models : option (list string);
  parentId : option string;
  childrenIds : list string;
  timestamp : option jsnum
}.

Record Meta : Type := mkMeta {
  meta_timestamp : option jsnum;
    (* [None]: the record has no [timestamp] field *)
  tags : list string
}.

Record OutputConversation : Type := mkOutput {
  out_id : string;
  out_title : string;
  messages : list QwenMessage;
  currentId : option string;
  currentResponseIds : list string;
  out_models : option (list string);
  created_at : option jsnum;
  updated_at : option jsnum;
  meta : Meta
}.

(** ** Outcomes of a run *)

Inductive outcome (A : Type) : Type :=
| Ok (a : A)
| OutOfFuel
| Throws.
Arguments Ok {A} a.
Arguments OutOfFuel {A}.
Arguments Throws {A}.

Definition bind {A B : Type} (r : outcome A) (k : A -> outcome B) : outcome B :=
  match r with
  | Ok a => k a
  | OutOfFuel => OutOfFuel
  | Throws => Throws
  end.

Notation "x <- r ;; k" := (bind r (fun x => k))
  (at level 61, r at next level, right associativity).

(** ** [Set] and [Map] with string keys, in insertion order *)

Definition Set_has (s : list string) (x : string) : bool :=
  existsb (String.eqb x) s.

Definition Set_add (s : list string) (x : string) : list string :=
  if Set_has s x then s else s ++ [x].

(** [new Set(array)] *)
Definition Set_of (l : list string) : list string := fold_left Set_add l [].

Fixpoint Map_get {V : Type} (m : list (string * V)) (k : string) : option V :=
  match m with
  | [] => None
  | (k', v) :: rest => if String.eqb k' k then Some v else Map_get rest k
  end.

Definition Map_has {V : Type} (m : list (string * V)) (k : string) : bool :=
  match Map_get m k with Some _ => true | None => false end.

Fixpoint Map_set {V : Type} (m : list (string * V)) (k : string) (v : V) : list (string * V) :=
  match m with
  | [] => [(k, v)]
  | (k', v') :: rest =>
      if String.eqb k' k then (k', v) :: rest else (k', v') :: Map_set rest k v
  end.

(** The message objects live in the [messages] array; an object is named by
    its position there.  [update i f l] is the mutation of object [i]. *)
Fixpoint update {A : Type} (i : nat) (f : A -> A) (l : list A) : list A :=
  match l, i with
  | [], _ => []
  | x :: rest, 0 => f x :: rest
  | x :: rest, S j => x :: update j f rest
  end.

(** ** The leaf functions of [converter.js] *)

(** [normalizeRole] (lines 403-412). *)
Definition normalizeRole (role : option string) : string :=
  let default := match or_null role with Some r => r | None => "assistant" end in
  match role with
  | Some r =>
      if String.eqb r "user" then "user"
      else if String.eqb r "assistant" then "assistant"
      else default
  | None => default
  end.

(** One turn of the loop of [extractContent] over [parts]. *)
Definition pushPart (textParts : list string) (part : Part) : list string :=
  match part with
  | PString s => textParts ++ [s]
  | PObject (Some t) _ => textParts ++ [t]
  | PObject None asset => if truthy_opt asset then textParts ++ ["[Asset]"] else textParts
  | POther => textParts
  end.

(** [extractContent] (lines 414-433). *)
Definition extractContent (message : option Message) : string :=
  match message with
  | None => ""
  | Some msg =>
      match content_parts msg with
      | None => ""
      | Some parts =>
          let textParts := fold_left pushPart parts [] in
          trim (join newline textParts)
      end
  end.

(** [buildMeta] (lines 232-241), on what [sanitizeTimestamp] returns. *)
Definition buildMeta (createdAt : option jsnum) : Meta :=
  let timestamp :=
    match createdAt with
    | Some n => if negb (Number_isNaN n) then Some (Number_mul n (Fin (inject_Z 1000))) else None
    | None => None
    end in
  match timestamp with
  | Some t => if Number_truthy t then {| meta_timestamp := Some t; tags := [] |}
              else {| meta_timestamp := None; tags := [] |}
  | None => {| meta_timestamp := None; tags := [] |}
  end.

(** [buildQwenMessage] (lines 243-303); [msg] is [node.message]. *)
Definition buildQwenMessage (node : Node) (msg : Message) (role text : string)
    (timestamp : option jsnum) (conversation : Conversation) : QwenMessage :=
  let id := if truthy_opt (message_id msg) then message_id msg else node_id node in
  let defaultModel := or_null (default_model_slug conversation) in
  let modelSlug := if truthy_opt (model_slug msg) then model_slug msg else defaultModel in
  if String.eqb role "assistant" then
    {| id := id; role := "assistant"; content := ""; content_list := [text];
       model := or_null modelSlug; models := None;
       parentId := None; childrenIds := []; timestamp := timestamp |}
  else
    {| id := id; role := "user"; content := text; content_list := [];
       model := None;
       models := Some (match or_null modelSlug with Some slug => [slug] | None => [] end);
       parentId := None; childrenIds := []; timestamp := timestamp |}.

(** [collectModels] (lines 215-230); [seen] is the set [models] of the code. *)
Definition collectModels (messages : list QwenMessage) : list string :=
  fold_left
    (fun seen message =>
       let seen :=
         if String.eqb (role message) "assistant" then
           match or_null (model message) with Some m => Set_add seen m | None => seen end
         else seen in
       match models message with
       | Some l => fold_left (fun seen m => if truthy m then Set_add seen m else seen) l seen
       | None => seen
       end)
    messages [].

(** ** Path reconstruction *)

(** The parent the two upward walks step to from [nodeId]:
    [(mapping[nodeId] && mapping[nodeId].parent) || null]. *)
Definition parentOf (mapping : Mapping) (nodeId : string) : option string :=
  match mget mapping nodeId with
  | Some node => or_null (parent node)
  | None => None
  end.

(** [findRootNodes] (lines 384-391). *)
Definition findRootNodes (mapping : Mapping) : list string :=
  filter
    (fun nodeId =>
       match mget mapping nodeId with
       | None => false
       | Some node =>
           match or_null (parent node) with
           | None => true
           | Some p => match mget mapping p with None => true | Some _ => false end
           end
       end)
    (keys mapping).

(** The [while] loop of [getPathToRoot] (lines 393-401); [path.unshift] is a
    cons. *)
Fixpoint getPathToRoot_loop (fuel : nat) (mapping : Mapping)
    (currentId : option string) (path : list string) : outcome (list string) :=
  match fuel with
  | 0 => OutOfFuel
  | S fuel' =>
      match currentId with
      | None => Ok path
      | Some cid =>
          if truthy cid then
            match mget mapping cid with
            | Some node =>
                getPathToRoot_loop fuel' mapping (or_null (parent node)) (cid :: path)
            | None => Ok path
            end
          else Ok path
      end
  end.

Definition getPathToRoot (fuel : nat) (nodeId : string) (mapping : Mapping)
  : outcome (list string) :=
  getPathToRoot_loop fuel mapping (Some nodeId) [].

(** The [for] loop of [traverseFromNode] over [node.children] (lines
    372-378): the first child whose traversal is not empty ends the loop.
    [visit] is the recursive call. *)
Fixpoint firstBranch (visit : string -> list string -> outcome (list string * list string))
    (childIds : list string) (visited : list string)
  : outcome (list string * list string) :=
  match childIds with
  | [] => Ok ([], visited)
  | childId :: rest =>
      r <- visit childId visited ;;
      match fst r with
      | [] => firstBranch visit rest (snd r)
      | _ :: _ => Ok r
      end
  end.

(** [traverseFromNode] (lines 359-382).  The [visited] set is shared by all
    the recursive calls, so it is threaded through: the function returns the
    sequence and the set as the call leaves it. *)
Fixpoint traverseFromNode (fuel : nat) (nodeId : string) (mapping : Mapping)
    (visited : list string) : outcome (list string * list string) :=
  match fuel with
  | 0 => OutOfFuel
  | S fuel' =>
      if negb (truthy nodeId) || Set_has visited nodeId then Ok ([], visited)
      else
        let visited := Set_add visited nodeId in
        match mget mapping nodeId with
        | None => Ok ([], visited)
        | Some node =>
            match children node with
            | Some (c :: cs) =>
                r <- firstBranch
                       (fun childId visited => traverseFromNode fuel' childId mapping visited)
                       (c :: cs) visited ;;
                Ok (nodeId :: fst r, snd r)
            | _ => Ok ([nodeId], visited)
            end
        end
  end.

(** The [for] loop of [expandPath] (lines 347-355). *)
Fixpoint expandPath_loop (fuel : nat) (mapping : Mapping) (path result : list string)
  : outcome (list string) :=
  match path with
  | [] => Ok result
  | nodeId :: rest =>
      let result := result ++ [nodeId] in
      match mget mapping nodeId with
      | Some node =>
          match children node with
          | Some (child0 :: _) =>
              childTraversal <- traverseFromNode fuel child0 mapping (Set_of result) ;;
              Ok (result ++ fst childTraversal)
          | _ => expandPath_loop fuel mapping rest result
          end
      | None => expandPath_loop fuel mapping rest result
      end
  end.

(** [expandPath] (lines 345-357). *)
Definition expandPath (fuel : nat) (path : list string) (mapping : Mapping)
  : outcome (list string) :=
  result <- expandPath_loop fuel mapping path [] ;;
  Ok (Set_of result).

(** [reconstructMessagePath] (lines 325-343). *)
Definition reconstructMessagePath (fuel : nat) (conversation : Conversation)
  : outcome (list string) :=
  let mapping := mapping conversation in
  match keys mapping with
  | [] => Ok []
  | _ :: _ =>
      match findRootNodes mapping with
      | [] => Ok []
      | root0 :: _ =>
          match or_null (current_node conversation) with
          | Some cur =>
              match mget mapping cur with
              | Some _ =>
                  path <- getPathToRoot fuel cur mapping ;;
                  expandPath fuel path mapping
              | None =>
                  r <- traverseFromNode fuel root0 mapping [] ;; Ok (fst r)
              end
          | None =>
              r <- traverseFromNode fuel root0 mapping [] ;; Ok (fst r)
          end
      end
  end.

(** [findIncludedAncestor] (lines 313-323). *)
Fixpoint findIncludedAncestor (fuel : nat) (nodeId : option string)
    (includedIds : list string) (mapping : Mapping) : outcome (option string) :=
  match fuel with
  | 0 => OutOfFuel
  | S fuel' =>
      match nodeId with
      | None => Ok None
      | Some currentId =>
          if truthy currentId then
            if Set_has includedIds currentId then Ok (Some currentId)
            else findIncludedAncestor fuel' (parentOf mapping currentId) includedIds mapping
          else Ok None
      end
  end.

(** ** Filtering, re-linking and assembly: [transformConversation] *)

(** What the first loop of [transformConversation] builds: the set
    [includedIds], the map [messageMap] (a message object is its position in
    [messages]) and the array [messages]. *)
Record FilterState : Type := mkFilterState {
  includedIds : list string;
  messageMap : list (string * nat);
  st_messages : list QwenMessage
}.

Definition emptyState : FilterState :=
  {| includedIds := []; messageMap := []; st_messages := [] |}.

(** [current.parentId = p; current.childrenIds = []] *)
Definition set_links (p : option string) (m : QwenMessage) : QwenMessage :=
  {| id := id m; role := role m; content := content m; content_list := content_list m;
     model := model m; models := models m;
     parentId := p; childrenIds := []; timestamp := timestamp m |}.

(** [parent.childrenIds.push(nodeId)] *)
Definition push_child (nodeId : string) (m : QwenMessage) : QwenMessage :=
  {| id := id m; role := role m; content := content m; content_list := content_list m;
     model := model m; models := models m;
     parentId := parentId m; childrenIds := childrenIds m ++ [nodeId];
     timestamp := timestamp m |}.

(** The second loop (lines 150-157), over the ids still to visit. *)
Fixpoint wireParents (fuel : nat) (mapping : Mapping) (included : list string)
    (msgMap : list (string * nat)) (ids : list string) (heap : list QwenMessage)
  : outcome (list QwenMessage) :=
  match ids with
  | [] => Ok heap
  | nodeId :: rest =>
      match Map_get msgMap nodeId with
      | None => wireParents fuel mapping included msgMap rest heap
      | Some current =>
          match mget mapping nodeId with
          | None => Throws
          | Some node =>
              p <- findIncludedAncestor fuel (parent node) included mapping ;;
              wireParents fuel mapping included msgMap rest
                (update current (set_links p) heap)
          end
      end
  end.

(** The third loop (lines 159-169). *)
Fixpoint wireChildren (msgMap : list (string * nat)) (ids : list string)
    (heap : list QwenMessage) : list QwenMessage :=
  match ids with
  | [] => heap
  | nodeId :: rest =>
      match Map_get msgMap nodeId with
      | None => wireChildren msgMap rest heap
      | Some current =>
          let parentId :=
            match nth_error heap current with
            | Some cur => parentId cur
            | None => None
            end in
          match or_null parentId with
          | Some pid =>
              match Map_get msgMap pid with
              | Some parent => wireChildren msgMap rest (update parent (push_child nodeId) heap)
              | None => wireChildren msgMap rest heap
              end
          | None => wireChildren msgMap rest heap
          end
      end
  end.

(** [[...messages].reverse().find(msg => msg.role === "assistant")] *)
Definition lastAssistant (messages : list QwenMessage) : option QwenMessage :=
  find (fun msg => String.eqb (role msg) "assistant") (rev messages).

(** [messages[messages.length - 1]] *)
Definition lastMessage (messages : list QwenMessage) : option QwenMessage :=
  match messages with
  | [] => None
  | _ :: _ => nth_error messages (length messages - 1)
  end.

(** [(lastAssistant || lastMessage)?.id || null] (line 178). *)
Definition chooseCurrentId (messages : list QwenMessage) : option string :=
  let chosen :=
    match lastAssistant messages with
    | Some m => Some m
    | None => lastMessage messages
    end in
  or_null (match chosen with Some m => id m | None => None end).

(** [currentId && lastAssistant ? [currentId] : []] (line 179). *)
Definition chooseCurrentResponseIds (messages : list QwenMessage) : list string :=
  match chooseCurrentId messages, lastAssistant messages with
  | Some c, Some _ => [c]
  | _, _ => []
  end.

(** [chatModels.length > 0 ? chatModels : null] *)
Definition modelsOrNull (chatModels : list string) : option (list string) :=
  match chatModels with
  | [] => None
  | _ :: _ => Some chatModels
  end.

Definition string_of_index (index : nat) : string :=
  NilEmpty.string_of_uint (Nat.to_uint index).

Section Transform.

(** The global [parseFloat]. *)
Variable parseFloat : string -> jsnum.

(** [sanitizeTimestamp] (lines 435-446). *)
Definition sanitizeTimestamp (v : value) : option jsnum :=
  match v with
  | VNum n => if negb (Number_isNaN n) then Some (Math_floor n) else None
  | VStr s =>
      let parsed := parseFloat s in
      if negb (Number_isNaN parsed) then Some (Math_floor parsed) else None
  | _ => None
  end.

(** One turn of the first loop (lines 121-147). *)
Definition filterStep (conversation : Conversation) (st : FilterState) (nodeId : string)
  : FilterState :=
  match mget (mapping conversation) nodeId with
  | None => st
  | Some node =>
      match message node with
      | None => st
      | Some msg =>
          let role := normalizeRole (author_role msg) in
          if negb (String.eqb role "user") && negb (String.eqb role "assistant") then st
          else
            let text := extractContent (Some msg) in
            if negb (truthy text) then st
            else
              let timestamp := sanitizeTimestamp (message_create_time msg) in
              let qwenMessage := buildQwenMessage node msg role text timestamp conversation in
              {| includedIds := Set_add (includedIds st) nodeId;
                 messageMap := Map_set (messageMap st) nodeId (length (st_messages st));
                 st_messages := st_messages st ++ [qwenMessage] |}
      end
  end.

Definition filterNodes (conversation : Conversation) (orderedNodeIds : list string)
  : FilterState :=
  fold_left (filterStep conversation) orderedNodeIds emptyState.

(** Lines 171-212: the record built from the finished [messages]. *)
Definition assemble (conversation : Conversation) (index : nat)
    (messages : list QwenMessage) : OutputConversation :=
  let createdAt := sanitizeTimestamp (create_time conversation) in
  let updatedAt :=
    sanitizeTimestamp
      (match update_time conversation with
       | VUndefined => create_time conversation
       | u => u
       end) in
  let chatModels := collectModels messages in
  {| out_id :=
       match or_null (conversation_id conversation) with
       | Some i => i
       | None =>
           match or_null (conv_id conversation) with
           | Some i => i
           | None => "conversation-" ++ string_of_index index
           end
       end;
     out_title :=
       match or_null (title conversation) with
       | Some t => t
       | None => "Untitled Conversation"
       end;
     messages := messages;
     currentId := chooseCurrentId messages;
     currentResponseIds := chooseCurrentResponseIds messages;
     out_models := modelsOrNull chatModels;
     created_at := createdAt;
     updated_at := updatedAt;
     meta := buildMeta createdAt |}.

(** [transformConversation] (lines 114-213). *)
Definition transformConversation (fuel : nat) (conversation : Conversation) (index : nat)
  : outcome OutputConversation :=
  let mapping := mapping conversation in
  orderedNodeIds <- reconstructMessagePath fuel conversation ;;
  let st := filterNodes conversation orderedNodeIds in
  wired <- wireParents fuel mapping (includedIds st) (messageMap st)
             (includedIds st) (st_messages st) ;;
  let messages := wireChildren (messageMap st) (includedIds st) wired in
  Ok (assemble conversation index messages).

End Transform.

(** ** Ancestors along the original parent links *)

(** The node reached from [nodeId] by [n] parent steps. *)
Fixpoint ancestor (mapping : Mapping) (n : nat) (nodeId : string) : option string :=
  match n with
  | 0 => Some nodeId
  | S n' =>
      match parentOf mapping nodeId with
      | Some p => ancestor mapping n' p
      | None => None
      end
  end.

(** The mapping is a forest under [parent]: no node is its own ancestor. *)
Definition acyclic (mapping : Mapping) : Prop :=
  forall nodeId n, ancestor mapping (S n) nodeId <> Some nodeId.

(** The same, as a test: from every key the parent links run out within
    as many steps as there are entries. *)
Definition acyclicb (mapping : Mapping) : bool :=
  forallb
    (fun k => match ancestor mapping (S (length mapping)) k with
              | None => true
              | Some _ => false
              end)
    (keys mapping).

(** ** What the specification says, in its own words *)

(** Content extraction: what one part contributes. *)
Definition emitted (part : Part) : list string :=
  match part with
  | PString s => [s]
  | PObject (Some t) _ => [t]
  | PObject None (Some pointer) => if truthy pointer then ["[Asset]"] else []
  | PObject None None => []
  | POther => []
  end.

(** [m] is the last assistant message of the list. *)
Definition LastAssistant (msgs : list QwenMessage) (m : QwenMessage) : Prop :=
  exists before after,
    msgs = before ++ m :: after /\
    role m = "assistant" /\
    Forall (fun x => role x <> "assistant") after.

Definition NoAssistant (msgs : list QwenMessage) : Prop :=
  Forall (fun x => role x <> "assistant") msgs.

(** [m] is the last message of the list. *)
Definition LastOverall (msgs : list QwenMessage) (m : QwenMessage) : Prop :=
  exists before, msgs = before ++ [m].

(** The current-message pointers as section 4.6 words them: [cur] is the id
    of the last assistant message, else of the last message, else null; [resp]
    is the singleton of [cur] when the chosen message is an assistant message
    and empty otherwise. *)
Definition pointers_as_written (msgs : list QwenMessage) (cur : option string)
    (resp : list string) : Prop :=
  (forall m, LastAssistant msgs m -> cur = id m /\ map Some resp = [cur]) /\
  (forall m, NoAssistant msgs -> LastOverall msgs m -> cur = id m /\ resp = []) /\
  (msgs = [] -> cur = None /\ resp = []).

(** The links of a message list are closed: every [parentId] is null or the
    [id] of another message of the list, and every entry of [childrenIds] is
    the [id] of another message of the list. *)
Definition links_closed (msgs : list QwenMessage) : Prop :=
  forall i m, nth_error msgs i = Some m ->
    (parentId m = None \/
     exists j other, j <> i /\ nth_error msgs j = Some other /\ id other = parentId m) /\
    (forall c, In c (childrenIds m) ->
     exists j sibling, j <> i /\ nth_error msgs j = Some sibling /\ id sibling = Some c).

(** The id [buildQwenMessage] gives the message of a node. *)
Definition messageIdOf (node : Node) (msg : Message) : option string :=
  if truthy_opt (message_id msg) then message_id msg else node_id node.

(** Every node that carries a message has its mapping key as the id of that
    message. *)
Definition ids_follow_keys (m : Mapping) : Prop :=
  forall k node msg,
    mget m k = Some node -> message node = Some msg -> messageIdOf node msg = Some k.

Definition option_string_eqb (a b : option string) : bool :=
  match a, b with
  | Some x, Some y => String.eqb x y
  | None, None => true
  | _, _ => false
  end.

(** [ids_follow_keys], entry by entry. *)
Definition ids_follow_keysb (m : Mapping) : bool :=
  forallb
    (fun kv =>
       match snd kv with
       | Some node =>
           match message node with
           | Some msg => option_string_eqb (messageIdOf node msg) (Some (fst kv))
           | None => true
           end
       | None => true
       end)
    m.

(** [p] is what section 4.4 calls the resolved parent of [k]: the nearest
    node of [surviving] up the original parent chain of [k], a node other
    than [k]; null when the chain has no surviving node.  [ancestor m (S n) k]
    is the node [n + 1] parent steps above [k]. *)
Definition nearest_surviving_ancestor (m : Mapping) (surviving : list string)
    (k : string) (p : option string) : Prop :=
  match p with
  | Some a =>
      a <> k /\ In a surviving /\
      exists n, ancestor m (S n) k = Some a /\
                forall j b, j < n -> ancestor m (S j) k = Some b -> ~ In b surviving
  | None => forall n b, ancestor m (S n) k = Some b -> ~ In b surviving
  end.

(** The entry is a surviving node whose resolved parent is [k]. *)
Definition isChildOf (k : string) (entry : string * QwenMessage) : bool :=
  match parentId (snd entry) with
  | Some p => String.eqb p k
  | None => false
  end.

(** The surviving nodes whose resolved parent is [k], in the order of the
    filtered sequence. *)
Definition children_among (linked : list (string * QwenMessage)) (k : string)
  : list string :=
  map fst (filter (isChildOf k) linked).

(** Section 3 and 9: a role that is neither ["user"] nor ["assistant"]
    normalizes to ["assistant"]. *)
Definition role_as_written (r : string) : Prop :=
  r <> "user" -> r <> "assistant" -> normalizeRole (Some r) = "assistant".

(** Section 4.1: the floor of a finite number, the floor of the parsed value
    of a string that parses, and null for every other value. *)
Definition timestamp_as_written (parseFloat : string -> jsnum) (v : value) : Prop :=
  match v with
  | VNum (Fin q) => sanitizeTimestamp parseFloat v = Some (Fin (inject_Z (Qfloor q)))
  | VStr s =>
      match parseFloat s with
      | NaN => sanitizeTimestamp parseFloat v = None
      | parsed => sanitizeTimestamp parseFloat v = Some (Math_floor parsed)
      end
  | _ => sanitizeTimestamp parseFloat v = None
  end.

(** ** Example conversations *)

Definition textMessage (msgId : option string) (msgRole text : string) : Message :=
  {| message_id := msgId; author_role := Some msgRole;
     content_parts := Some [PString text];
     message_create_time := VUndefined; model_slug := None |}.

Definition entry (key : string) (nodeParent : option string) (nodeChildren : list string)
    (msg : option Message) : string * option Node :=
  (key, Some {| node_id := Some key; parent := nodeParent;
                children := Some nodeChildren; message := msg |}).

Definition conversationOf (current : option string) (m : Mapping) : Conversation :=
  {| conversation_id := None; conv_id := None; title := None;
     create_time := VUndefined; update_time := VUndefined;
     current_node := current; default_model_slug := None; mapping := m |}.

(** The scenario of section 8: r -> a -> b -> c -> d, current node d. *)
Definition chainConversation : Conversation :=
  conversationOf (Some "d")
    [ entry "r" None ["a"] None;
      entry "a" (Some "r") ["b"] (Some (textMessage (Some "a") "user" "hi"));
      entry "b" (Some "a") ["c"] (Some (textMessage (Some "b") "assistant" "hello"));
      entry "c" (Some "b") ["d"] (Some (textMessage (Some "c") "system" "ignored"));
      entry "d" (Some "c") [] (Some (textMessage (Some "d") "assistant" "bye")) ].

(** A root with two replies; the current node is the second one. *)
Definition branchConversation : Conversation :=
  conversationOf (Some "b")
    [ entry "r" None ["a"; "b"] None;
      entry "a" (Some "r") [] (Some (textMessage (Some "a") "assistant" "one"));
      entry "b" (Some "r") [] (Some (textMessage (Some "b") "assistant" "two")) ].

(** A root, and two nodes that are each other's parent; the current node is
    one of the two. *)
Definition cyclicConversation : Conversation :=
  conversationOf (Some "a")
    [ entry "r" None [] None;
      entry "a" (Some "b") ["b"] (Some (textMessage (Some "a") "user" "hi"));
      entry "b" (Some "a") ["a"] (Some (textMessage (Some "b") "assistant" "yo")) ].

(** No current node; the one message below the root names as its parent a
    node of a two-node parent cycle. *)
Definition strayParentConversation : Conversation :=
  conversationOf None
    [ entry "r" None ["a"] None;
      entry "a" (Some "x") [] (Some (textMessage (Some "a") "user" "hi"));
      entry "x" (Some "y") [] None;
      entry "y" (Some "x") [] None ].

(** Two messages whose [message.id] differs from their mapping key. *)
Definition renamedConversation : Conversation :=
  conversationOf None
    [ entry "k1" None ["k2"] (Some (textMessage (Some "m1") "user" "hi"));
      entry "k2" (Some "k1") [] (Some (textMessage (Some "m2") "assistant" "yo")) ].

(** One assistant message that carries no id, neither on the message nor on
    its node. *)
Definition anonymousConversation : Conversation :=
  conversationOf None
    [ ("n", Some {| node_id := None; parent := None; children := Some [];
                    message := Some (textMessage None "assistant" "x") |}) ].

(** An assistant message whose only part is an asset pointer. *)
Definition assetConversation : Conversation :=
  conversationOf None
    [ ("n", Some {| node_id := Some "n"; parent := None; children := Some [];
                    message := Some {| message_id := Some "n";
                                       author_role := Some "assistant";
                                       content_parts := Some [PObject None (Some "x")];
                                       message_create_time := VUndefined;
                                       model_slug := None |} |}) ].

(** A conversation created at second 1700000000.5. *)
Definition datedConversation : Conversation :=
  {| conversation_id := Some "c"; conv_id := None; title := None;
     create_time := VNum (Fin (3400000001 # 2)%Q); update_time := VUndefined;
     current_node := None; default_model_slug := None; mapping := [] |}.

Definition plainMessage (msgId msgRole : string) : QwenMessage :=
  {| id := Some msgId; role := msgRole; content := ""; content_list := [];
     model := None; models := None; parentId := None; childrenIds := [];
     timestamp := None |}.

(** ** Auxiliary definitions of the proofs *)

(** The first [n] nodes of the parent chain of [k]. *)
Fixpoint chain (m : Mapping) (n : nat) (k : string) : list string :=
  match n with
  | 0 => []
  | S n' => k :: match parentOf m k with
                 | Some p => chain m n' p
                 | None => []
                 end
  end.

(** A chain from a start that may be null. *)
Definition ancestor_from (m : Mapping) (start : option string) (n : nat) : option string :=
  match start with
  | Some c => ancestor m n c
  | None => None
  end.

(** The keys not yet visited bound the depth of [traverseFromNode]. *)
Definition unvisited (m : Mapping) (visited : list string) : nat :=
  length (filter (fun k => negb (Set_has visited k)) (keys m)).

(** What a traversal leaves behind: [visited] only grows, and the sequence
    has no repetition and consists of nodes that were new. *)
Definition traversed (visited seq visited' : list string) : Prop :=
  incl visited visited' /\ NoDup seq /\
  forall x, In x seq -> ~ In x visited /\ In x visited'.

(** The resolved parent of a node: what [findIncludedAncestor] answers from
    the node's parent when given fuel for every entry of the mapping. *)
Definition resolvedParent (m : Mapping) (included : list string) (nodeId : string)
  : option string :=
  match mget m nodeId with
  | Some node =>
      match findIncludedAncestor (length m + 2) (parent node) included m with
      | Ok p => p
      | _ => None
      end
  | None => None
  end.

(** The three structures of the filter loop agree: the i-th included id is
    mapped to the i-th message, which is the fresh message of its node. *)
Definition state_ok (m : Mapping) (st : FilterState) : Prop :=
  NoDup (includedIds st) /\
  length (st_messages st) = length (includedIds st) /\
  forall i k, nth_error (includedIds st) i = Some k ->
    Map_get (messageMap st) k = Some i /\
    exists node msg q,
      mget m k = Some node /\ message node = Some msg /\
      nth_error (st_messages st) i = Some q /\
      id q = messageIdOf node msg /\ parentId q = None /\ childrenIds q = [].

(** [k] is a surviving node whose resolved parent is [parentKey]. *)
Definition childOfb (m : Mapping) (included : list string) (parentKey k : string) : bool :=
  match resolvedParent m included k with
  | Some p => String.eqb p parentKey
  | None => false
  end.

(** A message after the pushes of the children [cs]. *)
Definition add_children (cs : list string) (q : QwenMessage) : QwenMessage :=
  {| id := id q; role := role q; content := content q; content_list := content_list q;
     model := model q; models := models q;
     parentId := parentId q; childrenIds := childrenIds q ++ cs;
     timestamp := timestamp q |}.

From Stdlib Require Import Permutation Sorted DecimalNat.

(** ** The batch: [getComparableTimestamp], [sortConversations] and the loop of [main] *)

(** The [-] operator on numbers. *)
Definition Number_sub (a b : jsnum) : jsnum :=
  match a, b with
  | NaN, _ | _, NaN => NaN
  | Inf s, Inf t => if Bool.eqb s t then NaN else Inf s
  | Inf s, Fin _ => Inf s
  | Fin _, Inf t => Inf (negb t)
  | Fin p, Fin q => Fin (Qminus p q)
  end.

(** [v > 0], as [Array.prototype.sort] reads what its comparator returns: a
    NaN counts as 0. *)
Definition Number_positive (n : jsnum) : bool :=
  match n with
  | NaN => false
  | Inf negative => negb negative
  | Fin q => (0 <? Qnum q)%Z
  end.

(** [a <= b] on numbers; false when one of them is NaN. *)
Definition Number_le (a b : jsnum) : bool :=
  match a, b with
  | NaN, _ | _, NaN => false
  | Inf true, _ => true
  | _, Inf false => true
  | Inf false, _ => false
  | _, Inf true => false
  | Fin p, Fin q => Qle_bool p q
  end.

(** [Array.prototype.sort]: the sort is stable, and [compare a b > 0] puts
    [a] after [b].  The element [x] stood before all of [sorted], so it goes
    in front of the first element it need not follow. *)
Fixpoint insertSorted {A : Type} (compare : A -> A -> jsnum) (x : A) (sorted : list A)
  : list A :=
  match sorted with
  | [] => [x]
  | y :: rest =>
      if Number_positive (compare x y) then y :: insertSorted compare x rest
      else x :: sorted
  end.

Definition Array_sort {A : Type} (compare : A -> A -> jsnum) (l : list A) : list A :=
  fold_right (insertSorted compare) [] l.

(** The node passes the three tests of the filter loop (lines 123-133). *)
Definition qualifies (conversation : Conversation) (nodeId : string) : bool :=
  match mget (mapping conversation) nodeId with
  | Some node =>
      match message node with
      | Some msg =>
          let role := normalizeRole (author_role msg) in
          (String.eqb role "user" || String.eqb role "assistant")
          && truthy (extractContent (Some msg))
      | None => false
      end
  | None => false
  end.

(** A timestamp as [sanitizeTimestamp] leaves it: an integer or an infinity. *)
Definition integral (n : jsnum) : Prop :=
  match n with
  | NaN => False
  | Inf _ => True
  | Fin q => exists z, q = inject_Z z
  end.

(** Each element of the list is related to the next one. *)
Inductive chained (R : string -> string -> Prop) : list string -> Prop :=
| chained_nil : chained R []
| chained_one x : chained R [x]
| chained_cons x y rest : R x y -> chained R (y :: rest) -> chained R (x :: y :: rest).

(** The id is a non-empty string and the mapping has a node for it. *)
Definition present (m : Mapping) (nodeId : string) : Prop :=
  truthy nodeId = true /\ mget m nodeId <> None.

(** [x] is the parent the upward walks step to from [y]. *)
Definition parentLink (m : Mapping) (x y : string) : Prop := parentOf m y = Some x.

(** [nodeId] is a root as [findRootNodes] tests it. *)
Definition isRoot (m : Mapping) (nodeId : string) : Prop :=
  exists node,
    mget m nodeId = Some node /\
    (or_null (parent node) = None \/
     exists p, or_null (parent node) = Some p /\ mget m p = None).

(** [child] is listed in [node.children] of the node [nodeId]. *)
Definition listsChild (m : Mapping) (nodeId child : string) : Prop :=
  exists node cs, mget m nodeId = Some node /\ children node = Some cs /\ In child cs.

(** [child] is the first entry of [node.children] of the node [nodeId]. *)
Definition firstChild (m : Mapping) (nodeId child : string) : Prop :=
  exists node cs, mget m nodeId = Some node /\ children node = Some (child :: cs).

(** What one message contributes to [collectModels]. *)
Definition contributes (q : QwenMessage) (s : string) : Prop :=
  truthy s = true /\
  ((role q = "assistant" /\ model q = Some s) \/
   exists l, models q = Some l /\ In s l).

(** One turn of the loop of [collectModels]. *)
Definition collectStep (seen : list string) (message : QwenMessage) : list string :=
  let seen :=
    if String.eqb (role message) "assistant" then
      match or_null (model message) with Some m => Set_add seen m | None => seen end
    else seen in
  match models message with
  | Some l => fold_left (fun seen m => if truthy m then Set_add seen m else seen) l seen
  | None => seen
  end.

(** The sequence starts at [nodeId] and follows [children] links through
    ids that have a node. *)
Definition descent_from (m : Mapping) (nodeId : string) (seq : list string) : Prop :=
  (exists rest, seq = nodeId :: rest) /\
  chained (listsChild m) seq /\ Forall (present m) seq.

(** The message the filter loop builds for a node (lines 125-142), as a list:
    empty when the node does not qualify. *)
Definition projectNode (parseFloat : string -> jsnum) (conversation : Conversation)
    (nodeId : string) : list QwenMessage :=
  match mget (mapping conversation) nodeId with
  | Some node =>
      match message node with
      | Some msg =>
          if qualifies conversation nodeId then
            [buildQwenMessage node msg (normalizeRole (author_role msg))
               (extractContent (Some msg))
               (sanitizeTimestamp parseFloat (message_create_time msg)) conversation]
          else []
      | None => []
      end
  | None => []
  end.

(** A message of the output is well formed: a user message has its text in
    [content], an assistant message has an empty [content] and its text in
    the one entry of [content_list]; the text is not empty; the timestamp is
    null or an integer or an infinity. *)
Definition well_formed (q : QwenMessage) : Prop :=
  ((role q = "user" /\ content q <> "" /\ content_list q = []) \/
   (role q = "assistant" /\ content q = "" /\
    exists text, content_list q = [text] /\ text <> "")) /\
  (forall n, timestamp q = Some n -> integral n).

(** The links of a message name surviving nodes only. *)
Definition links_within (included : list string) (q : QwenMessage) : Prop :=
  (forall p, parentId q = Some p -> In p included /\ p <> "") /\
  incl (childrenIds q) included.

Section Batch.

Variable parseFloat : string -> jsnum.

(** [getComparableTimestamp] (lines 107-112). *)
Definition getComparableTimestamp (conversation : Conversation) : jsnum :=
  let updateTime := sanitizeTimestamp parseFloat (update_time conversation) in
  let createTime := sanitizeTimestamp parseFloat (create_time conversation) in
  let fallback := match createTime with Some n => n | None => Fin (inject_Z 0) end in
  match updateTime with
  | Some n => n
  | None => fallback
  end.

(** The comparator of [sortConversations] (lines 100-104). *)
Definition compareConversations (a b : Conversation) : jsnum :=
  let aTime := getComparableTimestamp a in
  let bTime := getComparableTimestamp b in
  Number_sub bTime aTime.

(** [sortConversations] (lines 99-105). *)
Definition sortConversations (conversations : list Conversation) : list Conversation :=
  Array_sort compareConversations conversations.

(** [limited.map((conversation, index) => transformConversation(conversation, index))]
    (lines 78-80), from position [index] on. *)
Fixpoint transformEach (fuel : nat) (conversations : list Conversation) (index : nat)
  : outcome (list OutputConversation) :=
  match conversations with
  | [] => Ok []
  | conversation :: rest =>
      out <- transformConversation parseFloat fuel conversation index ;;
      outs <- transformEach fuel rest (S index) ;;
      Ok (out :: outs)
  end.

(** Lines 75-80 of [main]: sort, keep the first [limit] when a limit was
    given (a positive integer), transform each with its position. *)
Definition convertConversations (fuel : nat) (limit : option nat)
    (conversations : list Conversation) : outcome (list OutputConversation) :=
  let sorted := sortConversations conversations in
  let limited := match limit with Some n => firstn n sorted | None => sorted end in
  transformEach fuel limited 0.

End Batch.

(** The string begins with a white-space character. *)
Definition startsBlank (s : string) : bool :=
  match s with
  | EmptyString => false
  | String c _ => isWhiteSpace c
  end.

(** The string ends with a white-space character. *)
Fixpoint endsBlank (s : string) : bool :=
  match s with
  | EmptyString => false
  | String c EmptyString => isWhiteSpace c
  | String _ rest => endsBlank rest
  end.

(** The string has white-space characters only. *)
Fixpoint allBlank (s : string) : bool :=
  match s with
  | EmptyString => true
  | String c rest => isWhiteSpace c && allBlank rest
  end.

(** The conversation has neither a [conversation_id] nor an [id]. *)
Definition anonymous (conversation : Conversation) : Prop :=
  or_null (conversation_id conversation) = None /\ or_null (conv_id conversation) = None.

(** The order [sortConversations] puts two conversations in: [a] may stand
    before [b] when the sort key of [b] is at most that of [a]. *)
Definition notOlder (parseFloat : string -> jsnum) (a b : Conversation) : Prop :=
  Number_le (getComparableTimestamp parseFloat b) (getComparableTimestamp parseFloat a) = true.

(** The two conversations have the same sort key. *)
Definition sameKey (parseFloat : string -> jsnum) (a b : Conversation) : bool :=
  Number_le (getComparableTimestamp parseFloat a) (getComparableTimestamp parseFloat b)
  && Number_le (getComparableTimestamp parseFloat b) (getComparableTimestamp parseFloat a).

(** Three conversations updated at seconds 10, 30 and 20. *)
Definition stampedConversation (name : string) (t : Z) : Conversation :=
  {| conversation_id := Some name; conv_id := None; title := None;
     create_time := VNum (Fin (inject_Z 1)); update_time := VNum (Fin (inject_Z t));
     current_node := None; default_model_slug := None; mapping := [] |}.

Definition stampedBatch : list Conversation :=
  [stampedConversation "old" 10; stampedConversation "new" 30; stampedConversation "mid" 20].

(** Where a model of the output comes from: the [default_model_slug] of the
    conversation, or the [model_slug] of a message whose node passes the
    filter. *)
Definition model_source (conversation : Conversation) (s : string) : Prop :=
  default_model_slug conversation = Some s \/
  exists k node msg,
    mget (mapping conversation) k = Some node /\ message node = Some msg /\
    qualifies conversation k = true /\ model_slug msg = Some s.

(** [chainConversation] with a default model, and a model of its own on the
    message of node b. *)
Definition modelledConversation : Conversation :=
  {| conversation_id := None; conv_id := None; title := None;
     create_time := VUndefined; update_time := VUndefined;
     current_node := Some "b"; default_model_slug := Some "gpt-4";
     mapping :=
       [ entry "r" None ["a"] None;
         entry "a" (Some "r") ["b"] (Some (textMessage (Some "a") "user" "hi"));
         ("b", Some {| node_id := Some "b"; parent := Some "a"; children := Some [];
                       message := Some {| message_id := Some "b";
                                          author_role := Some "assistant";
                                          content_parts := Some [PString "hello"];
                                          message_create_time := VUndefined;
                                          model_slug := Some "o1" |} |}) ] |}.

(** Two nodes that are each other's parent, and nothing else: the mapping
    has no root. *)
Definition rootlessConversation : Conversation :=
  conversationOf (Some "a")
    [ entry "a" (Some "b") ["b"] (Some (textMessage (Some "a") "user" "hi"));
      entry "b" (Some "a") ["a"] (Some (textMessage (Some "b") "assistant" "yo")) ].

(** A user message of two parts, blanks and a line break. *)
Definition blankMessage : Message :=
  {| message_id := Some "a"; author_role := Some "user";
     content_parts := Some [PString "  "; PString newline];
     message_create_time := VUndefined; model_slug := None |}.

(** The ancestor path of the current node of [chainConversation]. *)
Definition chainPath : list string := ["r"; "a"; "b"; "c"; "d"].

(** * Properties *)

(** ** Strings and truthiness *)

Lemma truthy_nonempty (s : string) : s <> "" -> truthy s = true.
Proof. destruct s; [congruence | reflexivity]. Qed.

Lemma truthy_true_nonempty (s : string) : truthy s = true -> s <> "".
Proof. destruct s; simpl; congruence. Qed.

Lemma or_null_Some (o : option string) (s : string) :
  or_null o = Some s -> o = Some s /\ truthy s = true.
Proof.
  unfold or_null. destruct o as [t|]; simpl; [|discriminate].
  destruct (truthy t) eqn:E; [|discriminate].
  intros H. inversion H. subst. auto.
Qed.

Lemma or_null_truthy (s : string) : truthy s = true -> or_null (Some s) = Some s.
Proof. unfold or_null. simpl. intros ->. reflexivity. Qed.

(** ** The primitives on small inputs *)

Example trim_both_ends : trim (String (ascii_of_nat 9) " a b  ") = "a b".
Proof. reflexivity. Qed.

Example trim_all_blank : trim "   " = "".
Proof. reflexivity. Qed.

Example join_three : join ", " ["a"; "b"; "c"] = "a, b, c".
Proof. reflexivity. Qed.

Example parse_prefix : decimalParseFloat "12.7abc" = Fin (127 # 10)%Q.
Proof. reflexivity. Qed.

Example parse_exponent : decimalParseFloat "  -3.5e2" = Fin (inject_Z (-350)).
Proof. reflexivity. Qed.

Example parse_infinity : decimalParseFloat "-Infinity" = Inf true.
Proof. reflexivity. Qed.

Example parse_nothing : decimalParseFloat "abc" = NaN.
Proof. reflexivity. Qed.

Example floor_negative : Math_floor (Fin (-1 # 2)%Q) = Fin (inject_Z (-1)).
Proof. reflexivity. Qed.

Example chain_path : reconstructMessagePath 6 chainConversation = Ok ["r"; "a"; "b"; "c"; "d"].
Proof. reflexivity. Qed.

Example chain_path_short_of_fuel : reconstructMessagePath 5 chainConversation = OutOfFuel.
Proof. reflexivity. Qed.

(** ** Role normalization *)

Lemma normalizeRole_other (r : string) :
  r <> "user" -> r <> "assistant" -> r <> "" -> normalizeRole (Some r) = r.
Proof.
  intros Hu Ha He. unfold normalizeRole.
  destruct (String.eqb_spec r "user"); [contradiction|].
  destruct (String.eqb_spec r "assistant"); [contradiction|].
  rewrite (or_null_truthy r (truthy_nonempty r He)). reflexivity.
Qed.

(** ** Content extraction *)

Lemma pushPart_emitted (part : Part) (acc : list string) :
  pushPart acc part = acc ++ emitted part.
Proof.
  destruct part as [s | [t|] [a|] | ]; simpl; try reflexivity;
    try (symmetry; apply app_nil_r).
  destruct (truthy a); [reflexivity | symmetry; apply app_nil_r].
Qed.

Lemma fold_pushPart (parts : list Part) (acc : list string) :
  fold_left pushPart parts acc = acc ++ flat_map emitted parts.
Proof.
  revert acc. induction parts as [|p parts IH]; intros acc; simpl.
  - symmetry. apply app_nil_r.
  - rewrite IH, pushPart_emitted, <- app_assoc. reflexivity.
Qed.

(** ** Timestamps and the meta record *)

Lemma buildMeta_tags (createdAt : option jsnum) : tags (buildMeta createdAt) = [].
Proof.
  unfold buildMeta. destruct createdAt as [n|]; [|reflexivity].
  destruct (negb (Number_isNaN n)); [|reflexivity].
  destruct (Number_truthy _); reflexivity.
Qed.

Section Properties.

Variable parseFloat : string -> jsnum.

Lemma sanitizeTimestamp_not_NaN (v : value) (n : jsnum) :
  sanitizeTimestamp parseFloat v = Some n -> Number_isNaN n = false.
Proof.
  destruct v as [| | b | m | s |]; simpl; try discriminate.
  - destruct m as [|b|q]; simpl; try discriminate; intros H; inversion H; reflexivity.
  - destruct (parseFloat s) as [|b|q]; simpl; try discriminate;
      intros H; inversion H; reflexivity.
Qed.

(** C6, as amended.  Only a missing or empty role normalizes to
    ["assistant"]; every other role string that is neither ["user"] nor
    ["assistant"] is returned unchanged, and the filter loop then skips the
    node that carries it. *)
Theorem normalizeRole_defaults_only_missing_role :
  normalizeRole None = "assistant" /\
  normalizeRole (Some "") = "assistant" /\
  (forall r, r <> "user" -> r <> "assistant" -> r <> "" ->
     normalizeRole (Some r) = r /\
     forall conversation st nodeId node msg,
       mget (mapping conversation) nodeId = Some node ->
       message node = Some msg ->
       author_role msg = Some r ->
       filterStep parseFloat conversation st nodeId = st).
Proof.
  repeat split; try reflexivity.
  - apply normalizeRole_other; assumption.
  - intros conversation st nodeId node msg Hn Hm Hr.
    unfold filterStep. rewrite Hn, Hm, Hr, (normalizeRole_other r) by assumption.
    destruct (String.eqb_spec r "user"); [contradiction|].
    destruct (String.eqb_spec r "assistant"); [contradiction|].
    reflexivity.
Qed.

(** C8, as amended.  A number other than NaN is floored (an infinity is its
    own floor and is returned as it is), a string is floored after
    [parseFloat] unless that gives NaN, and every other value (NaN, a string
    that does not parse, null, undefined, a boolean, an object) gives null.
    The normalizer is a total function: it has no throwing outcome. *)
Theorem sanitizeTimestamp_cases (v : value) :
  (forall q, v = VNum (Fin q) ->
     sanitizeTimestamp parseFloat v = Some (Fin (inject_Z (Qfloor q)))) /\
  (forall b, v = VNum (Inf b) -> sanitizeTimestamp parseFloat v = Some (Inf b)) /\
  (forall s, v = VStr s -> parseFloat s <> NaN ->
     sanitizeTimestamp parseFloat v = Some (Math_floor (parseFloat s))) /\
  ((forall n, v = VNum n -> n = NaN) ->
   (forall s, v = VStr s -> parseFloat s = NaN) ->
   sanitizeTimestamp parseFloat v = None).
Proof.
  repeat split.
  - intros q ->. reflexivity.
  - intros b ->. reflexivity.
  - intros s -> Hp. simpl. destruct (parseFloat s); [congruence | reflexivity | reflexivity].
  - intros Hn Hs. destruct v as [| | b | n | s |]; try reflexivity.
    + rewrite (Hn n eq_refl). reflexivity.
    + simpl. rewrite (Hs s eq_refl). reflexivity.
Qed.

(** C9.  Content extraction gives the empty string when the payload or its
    parts list is missing; otherwise every plain string, every text field and
    the placeholder for every part with a (non-empty) asset pointer and no
    text are joined with newlines and the result is trimmed.  An assistant
    message whose only part is such an asset pointer extracts to ["[Asset]"]
    and the filter loop includes it. *)
Theorem extractContent_joins_emitted_parts :
  extractContent None = "" /\
  (forall msg, content_parts msg = None -> extractContent (Some msg) = "") /\
  (forall msg parts, content_parts msg = Some parts ->
     extractContent (Some msg) = trim (join newline (flat_map emitted parts))) /\
  (forall conversation st nodeId node msg pointer,
     mget (mapping conversation) nodeId = Some node ->
     message node = Some msg ->
     author_role msg = Some "assistant" ->
     content_parts msg = Some [PObject None (Some pointer)] ->
     truthy pointer = true ->
     extractContent (Some msg) = "[Asset]" /\
     exists qwenMessage,
       filterStep parseFloat conversation st nodeId =
         {| includedIds := Set_add (includedIds st) nodeId;
            messageMap := Map_set (messageMap st) nodeId (length (st_messages st));
            st_messages := st_messages st ++ [qwenMessage] |} /\
       role qwenMessage = "assistant" /\
       content_list qwenMessage = ["[Asset]"]).
Proof.
  split; [reflexivity|]. split; [|split].
  - intros msg H. simpl. rewrite H. reflexivity.
  - intros msg parts H. simpl. rewrite H, fold_pushPart. reflexivity.
  - intros conversation st nodeId node msg pointer Hn Hm Hr Hc Hp.
    assert (Hx : extractContent (Some msg) = "[Asset]").
    { simpl. rewrite Hc. simpl. rewrite Hp. reflexivity. }
    split; [exact Hx|].
    eexists. unfold filterStep. rewrite Hn, Hm, Hr, Hx. simpl.
    split; [reflexivity|]. split; reflexivity.
Qed.

(** C10.  The meta record always has [tags = []]; it has a [timestamp]
    exactly when the normalized create timestamp is a number whose product
    with 1000 is non-zero, and then the field is that product; for a null or
    zero create timestamp it has none.  The record [transformConversation]
    returns carries this meta. *)
Theorem meta_timestamp_in_milliseconds (conversation : Conversation) (index : nat)
    (msgs : list QwenMessage) :
  let createdAt := sanitizeTimestamp parseFloat (create_time conversation) in
  let m := meta (assemble parseFloat conversation index msgs) in
  tags m = [] /\
  (forall t, meta_timestamp m = Some t <->
     exists c, createdAt = Some c /\ t = Number_mul c (Fin (inject_Z 1000)) /\
               Number_truthy t = true) /\
  (createdAt = None \/ createdAt = Some (Fin (inject_Z 0)) -> meta_timestamp m = None) /\
  (forall fuel out,
     transformConversation parseFloat fuel conversation index = Ok out ->
     meta out = m).
Proof.
  intros createdAt m. subst m. simpl. fold createdAt.
  split; [apply buildMeta_tags|]. split; [|split].
  - intros t. unfold buildMeta.
    destruct createdAt as [c|] eqn:E.
    + rewrite (sanitizeTimestamp_not_NaN _ _ E). simpl.
      destruct (Number_truthy (Number_mul c (Fin (inject_Z 1000)))) eqn:T; simpl.
      * split.
        -- intros H. inversion H. subst. exists c. auto.
        -- intros (c' & Hc & -> & _). inversion Hc. reflexivity.
      * split; [discriminate|].
        intros (c' & Hc & -> & T'). inversion Hc. subst. congruence.
    + simpl. split; [discriminate|]. intros (c' & Hc & _). discriminate.
  - intros [-> | ->]; reflexivity.
  - intros fuel out H. unfold transformConversation in H.
    destruct (reconstructMessagePath fuel conversation); simpl in H; try discriminate.
    destruct (wireParents _ _ _ _ _ _); simpl in H; try discriminate.
    inversion H. reflexivity.
Qed.

End Properties.

(** ** The current-message pointers *)

Lemma find_skip {A : Type} (f : A -> bool) (l1 l2 : list A) :
  Forall (fun x => f x = false) l1 -> find f (l1 ++ l2) = find f l2.
Proof.
  induction 1 as [|x l1 Hx _ IH]; simpl; [reflexivity|].
  rewrite Hx. exact IH.
Qed.

Lemma role_neq_eqb (m : QwenMessage) :
  role m <> "assistant" -> String.eqb (role m) "assistant" = false.
Proof. intros H. destruct (String.eqb_spec (role m) "assistant"); congruence. Qed.

Lemma lastAssistant_found (msgs : list QwenMessage) (m : QwenMessage) :
  LastAssistant msgs m -> lastAssistant msgs = Some m.
Proof.
  intros (before & after & -> & Hr & Hafter). unfold lastAssistant.
  rewrite rev_app_distr. simpl. rewrite <- app_assoc. rewrite find_skip.
  - simpl. rewrite Hr. reflexivity.
  - apply Forall_rev. revert Hafter. apply Forall_impl. intros x. apply role_neq_eqb.
Qed.

Lemma lastAssistant_none (msgs : list QwenMessage) :
  NoAssistant msgs -> lastAssistant msgs = None.
Proof.
  intros H. unfold lastAssistant.
  rewrite <- (app_nil_r (rev msgs)). rewrite find_skip; [reflexivity|].
  apply Forall_rev. revert H. apply Forall_impl. intros x. apply role_neq_eqb.
Qed.

Lemma lastMessage_last (before : list QwenMessage) (m : QwenMessage) :
  lastMessage (before ++ [m]) = Some m.
Proof.
  unfold lastMessage. destruct (before ++ [m]) eqn:E.
  - destruct before; discriminate.
  - rewrite <- E. rewrite length_app. simpl.
    replace (length before + 1 - 1) with (length before) by lia.
    rewrite nth_error_app2 by lia. rewrite Nat.sub_diag. reflexivity.
Qed.

Section Pointers.

Variable parseFloat : string -> jsnum.

Lemma transformConversation_assembles (fuel : nat) (conversation : Conversation)
    (index : nat) (out : OutputConversation) :
  transformConversation parseFloat fuel conversation index = Ok out ->
  exists msgs, out = assemble parseFloat conversation index msgs.
Proof.
  unfold transformConversation. intros H.
  destruct (reconstructMessagePath fuel conversation); simpl in H; try discriminate.
  destruct (wireParents _ _ _ _ _ _); simpl in H; try discriminate.
  inversion H. eexists. reflexivity.
Qed.

(** C7, as amended.  [currentId] is the id of the last assistant message if
    there is one, else of the last message, and null when that id is missing
    or empty or the list is empty; [currentResponseIds] is the singleton of
    [currentId] exactly when there is an assistant message and the last one has
    a non-empty id, and is empty otherwise.  Every record
    [transformConversation] returns is assembled this way, and a conversation
    with an empty node mapping yields no messages, a null [currentId], no
    [currentResponseIds] and null [models]. *)
Theorem current_pointers_follow_last_assistant (conversation : Conversation)
    (index : nat) (msgs : list QwenMessage) :
  let out := assemble parseFloat conversation index msgs in
  (forall m, LastAssistant msgs m ->
     currentId out = or_null (id m) /\
     currentResponseIds out = match or_null (id m) with Some c => [c] | None => [] end) /\
  (forall m, NoAssistant msgs -> LastOverall msgs m ->
     currentId out = or_null (id m) /\ currentResponseIds out = []) /\
  (msgs = [] -> currentId out = None /\ currentResponseIds out = []) /\
  (forall fuel out',
     transformConversation parseFloat fuel conversation index = Ok out' ->
     exists msgs', out' = assemble parseFloat conversation index msgs') /\
  (mapping conversation = [] ->
   forall fuel, exists out',
     transformConversation parseFloat fuel conversation index = Ok out' /\
     messages out' = [] /\ currentId out' = None /\
     currentResponseIds out' = [] /\ out_models out' = None).
Proof.
  simpl. split; [|split; [|split; [|split]]].
  - intros m Hm. unfold chooseCurrentResponseIds, chooseCurrentId.
    rewrite (lastAssistant_found _ _ Hm).
    split; [reflexivity|]. destruct (or_null (id m)); reflexivity.
  - intros m Hn (before & ->). unfold chooseCurrentResponseIds, chooseCurrentId.
    rewrite (lastAssistant_none _ Hn), lastMessage_last.
    split; [reflexivity|]. destruct (or_null (id m)); reflexivity.
  - intros ->. split; reflexivity.
  - intros fuel out'. apply transformConversation_assembles.
  - intros Hm fuel. unfold transformConversation, reconstructMessagePath.
    rewrite Hm. simpl. eexists. split; [reflexivity|]. simpl. repeat split.
Qed.

End Pointers.

(** ** The conversion, stage by stage *)

Lemma transformConversation_unfold (parseFloat : string -> jsnum) (fuel : nat)
    (conversation : Conversation) (index : nat) :
  transformConversation parseFloat fuel conversation index =
  match reconstructMessagePath fuel conversation with
  | Ok orderedNodeIds =>
      let st := filterNodes parseFloat conversation orderedNodeIds in
      match wireParents fuel (mapping conversation) (includedIds st) (messageMap st)
              (includedIds st) (st_messages st) with
      | Ok wired =>
          Ok (assemble parseFloat conversation index
                (wireChildren (messageMap st) (includedIds st) wired))
      | OutOfFuel => OutOfFuel
      | Throws => Throws
      end
  | OutOfFuel => OutOfFuel
  | Throws => Throws
  end.
Proof. reflexivity. Qed.

(** ** Sets and maps *)

Lemma Set_has_In (s : list string) (x : string) : Set_has s x = true <-> In x s.
Proof.
  unfold Set_has. rewrite existsb_exists. split.
  - intros (y & Hy & E). apply String.eqb_eq in E. subst. exact Hy.
  - intros H. exists x. split; [exact H | apply String.eqb_refl].
Qed.

Lemma Set_has_not_In (s : list string) (x : string) : Set_has s x = false <-> ~ In x s.
Proof.
  rewrite <- Set_has_In. destruct (Set_has s x); split; congruence.
Qed.

Lemma Set_add_In (s : list string) (x y : string) :
  In y (Set_add s x) <-> In y s \/ y = x.
Proof.
  unfold Set_add. destruct (Set_has s x) eqn:E.
  - apply Set_has_In in E. split; [auto|]. intros [H | ->]; assumption.
  - rewrite in_app_iff. simpl. split; intros [H | H]; auto.
    + destruct H as [H | []]; auto.
Qed.

Lemma Set_add_incl (s : list string) (x : string) : incl s (Set_add s x).
Proof. intros y H. apply Set_add_In. auto. Qed.

Lemma Set_add_NoDup (s : list string) (x : string) : NoDup s -> NoDup (Set_add s x).
Proof.
  intros H. unfold Set_add. destruct (Set_has s x) eqn:E; [exact H|].
  apply Set_has_not_In in E.
  apply NoDup_app; [exact H | repeat constructor; intros [] |].
  intros y Hy [<- | []]. exact (E Hy).
Qed.

Lemma Set_add_fresh (s : list string) (x : string) : ~ In x s -> Set_add s x = s ++ [x].
Proof. intros H. unfold Set_add. apply Set_has_not_In in H. rewrite H. reflexivity. Qed.

Lemma fold_Set_add_In (l s : list string) (y : string) :
  In y (fold_left Set_add l s) <-> In y s \/ In y l.
Proof.
  revert s. induction l as [|x l IH]; intros s; simpl.
  - tauto.
  - rewrite IH, Set_add_In. intuition auto.
Qed.

Lemma fold_Set_add_NoDup (l s : list string) : NoDup s -> NoDup (fold_left Set_add l s).
Proof.
  revert s. induction l as [|x l IH]; intros s H; simpl; [exact H|].
  apply IH, Set_add_NoDup, H.
Qed.

Lemma Set_of_In (l : list string) (y : string) : In y (Set_of l) <-> In y l.
Proof. unfold Set_of. rewrite fold_Set_add_In. simpl. tauto. Qed.

Lemma Set_of_NoDup (l : list string) : NoDup (Set_of l).
Proof. apply fold_Set_add_NoDup. constructor. Qed.

Lemma Map_get_set_other {V : Type} (m : list (string * V)) (k k' : string) (v : V) :
  k' <> k -> Map_get (Map_set m k v) k' = Map_get m k'.
Proof.
  intros Hne. induction m as [|[a b] m IH]; simpl.
  - destruct (String.eqb_spec k k'); congruence.
  - destruct (String.eqb_spec a k) as [-> | Hak]; simpl.
    + destruct (String.eqb_spec k k'); congruence.
    + rewrite IH. reflexivity.
Qed.

Lemma Map_get_set_same {V : Type} (m : list (string * V)) (k : string) (v : V) :
  Map_get (Map_set m k v) k = Some v.
Proof.
  induction m as [|[a b] m IH]; simpl.
  - rewrite String.eqb_refl. reflexivity.
  - destruct (String.eqb_spec a k) as [-> | Hak]; simpl.
    + rewrite String.eqb_refl. reflexivity.
    + destruct (String.eqb_spec a k); [contradiction | exact IH].
Qed.

Lemma update_length {A : Type} (i : nat) (f : A -> A) (l : list A) :
  length (update i f l) = length l.
Proof.
  revert i. induction l as [|x l IH]; intros [|i]; simpl; auto.
Qed.

Lemma update_nth_same {A : Type} (i : nat) (f : A -> A) (l : list A) (x : A) :
  nth_error l i = Some x -> nth_error (update i f l) i = Some (f x).
Proof.
  revert i. induction l as [|y l IH]; intros [|i]; simpl; try discriminate.
  - intros H. inversion H. reflexivity.
  - apply IH.
Qed.

Lemma update_nth_other {A : Type} (i j : nat) (f : A -> A) (l : list A) :
  i <> j -> nth_error (update i f l) j = nth_error l j.
Proof.
  revert i j. induction l as [|y l IH]; intros [|i] [|j] H; simpl; try reflexivity.
  - congruence.
  - apply IH. congruence.
Qed.

Lemma update_app_head {A : Type} (f : A -> A) (l1 l2 : list A) (x : A) :
  update (length l1) f (l1 ++ x :: l2) = l1 ++ f x :: l2.
Proof. induction l1 as [|y l1 IH]; simpl; [reflexivity | rewrite IH; reflexivity]. Qed.

(** ** Parent chains *)

Lemma mget_In_keys (m : Mapping) (k : string) (node : Node) :
  mget m k = Some node -> In k (keys m).
Proof.
  induction m as [|[a v] m IH]; simpl; [discriminate|].
  destruct (String.eqb_spec a k) as [-> | Hne]; auto.
Qed.

Lemma parentOf_In_keys (m : Mapping) (k p : string) :
  parentOf m k = Some p -> In k (keys m).
Proof.
  unfold parentOf. destruct (mget m k) eqn:E; [|discriminate].
  intros _. eapply mget_In_keys, E.
Qed.

Lemma parentOf_truthy (m : Mapping) (k p : string) :
  parentOf m k = Some p -> truthy p = true.
Proof.
  unfold parentOf. destruct (mget m k); [|discriminate].
  intros H. apply or_null_Some in H. tauto.
Qed.

Lemma ancestor_add (m : Mapping) (a b : nat) (k : string) :
  ancestor m (a + b) k =
  match ancestor m a k with
  | Some x => ancestor m b x
  | None => None
  end.
Proof.
  revert k. induction a as [|a IH]; intros k; simpl; [reflexivity|].
  destruct (parentOf m k); [apply IH | reflexivity].
Qed.

Lemma ancestor_S_last (m : Mapping) (n : nat) (k : string) :
  ancestor m (S n) k =
  match ancestor m n k with
  | Some x => parentOf m x
  | None => None
  end.
Proof.
  replace (S n) with (n + 1) by lia. rewrite ancestor_add.
  destruct (ancestor m n k); [|reflexivity].
  simpl. destruct (parentOf m s); reflexivity.
Qed.

Lemma chain_length (m : Mapping) (n : nat) (k x : string) :
  ancestor m n k = Some x -> length (chain m n k) = n.
Proof.
  revert k. induction n as [|n IH]; intros k; simpl; [reflexivity|].
  destruct (parentOf m k); [|discriminate].
  intros H. rewrite (IH _ H). reflexivity.
Qed.

Lemma chain_keys (m : Mapping) (n : nat) (k x : string) :
  ancestor m n k = Some x -> incl (chain m n k) (keys m).
Proof.
  revert k. induction n as [|n IH]; intros k; simpl; [intros _ y []|].
  destruct (parentOf m k) eqn:E; [|discriminate].
  intros H y [<- | Hy].
  - eapply parentOf_In_keys, E.
  - eapply IH; eassumption.
Qed.

Lemma chain_In (m : Mapping) (n : nat) (k y : string) :
  In y (chain m n k) -> exists j, j < n /\ ancestor m j k = Some y.
Proof.
  revert k. induction n as [|n IH]; intros k; simpl; [intros []|].
  intros [<- | Hy].
  - exists 0. split; [lia | reflexivity].
  - destruct (parentOf m k) eqn:E; [|destruct Hy].
    destruct (IH _ Hy) as (j & Hj & Ha).
    exists (S j). split; [lia|]. simpl. rewrite E. exact Ha.
Qed.

Lemma chain_NoDup (m : Mapping) (n : nat) (k : string) :
  acyclic m -> NoDup (chain m n k).
Proof.
  intros Hac. revert k. induction n as [|n IH]; intros k; simpl; [constructor|].
  constructor.
  - destruct (parentOf m k) eqn:E; [|intros []].
    intros Hin. destruct (chain_In _ _ _ _ Hin) as (j & _ & Ha).
    apply (Hac k j). simpl. rewrite E. exact Ha.
  - destruct (parentOf m k); [apply IH | constructor].
Qed.

(** In a forest a parent chain has at most as many steps as the mapping
    has entries. *)
Lemma ancestor_bound (m : Mapping) (n : nat) (k x : string) :
  acyclic m -> ancestor m n k = Some x -> n <= length m.
Proof.
  intros Hac H.
  rewrite <- (chain_length _ _ _ _ H).
  unfold keys. rewrite <- (length_map fst m).
  apply NoDup_incl_length.
  - apply chain_NoDup, Hac.
  - eapply chain_keys, H.
Qed.

Lemma ancestor_runs_out (m : Mapping) (k : string) :
  acyclic m -> ancestor m (S (length m)) k = None.
Proof.
  intros Hac. destruct (ancestor m (S (length m)) k) eqn:E; [|reflexivity].
  apply (ancestor_bound _ _ _ _ Hac) in E. lia.
Qed.

Lemma ancestor_prefix (m : Mapping) (a b : nat) (k x : string) :
  ancestor m (a + b) k = Some x -> exists y, ancestor m a k = Some y.
Proof.
  rewrite ancestor_add. destruct (ancestor m a k) as [y|]; [|discriminate].
  intros _. exists y. reflexivity.
Qed.

Lemma cycle_never_runs_out (m : Mapping) (n : nat) (k : string) :
  ancestor m (S n) k = Some k -> forall N, exists y, ancestor m N k = Some y.
Proof.
  intros Hc N. induction N as [N IH] using lt_wf_ind.
  destruct (Nat.le_gt_cases N (S n)) as [Hle | Hgt].
  - apply (ancestor_prefix m N (S n - N) k k).
    replace (N + (S n - N)) with (S n) by lia. exact Hc.
  - destruct (IH (N - S n)) as (y & Hy); [lia|].
    exists y. replace N with (S n + (N - S n)) by lia.
    rewrite ancestor_add, Hc. exact Hy.
Qed.

(** The test [acyclicb] decides [acyclic]. *)
Lemma acyclicb_spec (m : Mapping) : acyclicb m = true <-> acyclic m.
Proof.
  unfold acyclicb. rewrite forallb_forall. split.
  - intros H k n Hc.
    assert (Hk : In k (keys m)).
    { simpl in Hc. destruct (parentOf m k) eqn:E; [|discriminate].
      eapply parentOf_In_keys, E. }
    specialize (H k Hk).
    destruct (cycle_never_runs_out m n k Hc (S (length m))) as (y & Hy).
    rewrite Hy in H. discriminate.
  - intros Hac k _. rewrite (ancestor_runs_out m k Hac). reflexivity.
Qed.

(** ** The two upward walks *)

Lemma ancestor_from_parentOf (m : Mapping) (k : string) (n : nat) :
  ancestor_from m (parentOf m k) n = ancestor m (S n) k.
Proof. simpl. unfold ancestor_from. reflexivity. Qed.

Lemma getPathToRoot_loop_finishes (m : Mapping) (n : nat) :
  forall fuel cid path,
    ancestor m n cid = None -> n + 1 <= fuel ->
    exists path', getPathToRoot_loop fuel m (Some cid) path = Ok path'.
Proof.
  induction n as [|n IH]; intros fuel cid path Hn Hf; [discriminate|].
  destruct fuel as [|fuel]; [lia|]. simpl.
  destruct (truthy cid); [|eauto].
  destruct (mget m cid) as [node|] eqn:E; [|eauto].
  simpl in Hn. unfold parentOf in Hn. rewrite E in Hn.
  destruct (or_null (parent node)) as [p|].
  - apply IH; [exact Hn | lia].
  - destruct fuel; [lia|]. simpl. eauto.
Qed.

Lemma findIncludedAncestor_or_null (fuel : nat) (o : option string)
    (inc : list string) (m : Mapping) :
  findIncludedAncestor fuel o inc m = findIncludedAncestor fuel (or_null o) inc m.
Proof.
  destruct fuel; [reflexivity|]. destruct o as [c|]; [|reflexivity].
  unfold or_null. simpl. destruct (truthy c) eqn:E; simpl; [rewrite E|]; reflexivity.
Qed.

Lemma findIncludedAncestor_finishes (m : Mapping) (inc : list string) (n : nat) :
  forall fuel cid,
    ancestor m n cid = None -> n + 1 <= fuel ->
    exists r, findIncludedAncestor fuel (Some cid) inc m = Ok r.
Proof.
  induction n as [|n IH]; intros fuel cid Hn Hf; [discriminate|].
  destruct fuel as [|fuel]; [lia|]. simpl.
  destruct (truthy cid); [|eauto].
  destruct (Set_has inc cid); [eauto|].
  simpl in Hn. destruct (parentOf m cid) as [p|].
  - apply IH; [exact Hn | lia].
  - destruct fuel; [lia|]. simpl. eauto.
Qed.

Lemma findIncludedAncestor_more_fuel (m : Mapping) (inc : list string) :
  forall fuel fuel' start r,
    findIncludedAncestor fuel start inc m = Ok r -> fuel <= fuel' ->
    findIncludedAncestor fuel' start inc m = Ok r.
Proof.
  induction fuel as [|fuel IH]; intros fuel' start r H Hle; [discriminate|].
  destruct fuel' as [|fuel']; [lia|]. simpl in *.
  destruct start as [c|]; [|exact H].
  destruct (truthy c); [|exact H].
  destruct (Set_has inc c); [exact H|].
  apply (IH fuel'); [exact H | lia].
Qed.

(** What a finished walk of [findIncludedAncestor] found: the nearest
    included node of the chain, or nothing when the chain has none. *)
Lemma findIncludedAncestor_nearest (m : Mapping) (inc : list string) :
  forall fuel start r,
    findIncludedAncestor fuel start inc m = Ok r ->
    match r with
    | Some a =>
        truthy a = true /\ In a inc /\
        exists n, ancestor_from m (or_null start) n = Some a /\
                  forall j b, j < n -> ancestor_from m (or_null start) j = Some b -> ~ In b inc
    | None => forall n b, ancestor_from m (or_null start) n = Some b -> ~ In b inc
    end.
Proof.
  induction fuel as [|fuel IH]; intros start r H; [discriminate|].
  simpl in H. destruct start as [c|].
  2:{ inversion H. intros n b Hb. discriminate. }
  unfold or_null. simpl. destruct (truthy c) eqn:Tc.
  2:{ inversion H. intros n b Hb. discriminate. }
  destruct (Set_has inc c) eqn:Hc.
  - inversion H. subst r. split; [exact Tc|]. split; [apply Set_has_In, Hc|].
    exists 0. split; [reflexivity|]. intros j b Hj. lia.
  - apply Set_has_not_In in Hc. specialize (IH _ _ H).
    assert (Hnorm : or_null (parentOf m c) = parentOf m c).
    { destruct (parentOf m c) as [p|] eqn:E; [|reflexivity].
      apply or_null_truthy. eapply parentOf_truthy, E. }
    rewrite Hnorm in IH.
    destruct r as [a|].
    + destruct IH as (Ta & Ia & n & Hn & Hbefore).
      split; [exact Ta|]. split; [exact Ia|].
      exists (S n). split.
      * exact Hn.
      * intros j b Hj Hb. destruct j as [|j].
        -- simpl in Hb. inversion Hb. subst b. exact Hc.
        -- apply (Hbefore j b); [lia | exact Hb].
    + intros n b Hb. destruct n as [|n].
      * simpl in Hb. inversion Hb. subst b. exact Hc.
      * apply (IH n b Hb).
Qed.

(** ** The downward traversal *)

Lemma filter_length_mono {A : Type} (f g : A -> bool) (l : list A) :
  (forall x, f x = true -> g x = true) ->
  length (filter f l) <= length (filter g l).
Proof.
  intros H. induction l as [|x l IH]; simpl; [lia|].
  destruct (f x) eqn:F.
  - rewrite (H x F). simpl. lia.
  - destruct (g x); simpl; lia.
Qed.

Lemma filter_length_strict {A : Type} (f g : A -> bool) (l : list A) (y : A) :
  (forall x, f x = true -> g x = true) ->
  In y l -> f y = false -> g y = true ->
  length (filter f l) < length (filter g l).
Proof.
  intros H. induction l as [|x l IH]; simpl; [intros []|].
  intros [-> | Hy] Fy Gy.
  - rewrite Fy, Gy. simpl. pose proof (filter_length_mono f g l H). lia.
  - specialize (IH Hy Fy Gy). destruct (f x) eqn:F.
    + rewrite (H x F). simpl. lia.
    + destruct (g x); simpl; lia.
Qed.

Lemma unvisited_le (m : Mapping) (v v' : list string) :
  incl v v' -> unvisited m v' <= unvisited m v.
Proof.
  intros Hi. apply filter_length_mono. intros x Hx.
  apply negb_true_iff in Hx. apply negb_true_iff.
  apply Set_has_not_In. apply Set_has_not_In in Hx. intros H. apply Hx. 
apply Hi. exact H.
Qed.

Lemma unvisited_lt (m : Mapping) (v : list string) (k : string) :
  In k (keys m) -> ~ In k v -> unvisited m (Set_add v k) < unvisited m v.
Proof.
  intros Hk Hv. apply (filter_length_strict _ _ _ k).
  - intros x Hx. apply negb_true_iff in Hx. apply negb_true_iff.
    apply Set_has_not_In. apply Set_has_not_In in Hx.
    intros H. apply Hx. apply Set_add_incl. exact H.
  - exact Hk.
  - apply negb_false_iff. apply Set_has_In. apply Set_add_In. auto.
  - apply negb_true_iff. apply Set_has_not_In. exact Hv.
Qed.

Lemma unvisited_le_length (m : Mapping) (v : list string) : unvisited m v <= length m.
Proof.
  unfold unvisited, keys. rewrite <- (length_map fst m). apply List.filter_length_le.
Qed.

Lemma firstBranch_traversed
    (visit : string -> list string -> outcome (list string * list string)) :
  (forall c v seq v', visit c v = Ok (seq, v') -> traversed v seq v') ->
  forall cs v seq v', firstBranch visit cs v = Ok (seq, v') -> traversed v seq v'.
Proof.
  intros Hvisit. induction cs as [|c cs IH]; intros v seq v' H; simpl in H.
  - inversion H. subst. split; [apply incl_refl|]. split; [constructor|]. intros x [].
  - destruct (visit c v) as [[s1 v1]| |] eqn:E; simpl in H; try discriminate.
    pose proof (Hvisit _ _ _ _ E) as (Hi1 & Hn1 & He1).
    destruct s1 as [|y s1].
    + destruct (IH _ _ _ H) as (Hi & Hn & He).
      split; [eapply incl_tran; eassumption|]. split; [exact Hn|].
      intros x Hx. destruct (He x Hx) as (Hx1 & Hx2). split; [|exact Hx2].
      intros Hv. apply Hx1. apply Hi1. exact Hv.
    + inversion H. subst. split; [exact Hi1|]. split; assumption.
Qed.

Lemma traverseFromNode_S (fuel : nat) (nodeId : string) (m : Mapping) (v : list string) :
  traverseFromNode (S fuel) nodeId m v =
  if negb (truthy nodeId) || Set_has v nodeId then Ok ([], v)
  else
    match mget m nodeId with
    | None => Ok ([], Set_add v nodeId)
    | Some node =>
        match children node with
        | Some (c :: cs) =>
            r <- firstBranch (fun childId visited => traverseFromNode fuel childId m visited)
                   (c :: cs) (Set_add v nodeId) ;;
            Ok (nodeId :: fst r, snd r)
        | _ => Ok ([nodeId], Set_add v nodeId)
        end
    end.
Proof. reflexivity. Qed.

Lemma traverseFromNode_traversed (m : Mapping) :
  forall fuel nodeId v seq v',
    traverseFromNode fuel nodeId m v = Ok (seq, v') -> traversed v seq v'.
Proof.
  induction fuel as [|fuel IH]; intros nodeId v seq v' H; [discriminate|].
  rewrite traverseFromNode_S in H.
  destruct (negb (truthy nodeId) || Set_has v nodeId) eqn:G.
  { inversion H. subst. split; [apply incl_refl|]. split; [constructor|]. intros x []. }
  apply orb_false_iff in G. destruct G as (_ & Hv). apply Set_has_not_In in Hv.
  assert (Hsingle : traversed v [nodeId] (Set_add v nodeId)).
  { split; [apply Set_add_incl|]. split; [repeat constructor; intros []|].
    intros x [<- | []]. split; [exact Hv|]. apply Set_add_In. auto. }
  destruct (mget m nodeId) as [node|].
  2:{ inversion H. subst. split; [apply Set_add_incl|]. split; [constructor|]. intros x []. }
  destruct (children node) as [[|c cs]|].
  1,3: inversion H; subst; exact Hsingle.
  destruct (firstBranch _ (c :: cs) (Set_add v nodeId)) as [[s1 v1]| |] eqn:E;
    simpl in H; try discriminate.
  inversion H. subst.
  apply (firstBranch_traversed _ (fun c0 v0 seq0 v0' => IH c0 v0 seq0 v0')) in E.
  destruct E as (Hi & Hn & He).
  split; [eapply incl_tran; [apply Set_add_incl | exact Hi]|]. split.
  - constructor; [|exact Hn]. intros Hx. destruct (He _ Hx) as (Hx1 & _).
    apply Hx1. apply Set_add_In. auto.
  - intros x [<- | Hx].
    + split; [exact Hv|]. apply Hi. apply Set_add_In. auto.
    + destruct (He x Hx) as (Hx1 & Hx2). split; [|exact Hx2].
      intros Hxv. apply Hx1. apply Set_add_incl. exact Hxv.
Qed.

Lemma firstBranch_finishes
    (visit : string -> list string -> outcome (list string * list string))
    (v0 : list string) :
  (forall c v, incl v0 v -> exists r, visit c v = Ok r) ->
  (forall c v seq v', visit c v = Ok (seq, v') -> incl v v') ->
  forall cs v, incl v0 v -> exists r, firstBranch visit cs v = Ok r.
Proof.
  intros Hfin Hincl. induction cs as [|c cs IH]; intros v Hv; simpl; [eauto|].
  destruct (Hfin c v Hv) as ([s1 v1] & E). rewrite E. simpl.
  destruct s1; [|eauto].
  apply IH. eapply incl_tran; [exact Hv|]. eapply Hincl, E.
Qed.

(** The traversal always finishes, cyclic [children] or not, once the fuel
    exceeds the number of keys not yet visited. *)
Lemma traverseFromNode_finishes (m : Mapping) :
  forall fuel nodeId v,
    unvisited m v < fuel -> exists r, traverseFromNode fuel nodeId m v = Ok r.
Proof.
  induction fuel as [|fuel IH]; intros nodeId v Hf; [lia|].
  rewrite traverseFromNode_S.
  destruct (negb (truthy nodeId) || Set_has v nodeId) eqn:G; [eauto|].
  apply orb_false_iff in G. destruct G as (_ & Hv). apply Set_has_not_In in Hv.
  destruct (mget m nodeId) as [node|] eqn:E; [|eauto].
  destruct (children node) as [[|c cs]|]; eauto.
  pose proof (unvisited_lt m v nodeId (mget_In_keys _ _ _ E) Hv) as Hlt.
  destruct (firstBranch_finishes
              (fun childId visited => traverseFromNode fuel childId m visited)
              (Set_add v nodeId)) with (cs := c :: cs) (v := Set_add v nodeId)
    as (r & Hr).
  - intros c0 v0 Hv0. apply IH. pose proof (unvisited_le m _ _ Hv0). lia.
  - intros c0 v0 seq v' H0. apply (traverseFromNode_traversed m _ _ _ _ _ H0).
  - apply incl_refl.
  - rewrite Hr. simpl. eauto.
Qed.

(** ** The reconstructed path *)

Lemma expandPath_loop_finishes (m : Mapping) (fuel : nat) :
  length m < fuel ->
  forall path result, exists r, expandPath_loop fuel m path result = Ok r.
Proof.
  intros Hf. induction path as [|nodeId rest IH]; intros result; simpl; [eauto|].
  destruct (mget m nodeId) as [node|]; [|apply IH].
  destruct (children node) as [[|c cs]|]; try apply IH.
  destruct (traverseFromNode_finishes m fuel c (Set_of (result ++ [nodeId]))) as (r & Hr).
  - pose proof (unvisited_le_length m (Set_of (result ++ [nodeId]))). lia.
  - rewrite Hr. simpl. eauto.
Qed.

(** On a forest the path reconstruction finishes, and its path has no
    repetition. *)
Lemma reconstructMessagePath_finishes (conversation : Conversation) (fuel : nat) :
  acyclic (mapping conversation) ->
  length (mapping conversation) + 2 <= fuel ->
  exists path, reconstructMessagePath fuel conversation = Ok path /\ NoDup path.
Proof.
  intros Hac Hf. unfold reconstructMessagePath.
  set (m := mapping conversation) in *.
  assert (Htrav : forall root0,
             exists path, (r <- traverseFromNode fuel root0 m [] ;; Ok (fst r)) = Ok path /\
                          NoDup path).
  { intros root0. destruct (traverseFromNode_finishes m fuel root0 []) as ([seq v'] & Hr).
    - pose proof (unvisited_le_length m []). lia.
    - rewrite Hr. simpl. exists seq. split; [reflexivity|].
      apply (traverseFromNode_traversed m _ _ _ _ _ Hr). }
  destruct (keys m); [exists []; split; [reflexivity | constructor]|].
  destruct (findRootNodes m) as [|root0 roots]; [exists []; split; [reflexivity | constructor]|].
  destruct (or_null (current_node conversation)) as [cur|]; [|apply Htrav].
  destruct (mget m cur); [|apply Htrav].
  destruct (getPathToRoot_loop_finishes m (S (length m)) fuel cur [])
    as (path & Hpath); [apply ancestor_runs_out, Hac | lia |].
  unfold getPathToRoot. rewrite Hpath. simpl. unfold expandPath.
  destruct (expandPath_loop_finishes m fuel) with (path := path) (result := @nil string)
    as (r & Hr); [lia|].
  rewrite Hr. simpl. exists (Set_of r). split; [reflexivity | apply Set_of_NoDup].
Qed.

(** ** The filter loop *)

Lemma buildQwenMessage_fresh (node : Node) (msg : Message) (r text : string)
    (ts : option jsnum) (conversation : Conversation) :
  let q := buildQwenMessage node msg r text ts conversation in
  id q = messageIdOf node msg /\ parentId q = None /\ childrenIds q = [].
Proof.
  unfold buildQwenMessage, messageIdOf. destruct (String.eqb r "assistant"); simpl; auto.
Qed.

Section Relinking.

Variable parseFloat : string -> jsnum.
Variable conversation : Conversation.

Lemma filterStep_cases (st : FilterState) (k : string) :
  filterStep parseFloat conversation st k = st \/
  exists node msg q,
    mget (mapping conversation) k = Some node /\ message node = Some msg /\
    id q = messageIdOf node msg /\ parentId q = None /\ childrenIds q = [] /\
    filterStep parseFloat conversation st k =
      {| includedIds := Set_add (includedIds st) k;
         messageMap := Map_set (messageMap st) k (length (st_messages st));
         st_messages := st_messages st ++ [q] |}.
Proof.
  unfold filterStep.
  destruct (mget (mapping conversation) k) as [node|] eqn:En; [|auto].
  destruct (message node) as [msg|] eqn:Em; [|auto].
  destruct (negb _ && negb _); [auto|].
  destruct (negb (truthy _)); [auto|].
  right. exists node, msg. eexists.
  split; [reflexivity|]. split; [exact Em|].
  pose proof (buildQwenMessage_fresh node msg (normalizeRole (author_role msg))
                (extractContent (Some msg))
                (sanitizeTimestamp parseFloat (message_create_time msg)) conversation)
    as (H1 & H2 & H3).
  split; [exact H1|]. split; [exact H2|]. split; [exact H3|]. reflexivity.
Qed.

Lemma filterStep_included (st : FilterState) (k x : string) :
  In x (includedIds (filterStep parseFloat conversation st k)) ->
  In x (includedIds st) \/ x = k.
Proof.
  destruct (filterStep_cases st k) as [-> | (node & msg & q & _ & _ & _ & _ & _ & ->)].
  - auto.
  - simpl. apply Set_add_In.
Qed.

Lemma filterStep_ok (st : FilterState) (k : string) :
  state_ok (mapping conversation) st -> ~ In k (includedIds st) ->
  state_ok (mapping conversation) (filterStep parseFloat conversation st k).
Proof.
  intros (Hnd & Hlen & Hidx) Hk.
  destruct (filterStep_cases st k)
    as [-> | (node & msg & q & Hn & Hm & Hid & Hp & Hc & ->)].
  { split; [exact Hnd|]. split; [exact Hlen|]. exact Hidx. }
  unfold state_ok. simpl. rewrite (Set_add_fresh _ _ Hk).
  split; [|split].
  - rewrite <- (Set_add_fresh _ _ Hk). apply Set_add_NoDup, Hnd.
  - rewrite !length_app. simpl. lia.
  - intros i k' Hi.
    destruct (Nat.lt_ge_cases i (length (includedIds st))) as [Hlt | Hge].
    + rewrite nth_error_app1 in Hi by exact Hlt.
      destruct (Hidx i k' Hi) as (Hget & node' & msg' & q' & A & B & C & D).
      assert (Hne : k' <> k).
      { intros ->. apply Hk. eapply nth_error_In, Hi. }
      split.
      * rewrite Map_get_set_other by exact Hne. exact Hget.
      * exists node', msg', q'. split; [exact A|]. split; [exact B|].
        split; [|exact D]. rewrite nth_error_app1 by lia. exact C.
    + rewrite nth_error_app2 in Hi by exact Hge.
      destruct (i - length (includedIds st)) as [|d] eqn:Hd.
      2:{ simpl in Hi. destruct d; discriminate. }
      simpl in Hi. inversion Hi. subst k'.
      assert (Ei : i = length (includedIds st)) by lia.
      split.
      * rewrite Map_get_set_same. rewrite Hlen, Ei. reflexivity.
      * exists node, msg, q. split; [exact Hn|]. split; [exact Hm|].
        split; [|auto]. rewrite nth_error_app2 by lia.
        replace (i - length (st_messages st)) with 0 by lia. reflexivity.
Qed.

Lemma filterNodes_ok_from (path : list string) :
  forall st,
    state_ok (mapping conversation) st -> NoDup path ->
    (forall k, In k path -> ~ In k (includedIds st)) ->
    state_ok (mapping conversation) (fold_left (filterStep parseFloat conversation) path st).
Proof.
  induction path as [|k path IH]; intros st Hst Hnd Hfresh; simpl; [exact Hst|].
  inversion Hnd as [|? ? Hk Hnd']. subst.
  apply IH.
  - apply filterStep_ok; [exact Hst|]. apply Hfresh. left. reflexivity.
  - exact Hnd'.
  - intros x Hx Hin. apply filterStep_included in Hin. destruct Hin as [Hin | ->].
    + apply (Hfresh x); [right; exact Hx | exact Hin].
    + exact (Hk Hx).
Qed.

Lemma filterNodes_ok (path : list string) :
  NoDup path -> state_ok (mapping conversation) (filterNodes parseFloat conversation path).
Proof.
  intros Hnd. apply filterNodes_ok_from.
  - split; [constructor|]. split; [reflexivity|]. intros [|i] k H; discriminate.
  - exact Hnd.
  - intros k _ [].
Qed.

End Relinking.

(** ** Re-linking *)

Lemma add_children_nil (q : QwenMessage) : add_children [] q = q.
Proof. destruct q. unfold add_children. simpl. rewrite app_nil_r. reflexivity. Qed.

Lemma add_children_cons (c : string) (cs : list string) (q : QwenMessage) :
  add_children (c :: cs) q = add_children cs (push_child c q).
Proof. unfold add_children, push_child. simpl. rewrite <- app_assoc. reflexivity. Qed.

Lemma nth_error_unique (l : list string) (i j : nat) (k : string) :
  NoDup l -> nth_error l i = Some k -> nth_error l j = Some k -> i = j.
Proof.
  intros Hnd Hi Hj. apply (proj1 (NoDup_nth_error l) Hnd).
  - apply nth_error_Some. congruence.
  - congruence.
Qed.

Lemma Forall2_of_nth_error {A B : Type} (R : A -> B -> Prop) (l1 : list A) (l2 : list B) :
  length l1 = length l2 ->
  (forall i a b, nth_error l1 i = Some a -> nth_error l2 i = Some b -> R a b) ->
  Forall2 R l1 l2.
Proof.
  revert l2. induction l1 as [|a l1 IH]; intros [|b l2] Hlen H; try discriminate.
  - constructor.
  - constructor.
    + apply (H 0); reflexivity.
    + apply IH; [simpl in Hlen; lia|]. intros i a' b' Ha Hb. apply (H (S i)); assumption.
Qed.

Lemma nth_error_map_combine {A B C : Type} (f : A * B -> C) (l1 : list A) (l2 : list B)
    (i : nat) (a : A) (b : B) :
  nth_error l1 i = Some a -> nth_error l2 i = Some b ->
  nth_error (map f (combine l1 l2)) i = Some (f (a, b)).
Proof.
  revert l2 i. induction l1 as [|x l1 IH]; intros [|y l2] [|i] Ha Hb; simpl in *;
    try discriminate.
  - inversion Ha. inversion Hb. reflexivity.
  - apply IH; assumption.
Qed.

Section Links.

Variable m : Mapping.
Variable inc : list string.
Variable msgMap : list (string * nat).
Variable fuel : nat.

Hypothesis inc_NoDup : NoDup inc.
Hypothesis inc_index : forall i k, nth_error inc i = Some k -> Map_get msgMap k = Some i.

Lemma wireParents_spec :
  forall ids hd tl,
    length tl = length ids ->
    (forall j k, nth_error ids j = Some k ->
       Map_get msgMap k = Some (length hd + j) /\
       exists node, mget m k = Some node /\
         findIncludedAncestor fuel (parent node) inc m = Ok (resolvedParent m inc k)) ->
    wireParents fuel m inc msgMap ids (hd ++ tl) =
    Ok (hd ++ map (fun kq => set_links (resolvedParent m inc (fst kq)) (snd kq))
                  (combine ids tl)).
Proof.
  induction ids as [|k rest IH]; intros hd tl Hlen H.
  - destruct tl; [|discriminate]. reflexivity.
  - destruct tl as [|x tl]; [discriminate|].
    destruct (H 0 k eq_refl) as (Hget & node & Hnode & Hwalk).
    rewrite Nat.add_0_r in Hget.
    simpl. rewrite Hget, Hnode, Hwalk. simpl.
    rewrite update_app_head.
    replace (hd ++ set_links (resolvedParent m inc k) x :: tl)
      with ((hd ++ [set_links (resolvedParent m inc k) x]) ++ tl)
      by (rewrite <- app_assoc; reflexivity).
    rewrite IH.
    + rewrite <- app_assoc. reflexivity.
    + simpl in Hlen. lia.
    + intros j k' Hj. destruct (H (S j) k' Hj) as (Hget' & Hrest).
      split; [|exact Hrest]. rewrite Hget'. f_equal. rewrite length_app. simpl. lia.
Qed.

Hypothesis resolved_included :
  forall k p, In k inc -> resolvedParent m inc k = Some p -> In p inc /\ truthy p = true.

Lemma wireChildren_spec :
  forall ids heap,
    incl ids inc ->
    length heap = length inc ->
    (forall i k q, nth_error inc i = Some k -> nth_error heap i = Some q ->
       parentId q = resolvedParent m inc k) ->
    length (wireChildren msgMap ids heap) = length inc /\
    forall i k q, nth_error inc i = Some k -> nth_error heap i = Some q ->
      nth_error (wireChildren msgMap ids heap) i =
      Some (add_children (filter (childOfb m inc k) ids) q).
Proof.
  induction ids as [|nodeId rest IH]; intros heap Hincl Hlen Hpar.
  - simpl. split; [exact Hlen|]. intros i k q _ Hq. rewrite add_children_nil. exact Hq.
  - assert (Hin : In nodeId inc) by (apply Hincl; left; reflexivity).
    assert (Hrest : incl rest inc) by (intros x Hx; apply Hincl; right; exact Hx).
    destruct (In_nth_error _ _ Hin) as (j & Hj).
    assert (Hcur : exists cur, nth_error heap j = Some cur).
    { destruct (nth_error heap j) eqn:E; [eauto|].
      apply nth_error_None in E. assert (j < length inc) by (apply nth_error_Some; congruence).
      lia. }
    destruct Hcur as (cur & Hcur).
    simpl. rewrite (inc_index _ _ Hj), Hcur, (Hpar _ _ _ Hj Hcur).
    destruct (resolvedParent m inc nodeId) as [pid|] eqn:Hres.
    + destruct (resolved_included _ _ Hin Hres) as (Hpin & Hpt).
      rewrite (or_null_truthy _ Hpt).
      destruct (In_nth_error _ _ Hpin) as (jp & Hjp).
      rewrite (inc_index _ _ Hjp).
      destruct (IH (update jp (push_child nodeId) heap)) as (Hl & Hnth).
      * exact Hrest.
      * rewrite update_length. exact Hlen.
      * intros i k q Hi Hq. destruct (Nat.eq_dec jp i) as [-> | Hne].
        -- destruct (nth_error heap i) as [q0|] eqn:E.
           ++ rewrite (update_nth_same _ _ _ _ E) in Hq. inversion Hq. subst q.
              simpl. apply (Hpar _ _ _ Hi E).
           ++ apply nth_error_None in E. rewrite <- (update_length i (push_child nodeId)) in E.
              apply nth_error_None in E. congruence.
        -- rewrite update_nth_other in Hq by exact Hne. apply (Hpar _ _ _ Hi Hq).
      * split; [exact Hl|]. intros i k q Hi Hq.
        destruct (Nat.eq_dec jp i) as [-> | Hne].
        -- assert (k = pid) by congruence. subst k.
           unfold childOfb at 1. rewrite Hres, String.eqb_refl.
           rewrite add_children_cons. apply Hnth; [exact Hi|].
           apply update_nth_same. exact Hq.
        -- assert (Hk : pid <> k).
           { intros ->. apply Hne. eapply nth_error_unique; eassumption. }
           unfold childOfb at 1. rewrite Hres.
           destruct (String.eqb_spec pid k); [contradiction|].
           apply Hnth; [exact Hi|]. rewrite update_nth_other by exact Hne. exact Hq.
    + simpl. destruct (IH heap Hrest Hlen Hpar) as (Hl & Hnth).
      split; [exact Hl|]. intros i k q Hi Hq.
      unfold childOfb at 1. rewrite Hres. apply Hnth; assumption.
Qed.

End Links.

(** ** The resolved parent on a forest *)

Lemma resolvedParent_walk (m : Mapping) (inc : list string) (fuel : nat)
    (k : string) (node : Node) :
  acyclic m -> length m + 2 <= fuel -> mget m k = Some node ->
  findIncludedAncestor fuel (parent node) inc m = Ok (resolvedParent m inc k).
Proof.
  intros Hac Hf Hnode.
  assert (H : exists r, findIncludedAncestor (length m + 2) (parent node) inc m = Ok r).
  { rewrite findIncludedAncestor_or_null.
    destruct (or_null (parent node)) as [p|].
    - apply (findIncludedAncestor_finishes m inc (S (length m))); [|lia].
      apply ancestor_runs_out, Hac.
    - replace (length m + 2) with (S (length m + 1)) by lia. simpl. eauto. }
  destruct H as (r & Hr).
  unfold resolvedParent. rewrite Hnode, Hr.
  eapply findIncludedAncestor_more_fuel; eassumption.
Qed.

Lemma resolvedParent_nearest (m : Mapping) (inc : list string) (k : string) (node : Node) :
  acyclic m -> mget m k = Some node ->
  nearest_surviving_ancestor m inc k (resolvedParent m inc k) /\
  forall a, resolvedParent m inc k = Some a -> truthy a = true.
Proof.
  intros Hac Hnode.
  pose proof (resolvedParent_walk m inc (length m + 2) k node Hac (Nat.le_refl _) Hnode) as Hw.
  apply findIncludedAncestor_nearest in Hw.
  assert (Hstart : or_null (parent node) = parentOf m k).
  { unfold parentOf. rewrite Hnode. reflexivity. }
  rewrite Hstart in Hw.
  destruct (resolvedParent m inc k) as [a|]; simpl.
  - destruct Hw as (Ta & Ia & n & Hn & Hbefore).
    split; [|intros a' E; inversion E; subst; exact Ta].
    split; [|split; [exact Ia|]].
    + intros ->. apply (Hac k n). exact Hn.
    + exists n. split; [exact Hn|]. intros j b Hj Hb. apply (Hbefore j b Hj). exact Hb.
  - split; [|discriminate]. intros n b Hb. apply (Hw n b). exact Hb.
Qed.

Lemma Forall2_nth_error_l {A B : Type} (R : A -> B -> Prop) (l1 : list A) (l2 : list B) :
  Forall2 R l1 l2 ->
  forall i a, nth_error l1 i = Some a -> exists b, nth_error l2 i = Some b /\ R a b.
Proof.
  induction 1 as [|x y l1 l2 Hxy _ IH]; intros [|i] a Ha; simpl in *; try discriminate.
  - inversion Ha. subst. eauto.
  - apply IH, Ha.
Qed.

Lemma Forall2_nth_error_r {A B : Type} (R : A -> B -> Prop) (l1 : list A) (l2 : list B) :
  Forall2 R l1 l2 ->
  forall i b, nth_error l2 i = Some b -> exists a, nth_error l1 i = Some a /\ R a b.
Proof.
  induction 1 as [|x y l1 l2 Hxy _ IH]; intros [|i] b Hb; simpl in *; try discriminate.
  - inversion Hb. subst. eauto.
  - apply IH, Hb.
Qed.

Lemma children_among_filter (m : Mapping) (inc0 : list string) (k : string)
    (inc : list string) (msgs : list QwenMessage) :
  Forall2 (fun k' q => parentId q = resolvedParent m inc0 k') inc msgs ->
  children_among (combine inc msgs) k = filter (childOfb m inc0 k) inc.
Proof.
  unfold children_among.
  induction 1 as [|k' q inc msgs Hq _ IH]; simpl; [reflexivity|].
  unfold isChildOf at 1, childOfb at 1. simpl. rewrite Hq.
  destruct (resolvedParent m inc0 k') as [p|]; [|exact IH].
  destruct (String.eqb p k); simpl; [rewrite IH; reflexivity | exact IH].
Qed.

Section Forest.

Variable parseFloat : string -> jsnum.
Variable conversation : Conversation.
Variable index : nat.
Variable fuel : nat.

Hypothesis forest : acyclic (mapping conversation).
Hypothesis enough_fuel : length (mapping conversation) + 2 <= fuel.

(** On a forest the conversion finishes, and the i-th message of the output
    is the message of the i-th included node, with the resolved parent of
    that node and with the included nodes that resolve to it as children. *)
Lemma relink_core :
  exists path out,
    reconstructMessagePath fuel conversation = Ok path /\
    transformConversation parseFloat fuel conversation index = Ok out /\
    let inc := includedIds (filterNodes parseFloat conversation path) in
    NoDup inc /\
    Forall2
      (fun k q =>
         exists node msg,
           mget (mapping conversation) k = Some node /\ message node = Some msg /\
           id q = messageIdOf node msg /\
           parentId q = resolvedParent (mapping conversation) inc k /\
           childrenIds q = filter (childOfb (mapping conversation) inc k) inc)
      inc (messages out).
Proof.
  destruct (reconstructMessagePath_finishes conversation fuel forest enough_fuel)
    as (path & Hpath & Hnd).
  exists path.
  pose proof (filterNodes_ok parseFloat conversation path Hnd) as (Hinc & Hlen & Hidx).
  set (st := filterNodes parseFloat conversation path) in *.
  set (inc := includedIds st) in *.
  set (heap1 :=
         map (fun kq => set_links (resolvedParent (mapping conversation) inc (fst kq)) (snd kq))
             (combine inc (st_messages st))).
  assert (Hwire : wireParents fuel (mapping conversation) inc (messageMap st) inc
                    (st_messages st) = Ok heap1).
  { apply (wireParents_spec (mapping conversation) inc (messageMap st) fuel inc []
             (st_messages st) Hlen).
    intros j k Hj. destruct (Hidx j k Hj) as (Hget & node & msg & q & Hnode & _).
    split; [exact Hget|]. exists node. split; [exact Hnode|].
    apply resolvedParent_walk; assumption. }
  assert (Hheap1 : forall i k q, nth_error inc i = Some k -> nth_error heap1 i = Some q ->
            exists q0, nth_error (st_messages st) i = Some q0 /\
                       q = set_links (resolvedParent (mapping conversation) inc k) q0).
  { intros i k q Hi Hq. destruct (Hidx i k Hi) as (_ & node & msg & q0 & _ & _ & Hq0 & _).
    exists q0. split; [exact Hq0|].
    unfold heap1 in Hq.
    rewrite (nth_error_map_combine _ _ _ _ _ _ Hi Hq0) in Hq. inversion Hq. reflexivity. }
  assert (Hlen1 : length heap1 = length inc).
  { unfold heap1. rewrite length_map, length_combine, Hlen. apply Nat.min_id. }
  destruct (wireChildren_spec (mapping conversation) inc (messageMap st) Hinc
              (fun i k Hi => proj1 (Hidx i k Hi))) with (ids := inc) (heap := heap1)
    as (Hlen2 & Hnth).
  - intros k p Hk Hp. destruct (In_nth_error _ _ Hk) as (i & Hi).
    destruct (Hidx i k Hi) as (_ & node & _ & _ & Hnode & _).
    destruct (resolvedParent_nearest (mapping conversation) inc k node forest Hnode)
      as (Hnear & Htruthy).
    rewrite Hp in Hnear. simpl in Hnear. split; [tauto | apply Htruthy, Hp].
  - apply incl_refl.
  - exact Hlen1.
  - intros i k q Hi Hq. destruct (Hheap1 i k q Hi Hq) as (q0 & _ & ->). reflexivity.
  - eexists. split; [exact Hpath|]. split.
    + rewrite transformConversation_unfold, Hpath. cbv zeta. fold st. fold inc.
      rewrite Hwire. reflexivity.
    + simpl. split; [exact Hinc|].
      apply Forall2_of_nth_error; [symmetry; exact Hlen2|].
      intros i k q Hi Hq.
      destruct (Hidx i k Hi) as (_ & node & msg & q0 & Hnode & Hmsg & Hq0 & Hid & _ & _).
      exists node, msg. split; [exact Hnode|]. split; [exact Hmsg|].
      assert (Hq1 : nth_error heap1 i =
                    Some (set_links (resolvedParent (mapping conversation) inc k) q0)).
      { exact (nth_error_map_combine
                 (fun kq =>
                    set_links (resolvedParent (mapping conversation) inc (fst kq)) (snd kq))
                 _ _ _ _ _ Hi Hq0). }
      rewrite (Hnth i k _ Hi Hq1) in Hq. inversion Hq. simpl.
      split; [exact Hid|]. split; reflexivity.
Qed.

(** C2.  On a forest the conversion finishes, and of the surviving nodes,
    in the order of the filtered sequence and paired with their messages,
    each has as resolved parent its nearest surviving ancestor along the
    original parent chain (another surviving node, or null when the chain has
    none), and as children exactly the surviving nodes whose resolved parent
    it is, in the order of the filtered sequence. *)
Theorem relinking_is_consistent :
  exists path out,
    reconstructMessagePath fuel conversation = Ok path /\
    transformConversation parseFloat fuel conversation index = Ok out /\
    let surviving := includedIds (filterNodes parseFloat conversation path) in
    let linked := combine surviving (messages out) in
    NoDup surviving /\
    Forall2
      (fun k q =>
         nearest_surviving_ancestor (mapping conversation) surviving k (parentId q) /\
         childrenIds q = children_among linked k)
      surviving (messages out).
Proof.
  destruct relink_core as (path & out & Hpath & Hout & Hnd & Hall).
  exists path, out. split; [exact Hpath|]. split; [exact Hout|].
  cbv zeta in *. split; [exact Hnd|].
  set (inc := includedIds (filterNodes parseFloat conversation path)) in *.
  assert (Hpar : Forall2 (fun k' q => parentId q = resolvedParent (mapping conversation) inc k')
                   inc (messages out)).
  { revert Hall. apply Forall2_impl. intros k q (node & msg & _ & _ & _ & Hp & _). exact Hp. }
  revert Hall. apply Forall2_impl.
  intros k q (node & msg & Hnode & _ & _ & Hp & Hc). split.
  - rewrite Hp. apply (resolvedParent_nearest (mapping conversation) inc k node forest Hnode).
  - rewrite Hc. symmetry.
    apply (children_among_filter (mapping conversation) inc k inc (messages out) Hpar).
Qed.

Hypothesis keyed : ids_follow_keys (mapping conversation).

(** C3, as amended.  On a forest whose messages carry their mapping key as
    id, the conversion finishes and the links of its messages are closed:
    every [parentId] is null or the [id] of another message of the list, and
    every entry of [childrenIds] is the [id] of another message of the list. *)
Theorem links_closed_on_keyed_forest :
  exists out,
    transformConversation parseFloat fuel conversation index = Ok out /\
    links_closed (messages out).
Proof.
  destruct relink_core as (path & out & _ & Hout & Hnd & Hall).
  exists out. split; [exact Hout|].
  cbv zeta in *. set (inc := includedIds (filterNodes parseFloat conversation path)) in *.
  assert (Hfind : forall i a, nth_error inc i = Some a ->
            exists other, nth_error (messages out) i = Some other /\ id other = Some a).
  { intros i a Hi. destruct (Forall2_nth_error_l _ _ _ Hall i a Hi)
      as (other & Ho & node & msg & Hnode & Hmsg & Hid & _).
    exists other. split; [exact Ho|]. rewrite Hid. apply (keyed a node msg Hnode Hmsg). }
  intros i q Hq.
  destruct (Forall2_nth_error_r _ _ _ Hall i q Hq)
    as (k & Hk & node & msg & Hnode & Hmsg & Hid & Hp & Hc).
  pose proof (resolvedParent_nearest (mapping conversation) inc k node forest Hnode)
    as (Hnear & _).
  split.
  - rewrite Hp.
    destruct (resolvedParent (mapping conversation) inc k) as [a|]; [right | left; reflexivity].
    simpl in Hnear. destruct Hnear as (Hne & Hin & _).
    destruct (In_nth_error _ _ Hin) as (j & Hj).
    destruct (Hfind j a Hj) as (other & Ho & Hoid).
    exists j, other. split; [|split; assumption].
    intros ->. apply Hne. congruence.
  - intros c Hcin. rewrite Hc in Hcin. apply filter_In in Hcin. destruct Hcin as (Hin & Hchild).
    destruct (In_nth_error _ _ Hin) as (j & Hj).
    destruct (Hfind j c Hj) as (sibling & Hs & Hsid).
    exists j, sibling. split; [|split; assumption].
    intros ->. assert (c = k) by congruence. subst c.
    unfold childOfb in Hchild.
    destruct (resolvedParent (mapping conversation) inc k) as [a|]; [|discriminate].
    apply String.eqb_eq in Hchild. subst a. simpl in Hnear. tauto.
Qed.

End Forest.

(** ** More fuel never changes a result *)

Lemma getPathToRoot_loop_more_fuel (m : Mapping) :
  forall fuel fuel' cur path r,
    getPathToRoot_loop fuel m cur path = Ok r -> fuel <= fuel' ->
    getPathToRoot_loop fuel' m cur path = Ok r.
Proof.
  induction fuel as [|fuel IH]; intros fuel' cur path r H Hle; [discriminate|].
  destruct fuel' as [|fuel']; [lia|]. simpl in *.
  destruct cur as [cid|]; [|exact H].
  destruct (truthy cid); [|exact H].
  destruct (mget m cid); [|exact H].
  apply (IH fuel'); [exact H | lia].
Qed.

Lemma firstBranch_more
    (visit visit' : string -> list string -> outcome (list string * list string)) :
  (forall c v r, visit c v = Ok r -> visit' c v = Ok r) ->
  forall cs v r, firstBranch visit cs v = Ok r -> firstBranch visit' cs v = Ok r.
Proof.
  intros Hmore. induction cs as [|c cs IH]; intros v r H; simpl in *; [exact H|].
  destruct (visit c v) as [r1| |] eqn:E; simpl in H; try discriminate.
  rewrite (Hmore _ _ _ E). simpl.
  destruct (fst r1); [apply IH, H | exact H].
Qed.

Lemma traverseFromNode_more_fuel (m : Mapping) :
  forall fuel fuel' nodeId v r,
    traverseFromNode fuel nodeId m v = Ok r -> fuel <= fuel' ->
    traverseFromNode fuel' nodeId m v = Ok r.
Proof.
  induction fuel as [|fuel IH]; intros fuel' nodeId v r H Hle; [discriminate|].
  destruct fuel' as [|fuel']; [lia|].
  rewrite traverseFromNode_S in *.
  destruct (negb (truthy nodeId) || Set_has v nodeId); [exact H|].
  destruct (mget m nodeId) as [node|]; [|exact H].
  destruct (children node) as [[|c cs]|]; try exact H.
  destruct (firstBranch _ (c :: cs) (Set_add v nodeId)) as [r1| |] eqn:E;
    simpl in H; try discriminate.
  rewrite (firstBranch_more _
             (fun childId visited => traverseFromNode fuel' childId m visited)
             (fun c0 v0 r0 H0 => IH fuel' c0 v0 r0 H0 (le_S_n _ _ Hle)) _ _ _ E).
  exact H.
Qed.

Lemma expandPath_loop_more_fuel (m : Mapping) (fuel fuel' : nat) :
  fuel <= fuel' ->
  forall path result r,
    expandPath_loop fuel m path result = Ok r -> expandPath_loop fuel' m path result = Ok r.
Proof.
  intros Hle. induction path as [|nodeId rest IH]; intros result r H; simpl in *; [exact H|].
  destruct (mget m nodeId) as [node|]; [|apply IH, H].
  destruct (children node) as [[|c cs]|]; try (apply IH, H).
  destruct (traverseFromNode fuel c m _) as [r1| |] eqn:E; simpl in H; try discriminate.
  rewrite (traverseFromNode_more_fuel m _ _ _ _ _ E Hle). exact H.
Qed.

Lemma reconstructMessagePath_more_fuel (conversation : Conversation) (fuel fuel' : nat)
    (path : list string) :
  reconstructMessagePath fuel conversation = Ok path -> fuel <= fuel' ->
  reconstructMessagePath fuel' conversation = Ok path.
Proof.
  unfold reconstructMessagePath. intros H Hle.
  assert (Htrav : forall root0,
            (r <- traverseFromNode fuel root0 (mapping conversation) [] ;; Ok (fst r))
              = Ok path ->
            (r <- traverseFromNode fuel' root0 (mapping conversation) [] ;; Ok (fst r))
              = Ok path).
  { intros root0 H0.
    destruct (traverseFromNode fuel root0 _ []) as [r1| |] eqn:E; simpl in H0; try discriminate.
    rewrite (traverseFromNode_more_fuel _ _ _ _ _ _ E Hle). exact H0. }
  destruct (keys (mapping conversation)); [exact H|].
  destruct (findRootNodes (mapping conversation)) as [|root0 roots]; [exact H|].
  destruct (or_null (current_node conversation)) as [cur|]; [|apply Htrav, H].
  destruct (mget (mapping conversation) cur); [|apply Htrav, H].
  unfold getPathToRoot, expandPath in *.
  destruct (getPathToRoot_loop fuel _ (Some cur) []) as [p| |] eqn:E; simpl in H;
    try discriminate.
  rewrite (getPathToRoot_loop_more_fuel _ _ _ _ _ _ E Hle). simpl.
  destruct (expandPath_loop fuel _ p []) as [r1| |] eqn:E1; simpl in H; try discriminate.
  rewrite (expandPath_loop_more_fuel _ _ _ Hle _ _ _ E1). exact H.
Qed.

Lemma wireParents_more_fuel (m : Mapping) (inc : list string) (msgMap : list (string * nat))
    (fuel fuel' : nat) :
  fuel <= fuel' ->
  forall ids heap r,
    wireParents fuel m inc msgMap ids heap = Ok r ->
    wireParents fuel' m inc msgMap ids heap = Ok r.
Proof.
  intros Hle. induction ids as [|k rest IH]; intros heap r H; simpl in *; [exact H|].
  destruct (Map_get msgMap k); [|apply IH, H].
  destruct (mget m k) as [node|]; [|discriminate].
  destruct (findIncludedAncestor fuel (parent node) inc m) as [p| |] eqn:E; simpl in H;
    try discriminate.
  rewrite (findIncludedAncestor_more_fuel _ _ _ _ _ _ E Hle). simpl. apply IH, H.
Qed.

(** A record produced with some fuel is produced with any larger fuel: the
    fuel decides whether the run is seen to finish, never what it returns. *)
Lemma transformConversation_more_fuel (parseFloat : string -> jsnum)
    (conversation : Conversation) (index fuel fuel' : nat) (out : OutputConversation) :
  transformConversation parseFloat fuel conversation index = Ok out -> fuel <= fuel' ->
  transformConversation parseFloat fuel' conversation index = Ok out.
Proof.
  rewrite !transformConversation_unfold. intros H Hle.
  destruct (reconstructMessagePath fuel conversation) as [path| |] eqn:E; try discriminate.
  rewrite (reconstructMessagePath_more_fuel _ _ _ _ E Hle). cbv zeta in *.
  destruct (wireParents fuel _ _ _ _ _) as [wired| |] eqn:E1; try discriminate.
  rewrite (wireParents_more_fuel _ _ _ _ _ Hle _ _ _ E1). exact H.
Qed.

(** ** The example conversations, run *)

Lemma cyclic_walk_to_root (fuel : nat) (path : list string) :
  getPathToRoot_loop fuel (mapping cyclicConversation) (Some "a") path = OutOfFuel /\
  getPathToRoot_loop fuel (mapping cyclicConversation) (Some "b") path = OutOfFuel.
Proof.
  revert path. induction fuel as [|fuel IH]; intros path.
  - split; reflexivity.
  - split.
    + exact (proj2 (IH ("a" :: path))).
    + exact (proj1 (IH ("b" :: path))).
Qed.

Lemma stray_walk_to_ancestor (fuel : nat) :
  findIncludedAncestor fuel (Some "x") ["a"] (mapping strayParentConversation) = OutOfFuel /\
  findIncludedAncestor fuel (Some "y") ["a"] (mapping strayParentConversation) = OutOfFuel.
Proof.
  induction fuel as [|fuel IH].
  - split; reflexivity.
  - split.
    + exact (proj2 IH).
    + exact (proj1 IH).
Qed.

Lemma stray_wireParents (fuel : nat) (heap : list QwenMessage) :
  wireParents fuel (mapping strayParentConversation) ["a"] [("a", 0)] ["a"] heap = OutOfFuel.
Proof.
  change (wireParents fuel (mapping strayParentConversation) ["a"] [("a", 0)] ["a"] heap)
    with (p <- findIncludedAncestor fuel (Some "x") ["a"] (mapping strayParentConversation) ;;
          Ok (update 0 (set_links p) heap)).
  rewrite (proj1 (stray_walk_to_ancestor fuel)). reflexivity.
Qed.

(** C1, on the code.  With a current node on a parent cycle the walk of
    [getPathToRoot] never leaves its loop, and with a surviving node whose
    parent chain enters a cycle of filtered-out nodes the walk of
    [findIncludedAncestor] never leaves its loop: whatever the fuel, neither
    walk returns and the conversion of these two conversations produces no
    record. *)
Theorem cyclic_parents_never_finish (parseFloat : string -> jsnum) (fuel : nat) :
  (getPathToRoot fuel "a" (mapping cyclicConversation) = OutOfFuel /\
   transformConversation parseFloat fuel cyclicConversation 0 = OutOfFuel) /\
  (findIncludedAncestor fuel (Some "x") ["a"] (mapping strayParentConversation) = OutOfFuel /\
   transformConversation parseFloat fuel strayParentConversation 0 = OutOfFuel).
Proof.
  split; (split; [|rewrite transformConversation_unfold]).
  - exact (proj1 (cyclic_walk_to_root fuel [])).
  - change (reconstructMessagePath fuel cyclicConversation)
      with (path <- getPathToRoot_loop fuel (mapping cyclicConversation) (Some "a") [] ;;
            expandPath fuel path (mapping cyclicConversation)).
    rewrite (proj1 (cyclic_walk_to_root fuel [])). reflexivity.
  - exact (proj1 (stray_walk_to_ancestor fuel)).
  - destruct fuel as [|[|fuel]]; [reflexivity | reflexivity |].
    change (reconstructMessagePath (S (S fuel)) strayParentConversation)
      with (@Ok (list string) ["r"; "a"]).
    cbv beta iota zeta.
    change (includedIds (filterNodes parseFloat strayParentConversation ["r"; "a"]))
      with ["a"].
    change (messageMap (filterNodes parseFloat strayParentConversation ["r"; "a"]))
      with [("a", 0)].
    rewrite stray_wireParents. reflexivity.
Qed.

(** C4, on the code.  The current node "b" is in the mapping and its ancestor
    path is r, b; the reconstructed path is r, a: the loop of [expandPath]
    leaves at the first path node that has children, so the rest of the
    ancestor path, the current node included, is never pushed, and the
    message of the current node is not among the output messages. *)
Theorem current_node_dropped_from_path (parseFloat : string -> jsnum) (fuel : nat) :
  current_node branchConversation = Some "b" /\
  getPathToRoot (3 + fuel) "b" (mapping branchConversation) = Ok ["r"; "b"] /\
  reconstructMessagePath (3 + fuel) branchConversation = Ok ["r"; "a"] /\
  ~ In "b" ["r"; "a"] /\
  exists out,
    transformConversation parseFloat (3 + fuel) branchConversation 0 = Ok out /\
    map id (messages out) = [Some "a"].
Proof.
  split; [reflexivity|]. split; [reflexivity|]. split; [reflexivity|]. split.
  - simpl. intros [H | [H | []]]; discriminate.
  - eexists. split; reflexivity.
Qed.

(** C5.  The chain r, a, b, c, d with current node d converts to the
    messages a, b, d in this order; d's resolved parent is b, [currentId] is
    d and [currentResponseIds] is the singleton of d. *)
Theorem chain_scenario (parseFloat : string -> jsnum) (fuel : nat) :
  exists a b d out,
    transformConversation parseFloat (6 + fuel) chainConversation 0 = Ok out /\
    messages out = [a; b; d] /\
    (id a = Some "a" /\ role a = "user" /\ content a = "hi") /\
    (id b = Some "b" /\ role b = "assistant" /\ content_list b = ["hello"]) /\
    (id d = Some "d" /\ role d = "assistant" /\ content_list d = ["bye"]) /\
    parentId d = id b /\
    currentId out = id d /\
    currentResponseIds out = ["d"].
Proof.
  do 4 eexists. split; [reflexivity|]. simpl. repeat split.
Qed.

(** ** The test of [ids_follow_keys] *)

Lemma mget_In (m : Mapping) (k : string) (node : Node) :
  mget m k = Some node -> In (k, Some node) m.
Proof.
  induction m as [|[a v] m IH]; simpl; [discriminate|].
  destruct (String.eqb_spec a k) as [-> | Hne].
  - intros ->. left. reflexivity.
  - intros H. right. apply IH, H.
Qed.

Lemma ids_follow_keysb_sound (m : Mapping) : ids_follow_keysb m = true -> ids_follow_keys m.
Proof.
  unfold ids_follow_keysb. rewrite forallb_forall.
  intros H k node msg Hnode Hmsg.
  specialize (H _ (mget_In _ _ _ Hnode)). simpl in H. rewrite Hmsg in H.
  destruct (messageIdOf node msg) as [x|]; simpl in H; [|discriminate].
  apply String.eqb_eq in H. congruence.
Qed.

(** ** Counterexamples to the claims as written *)

(** C6 as written fails: the role ["system"] normalizes to ["system"]. *)
Lemma system_role_counterexample : ~ role_as_written "system".
Proof.
  intros H.
  assert (E : normalizeRole (Some "system") = "assistant").
  { apply H; discriminate. }
  discriminate E.
Qed.

(** C8 as written fails: the number Infinity is not finite, and its
    normalization is Infinity, not null. *)
Lemma infinite_timestamp_counterexample :
  ~ timestamp_as_written decimalParseFloat (VNum (Inf false)).
Proof. intros H. discriminate H. Qed.

(** C7 as written fails: the one message of [anonymousConversation] is an
    assistant message, yet [currentResponseIds] is empty, because the message
    has no id. *)
Lemma anonymous_assistant_counterexample :
  exists out,
    transformConversation decimalParseFloat 2 anonymousConversation 0 = Ok out /\
    ~ pointers_as_written (messages out) (currentId out) (currentResponseIds out).
Proof.
  eexists. split; [reflexivity|]. simpl.
  intros (H & _).
  destruct (H (buildQwenMessage
                 {| node_id := None; parent := None; children := Some [];
                    message := Some (textMessage None "assistant" "x") |}
                 (textMessage None "assistant" "x") "assistant" "x" None
                 anonymousConversation)) as (_ & E).
  - exists [], []. split; [reflexivity|]. split; [reflexivity | constructor].
  - discriminate E.
Qed.

(** C3 as written fails: in [renamedConversation] the second message has
    [parentId] "k1", the mapping key of the first one, whose [id] is "m1". *)
Lemma renamed_ids_counterexample :
  exists out,
    transformConversation decimalParseFloat 4 renamedConversation 0 = Ok out /\
    ~ links_closed (messages out).
Proof.
  eexists. split; [reflexivity|]. simpl.
  intros H.
  destruct (H 1 _ eq_refl) as ([E | (j & other & Hj & Hnth & Hid)] & _).
  - discriminate E.
  - destruct j as [|[|j]].
    + simpl in Hnth. inversion Hnth. subst other. discriminate Hid.
    + congruence.
    + simpl in Hnth. destruct j; discriminate Hnth.
Qed.

(** ** The theorems at concrete inputs *)

Lemma normalizeRole_defaults_only_missing_role_witness :
  normalizeRole (Some "system") = "system" /\
  filterStep decimalParseFloat chainConversation emptyState "c" = emptyState.
Proof.
  destruct (normalizeRole_defaults_only_missing_role decimalParseFloat) as (_ & _ & H).
  destruct (H "system") as (Hrole & Hskip); try discriminate.
  split; [exact Hrole|].
  apply (Hskip chainConversation emptyState "c"
           {| node_id := Some "c"; parent := Some "b"; children := Some ["d"];
              message := Some (textMessage (Some "c") "system" "ignored") |}
           (textMessage (Some "c") "system" "ignored")); reflexivity.
Defined.

Lemma sanitizeTimestamp_cases_witness :
  sanitizeTimestamp decimalParseFloat (VNum (Fin (3 # 2)%Q)) = Some (Fin (inject_Z 1)) /\
  sanitizeTimestamp decimalParseFloat (VNum (Inf true)) = Some (Inf true) /\
  sanitizeTimestamp decimalParseFloat (VStr "12.7abc") = Some (Fin (inject_Z 12)) /\
  sanitizeTimestamp decimalParseFloat (VStr "abc") = None /\
  sanitizeTimestamp decimalParseFloat (VNum NaN) = None.
Proof.
  split; [|split; [|split; [|split]]].
  - exact (proj1 (sanitizeTimestamp_cases decimalParseFloat (VNum (Fin (3 # 2)%Q)))
             (3 # 2)%Q eq_refl).
  - exact (proj1 (proj2 (sanitizeTimestamp_cases decimalParseFloat (VNum (Inf true))))
             true eq_refl).
  - apply (proj1 (proj2 (proj2 (sanitizeTimestamp_cases decimalParseFloat (VStr "12.7abc"))))
             "12.7abc" eq_refl).
    vm_compute. discriminate.
  - apply (proj2 (proj2 (proj2 (sanitizeTimestamp_cases decimalParseFloat (VStr "abc"))))).
    + intros n E. discriminate E.
    + intros s E. inversion E. reflexivity.
  - apply (proj2 (proj2 (proj2 (sanitizeTimestamp_cases decimalParseFloat (VNum NaN))))).
    + intros n E. inversion E. reflexivity.
    + intros s E. discriminate E.
Defined.

Lemma extractContent_joins_emitted_parts_witness :
  extractContent (Some (textMessage None "user" "  hi ")) = "hi" /\
  exists qwenMessage,
    filterStep decimalParseFloat assetConversation emptyState "n" =
      {| includedIds := ["n"]; messageMap := [("n", 0)]; st_messages := [qwenMessage] |} /\
    role qwenMessage = "assistant" /\
    content_list qwenMessage = ["[Asset]"].
Proof.
  destruct (extractContent_joins_emitted_parts decimalParseFloat) as (_ & _ & Hparts & Hasset).
  split.
  - exact (Hparts (textMessage None "user" "  hi ") [PString "  hi "] eq_refl).
  - destruct (Hasset assetConversation emptyState "n"
                {| node_id := Some "n"; parent := None; children := Some [];
                   message := Some {| message_id := Some "n";
                                      author_role := Some "assistant";
                                      content_parts := Some [PObject None (Some "x")];
                                      message_create_time := VUndefined;
                                      model_slug := None |} |}
                {| message_id := Some "n"; author_role := Some "assistant";
                   content_parts := Some [PObject None (Some "x")];
                   message_create_time := VUndefined; model_slug := None |}
                "x" eq_refl eq_refl eq_refl eq_refl eq_refl)
      as (_ & q & Hstep & Hrole & Hlist).
    exists q. split; [exact Hstep|]. split; assumption.
Defined.

Lemma meta_timestamp_in_milliseconds_witness :
  meta_timestamp (meta (assemble decimalParseFloat datedConversation 0 [])) =
    Some (Fin (inject_Z 1700000000000)) /\
  meta_timestamp (meta (assemble decimalParseFloat chainConversation 0 [])) = None.
Proof.
  split.
  - apply (proj1 (proj2 (meta_timestamp_in_milliseconds decimalParseFloat
                           datedConversation 0 []))).
    exists (Fin (inject_Z 1700000000)). repeat split.
  - apply (proj1 (proj2 (proj2
             (meta_timestamp_in_milliseconds decimalParseFloat chainConversation 0 [])))).
    left. reflexivity.
Defined.

Lemma current_pointers_follow_last_assistant_witness :
  let msgs := [plainMessage "u1" "user"; plainMessage "a1" "assistant";
               plainMessage "u2" "user"] in
  let out := assemble decimalParseFloat chainConversation 0 msgs in
  currentId out = Some "a1" /\ currentResponseIds out = ["a1"].
Proof.
  apply (proj1 (current_pointers_follow_last_assistant decimalParseFloat chainConversation 0
                  [plainMessage "u1" "user"; plainMessage "a1" "assistant";
                   plainMessage "u2" "user"])
           (plainMessage "a1" "assistant")).
  exists [plainMessage "u1" "user"], [plainMessage "u2" "user"].
  split; [reflexivity|]. split; [reflexivity|].
  repeat constructor. discriminate.
Defined.

Lemma relinking_is_consistent_witness :
  acyclic (mapping chainConversation) /\
  length (mapping chainConversation) + 2 <= 7 /\
  exists path out,
    reconstructMessagePath 7 chainConversation = Ok path /\
    transformConversation decimalParseFloat 7 chainConversation 0 = Ok out /\
    let surviving := includedIds (filterNodes decimalParseFloat chainConversation path) in
    let linked := combine surviving (messages out) in
    NoDup surviving /\
    Forall2
      (fun k q =>
         nearest_surviving_ancestor (mapping chainConversation) surviving k (parentId q) /\
         childrenIds q = children_among linked k)
      surviving (messages out).
Proof.
  split; [apply acyclicb_spec; reflexivity|].
  split; [simpl; lia|].
  apply (relinking_is_consistent decimalParseFloat chainConversation 0 7).
  - apply acyclicb_spec. reflexivity.
  - simpl. lia.
Defined.

Lemma links_closed_on_keyed_forest_witness :
  acyclic (mapping chainConversation) /\
  ids_follow_keys (mapping chainConversation) /\
  exists out,
    transformConversation decimalParseFloat 7 chainConversation 0 = Ok out /\
    links_closed (messages out).
Proof.
  split; [apply acyclicb_spec; reflexivity|].
  split; [apply ids_follow_keysb_sound; reflexivity|].
  apply (links_closed_on_keyed_forest decimalParseFloat chainConversation 0 7).
  - apply acyclicb_spec. reflexivity.
  - simpl. lia.
  - apply ids_follow_keysb_sound. reflexivity.
Defined.

(** * Further properties of the code *)

(** ** Timestamps *)

Lemma Math_floor_integral (n : jsnum) : Number_isNaN n = false -> integral (Math_floor n).
Proof.
  destruct n as [|b|q]; simpl; [discriminate | trivial |].
  intros _. exists (Qfloor q). reflexivity.
Qed.

Lemma sanitizeTimestamp_integral (parseFloat : string -> jsnum) (v : value) (n : jsnum) :
  sanitizeTimestamp parseFloat v = Some n -> integral n.
Proof.
  destruct v as [| | b | m | s |]; simpl; try discriminate.
  - destruct (Number_isNaN m) eqn:E; simpl; [discriminate|].
    intros H. inversion H. apply Math_floor_integral, E.
  - destruct (Number_isNaN (parseFloat s)) eqn:E; simpl; [discriminate|].
    intros H. inversion H. apply Math_floor_integral, E.
Qed.

Lemma sanitizeTimestamp_of_integral (parseFloat : string -> jsnum) (n : jsnum) :
  integral n -> sanitizeTimestamp parseFloat (VNum n) = Some n.
Proof.
  destruct n as [|b|q]; simpl; [intros [] | reflexivity |].
  intros (z & ->). rewrite Qfloor_Z. reflexivity.
Qed.

(** X1.  Whatever [sanitizeTimestamp] returns is an integer or an infinity,
    never NaN and never a fraction, and normalizing it again returns it
    unchanged. *)
Theorem sanitizeTimestamp_idempotent (parseFloat : string -> jsnum) (v : value) (n : jsnum) :
  sanitizeTimestamp parseFloat v = Some n ->
  integral n /\ sanitizeTimestamp parseFloat (VNum n) = Some n.
Proof.
  intros H. pose proof (sanitizeTimestamp_integral _ _ _ H) as Hi.
  split; [exact Hi | apply sanitizeTimestamp_of_integral, Hi].
Qed.

Lemma integral_not_NaN (n : jsnum) : integral n -> Number_isNaN n = false.
Proof. destruct n; simpl; [intros [] | reflexivity | reflexivity]. Qed.

Lemma getComparableTimestamp_integral (parseFloat : string -> jsnum)
    (conversation : Conversation) :
  integral (getComparableTimestamp parseFloat conversation).
Proof.
  unfold getComparableTimestamp.
  destruct (sanitizeTimestamp parseFloat (update_time conversation)) as [n|] eqn:U.
  - eapply sanitizeTimestamp_integral, U.
  - destruct (sanitizeTimestamp parseFloat (create_time conversation)) as [n|] eqn:C.
    + eapply sanitizeTimestamp_integral, C.
    + exists 0%Z. reflexivity.
Qed.

(** X2.  The sort key of a conversation is always a number, never NaN: it is
    the [updated_at] of its output record when that is not null, else its
    [created_at] when that is not null, else 0.  In particular an update time
    that is present but does not normalize (a JSON null, say) leaves
    [updated_at] null while the sort key falls back to the create time. *)
Theorem comparable_timestamp_follows_updated_at (parseFloat : string -> jsnum)
    (conversation : Conversation) (index : nat) (msgs : list QwenMessage) :
  let out := assemble parseFloat conversation index msgs in
  let t := getComparableTimestamp parseFloat conversation in
  integral t /\
  (forall n, updated_at out = Some n -> t = n) /\
  (updated_at out = None -> forall n, created_at out = Some n -> t = n) /\
  (updated_at out = None -> created_at out = None -> t = Fin (inject_Z 0)) /\
  (update_time conversation = VNull -> updated_at out = None).
Proof.
  simpl. split; [apply getComparableTimestamp_integral|].
  unfold getComparableTimestamp.
  destruct (update_time conversation) as [| | b | u | s |] eqn:U; simpl.
  - repeat split.
    + intros n ->. reflexivity.
    + intros -> n H. discriminate H.
    + intros -> _. reflexivity.
    + discriminate.
  - repeat split; try discriminate.
    + intros _ n ->. reflexivity.
    + intros _ ->. reflexivity.
  - repeat split; try discriminate.
    + intros _ n ->. reflexivity.
    + intros _ ->. reflexivity.
  - destruct (negb (Number_isNaN u)); repeat split; try discriminate.
    + intros n H. inversion H. reflexivity.
    + intros _ n ->. reflexivity.
    + intros _ ->. reflexivity.
  - destruct (negb (Number_isNaN (parseFloat s))); repeat split; try discriminate.
    + intros n H. inversion H. reflexivity.
    + intros _ n ->. reflexivity.
    + intros _ ->. reflexivity.
  - repeat split; try discriminate.
    + intros _ n ->. reflexivity.
    + intros _ ->. reflexivity.
Qed.

(** ** The model list *)

Lemma fold_add_truthy_In (l acc : list string) (s : string) :
  In s (fold_left (fun seen m => if truthy m then Set_add seen m else seen) l acc) <->
  In s acc \/ (In s l /\ truthy s = true).
Proof.
  revert acc. induction l as [|x l IH]; intros acc; simpl.
  - intuition auto.
  - rewrite IH. destruct (truthy x) eqn:T.
    + rewrite Set_add_In. split.
      * intros [[H | ->] | (H & Ht)]; auto.
      * intros [H | ([<- | H] & Ht)]; auto.
    + split.
      * intros [H | (H & Ht)]; auto.
      * intros [H | ([<- | H] & Ht)]; auto. congruence.
Qed.

Lemma fold_add_truthy_NoDup (l acc : list string) :
  NoDup acc ->
  NoDup (fold_left (fun seen m => if truthy m then Set_add seen m else seen) l acc).
Proof.
  revert acc. induction l as [|x l IH]; intros acc H; simpl; [exact H|].
  apply IH. destruct (truthy x); [apply Set_add_NoDup, H | exact H].
Qed.

Lemma fold_add_truthy_extends (l acc : list string) :
  exists more,
    fold_left (fun seen m => if truthy m then Set_add seen m else seen) l acc = acc ++ more.
Proof.
  revert acc. induction l as [|x l IH]; intros acc; simpl.
  - exists []. symmetry. apply app_nil_r.
  - destruct (truthy x); [|apply IH].
    destruct (Set_has acc x) eqn:E.
    + replace (Set_add acc x) with acc by (unfold Set_add; rewrite E; reflexivity).
      apply IH.
    + replace (Set_add acc x) with (acc ++ [x]) by (unfold Set_add; rewrite E; reflexivity).
      destruct (IH (acc ++ [x])) as (more & ->). exists (x :: more).
      rewrite <- app_assoc. reflexivity.
Qed.

Lemma collectModels_fold (msgs : list QwenMessage) :
  collectModels msgs = fold_left collectStep msgs [].
Proof. reflexivity. Qed.

Lemma collectStep_In (seen : list string) (q : QwenMessage) (s : string) :
  In s (collectStep seen q) <-> In s seen \/ contributes q s.
Proof.
  unfold collectStep, contributes.
  set (seen1 := if String.eqb (role q) "assistant" then _ else seen).
  assert (H1 : In s seen1 <->
               In s seen \/ (truthy s = true /\ role q = "assistant" /\ model q = Some s)).
  { unfold seen1. destruct (String.eqb_spec (role q) "assistant") as [E | E].
    - destruct (or_null (model q)) as [m|] eqn:M.
      + apply or_null_Some in M. destruct M as (M & T). rewrite Set_add_In. split.
        * intros [H | ->]; auto.
        * intros [H | (_ & _ & H)]; auto. right. congruence.
      + split; [auto|]. intros [H | (T & _ & H)]; [exact H|].
        rewrite H in M. rewrite (or_null_truthy _ T) in M. discriminate.
    - split; [auto|]. intros [H | (_ & H & _)]; [exact H | contradiction]. }
  destruct (models q) as [l|].
  - rewrite fold_add_truthy_In, H1. split.
    + intros [[H | (T & R & M)] | (H & T)]; auto.
      right. split; [exact T|]. right. exists l. auto.
    + intros [H | (T & [(R & M) | (l' & E & H)])]; auto.
      inversion E. subst l'. auto.
  - rewrite H1. split.
    + intros [H | (T & R & M)]; auto.
    + intros [H | (T & [(R & M) | (l' & E & H)])]; auto. discriminate.
Qed.

Lemma collectStep_NoDup (seen : list string) (q : QwenMessage) :
  NoDup seen -> NoDup (collectStep seen q).
Proof.
  intros H. unfold collectStep.
  assert (H1 : NoDup (if String.eqb (role q) "assistant"
                      then match or_null (model q) with
                           | Some m => Set_add seen m
                           | None => seen
                           end
                      else seen)).
  { destruct (String.eqb (role q) "assistant"); [|exact H].
    destruct (or_null (model q)); [apply Set_add_NoDup, H | exact H]. }
  destruct (models q); [apply fold_add_truthy_NoDup, H1 | exact H1].
Qed.

Lemma collectStep_extends (seen : list string) (q : QwenMessage) :
  exists more, collectStep seen q = seen ++ more.
Proof.
  unfold collectStep.
  assert (H1 : exists more,
             (if String.eqb (role q) "assistant"
              then match or_null (model q) with
                   | Some m => Set_add seen m
                   | None => seen
                   end
              else seen) = seen ++ more).
  { destruct (String.eqb (role q) "assistant"); [|exists []; symmetry; apply app_nil_r].
    destruct (or_null (model q)) as [m|]; [|exists []; symmetry; apply app_nil_r].
    unfold Set_add. destruct (Set_has seen m); [exists []; symmetry; apply app_nil_r|].
    exists [m]. reflexivity. }
  destruct H1 as (more1 & ->).
  destruct (models q) as [l|]; [|eauto].
  destruct (fold_add_truthy_extends l (seen ++ more1)) as (more2 & ->).
  exists (more1 ++ more2). rewrite app_assoc. reflexivity.
Qed.

Lemma fold_collectStep_In (msgs : list QwenMessage) (seen : list string) (s : string) :
  In s (fold_left collectStep msgs seen) <->
  In s seen \/ exists q, In q msgs /\ contributes q s.
Proof.
  revert seen. induction msgs as [|q msgs IH]; intros seen; simpl.
  - split; [auto|]. intros [H | (q & [] & _)]. exact H.
  - rewrite IH, collectStep_In. split.
    + intros [[H | H] | (q' & Hq & H)]; eauto 6.
    + intros [H | (q' & [<- | Hq] & H)]; eauto 6.
Qed.

Lemma fold_collectStep_NoDup (msgs : list QwenMessage) (seen : list string) :
  NoDup seen -> NoDup (fold_left collectStep msgs seen).
Proof.
  revert seen. induction msgs as [|q msgs IH]; intros seen H; simpl; [exact H|].
  apply IH, collectStep_NoDup, H.
Qed.

Lemma fold_collectStep_extends (msgs : list QwenMessage) (seen : list string) :
  exists more, fold_left collectStep msgs seen = seen ++ more.
Proof.
  revert seen. induction msgs as [|q msgs IH]; intros seen; simpl.
  - exists []. symmetry. apply app_nil_r.
  - destruct (collectStep_extends seen q) as (more1 & ->).
    destruct (IH (seen ++ more1)) as (more2 & ->).
    exists (more1 ++ more2). rewrite app_assoc. reflexivity.
Qed.

(** X3.  [collectModels] lists each model once; a string is listed exactly
    when it is non-empty and is the model of an assistant message or an entry
    of the [models] of some message; and the models of a longer message list
    extend those of a shorter one at the end (first-seen order). *)
Theorem collectModels_first_seen (msgs later : list QwenMessage) :
  NoDup (collectModels msgs) /\
  (forall s, In s (collectModels msgs) <-> exists q, In q msgs /\ contributes q s) /\
  exists more, collectModels (msgs ++ later) = collectModels msgs ++ more.
Proof.
  rewrite !collectModels_fold. split; [|split].
  - apply fold_collectStep_NoDup. constructor.
  - intros s. rewrite fold_collectStep_In. simpl. tauto.
  - rewrite fold_left_app. apply fold_collectStep_extends.
Qed.

(** ** Roots *)

Lemma findRootNodes_In (m : Mapping) (r : string) :
  In r (findRootNodes m) <-> In r (keys m) /\ isRoot m r.
Proof.
  unfold findRootNodes, isRoot. rewrite filter_In. split.
  - intros (Hk & Ht). split; [exact Hk|].
    destruct (mget m r) as [node|]; [|discriminate]. exists node. split; [reflexivity|].
    destruct (or_null (parent node)) as [p|]; [|auto].
    right. exists p. split; [reflexivity|]. destruct (mget m p); [discriminate | reflexivity].
  - intros (Hk & node & Hn & Hr). split; [exact Hk|]. rewrite Hn.
    destruct Hr as [-> | (p & -> & ->)]; reflexivity.
Qed.

Lemma isRoot_In (m : Mapping) (r : string) : isRoot m r -> In r (findRootNodes m).
Proof.
  intros H. apply findRootNodes_In. split; [|exact H].
  destruct H as (node & Hn & _). eapply mget_In_keys, Hn.
Qed.

Lemma climb_to_root (m : Mapping) (n : nat) :
  forall k node,
    mget m k = Some node -> ancestor m n k = None ->
    exists r j, ancestor m j k = Some r /\ isRoot m r.
Proof.
  induction n as [|n IH]; intros k node Hk Hn; [discriminate|].
  simpl in Hn. destruct (parentOf m k) as [p|] eqn:Hp.
  - destruct (mget m p) as [pnode|] eqn:Hpn.
    + destruct (IH p pnode Hpn Hn) as (r & j & Hj & Hr).
      exists r, (S j). split; [|exact Hr]. simpl. rewrite Hp. exact Hj.
    + exists k, 0. split; [reflexivity|]. exists node. split; [exact Hk|].
      right. exists p. split; [|exact Hpn]. unfold parentOf in Hp. rewrite Hk in Hp. exact Hp.
  - exists k, 0. split; [reflexivity|]. exists node. split; [exact Hk|].
    left. unfold parentOf in Hp. rewrite Hk in Hp. exact Hp.
Qed.


(** ** The walk to the root *)

Lemma getPathToRoot_loop_linked (m : Mapping) :
  forall fuel cur acc path,
    getPathToRoot_loop fuel m cur acc = Ok path ->
    chained (parentLink m) acc -> Forall (present m) acc ->
    (forall h rest, acc = h :: rest -> or_null cur = parentOf m h) ->
    exists pre,
      path = pre ++ acc /\ chained (parentLink m) path /\ Forall (present m) path /\
      (forall r rest, path = r :: rest -> isRoot m r).
Proof.
  induction fuel as [|fuel IH]; intros cur acc path H Hch Hpres Hcur; [discriminate|].
  simpl in H.
  assert (Hstop : Ok acc = Ok path ->
            (or_null cur = None \/ exists c, or_null cur = Some c /\ mget m c = None) ->
            exists pre,
              path = pre ++ acc /\ chained (parentLink m) path /\ Forall (present m) path /\
              (forall r rest, path = r :: rest -> isRoot m r)).
  { intros E Hend. inversion E. subst path. exists []. split; [reflexivity|].
    split; [exact Hch|]. split; [exact Hpres|].
    intros r rest ->. inversion Hpres as [|? ? Hr0 _]. subst. destruct Hr0 as (Tr & Pr).
    destruct (mget m r) as [node|] eqn:Hr; [|congruence].
    exists node. split; [exact Hr|].
    pose proof (Hcur r rest eq_refl) as Hp. unfold parentOf in Hp. rewrite Hr in Hp.
    rewrite <- Hp. destruct Hend as [-> | (c & -> & Hc)]; [left; reflexivity|].
    right. exists c. auto. }
  destruct cur as [c|]; [|apply Hstop; [exact H | left; reflexivity]].
  destruct (truthy c) eqn:Tc.
  2:{ apply Hstop; [exact H|]. left. unfold or_null. simpl. rewrite Tc. reflexivity. }
  destruct (mget m c) as [node|] eqn:Hc.
  2:{ apply Hstop; [exact H|]. right. exists c. rewrite (or_null_truthy c Tc). auto. }
  destruct (IH _ _ _ H) as (pre & E & Hch' & Hpres' & Hroot).
  - destruct acc as [|h rest]; [constructor|].
    constructor; [|exact Hch]. unfold parentLink.
    rewrite <- (Hcur h rest eq_refl). apply or_null_truthy, Tc.
  - constructor; [|exact Hpres]. split; [exact Tc | congruence].
  - intros h rest E. inversion E. subst h rest.
    unfold parentOf. rewrite Hc. unfold or_null.
    destruct (truthy_opt (parent node)) eqn:T; [|reflexivity].
    destruct (parent node) as [p|]; [|discriminate]. simpl in *. rewrite T. reflexivity.
  - exists (pre ++ [c]). rewrite <- app_assoc. split; [exact E|].
    split; [exact Hch'|]. split; [exact Hpres'|]. exact Hroot.
Qed.

Lemma chained_parent_ancestor (m : Mapping) (x : string) (rest : list string) :
  chained (parentLink m) (x :: rest) ->
  forall z, In z rest -> exists d, ancestor m (S d) z = Some x.
Proof.
  revert x. induction rest as [|y rest IH]; intros x H z Hz; [destruct Hz|].
  inversion H as [| |? ? ? Hxy Hrest]. subst.
  destruct Hz as [<- | Hz].
  - exists 0. simpl. rewrite Hxy. reflexivity.
  - destruct (IH y Hrest z Hz) as (d & Hd).
    exists (S d). rewrite ancestor_S_last, Hd. exact Hxy.
Qed.

Lemma chained_parent_NoDup (m : Mapping) (l : list string) :
  acyclic m -> chained (parentLink m) l -> NoDup l.
Proof.
  intros Hac. induction l as [|x rest IH]; intros H; [constructor|].
  constructor.
  - intros Hin. destruct (chained_parent_ancestor m x rest H x Hin) as (d & Hd).
    exact (Hac x d Hd).
  - apply IH. inversion H; [constructor | assumption].
Qed.


(** ** The descent *)

Lemma firstBranch_pick
    (visit : string -> list string -> outcome (list string * list string))
    (P : string -> list string -> Prop) :
  (forall c v r, visit c v = Ok r -> fst r = [] \/ P c (fst r)) ->
  forall cs v r, firstBranch visit cs v = Ok r ->
    fst r = [] \/ exists c, In c cs /\ P c (fst r).
Proof.
  intros Hvisit. induction cs as [|c cs IH]; intros v r H; simpl in H.
  - inversion H. left. reflexivity.
  - destruct (visit c v) as [r1| |] eqn:E; simpl in H; try discriminate.
    destruct (fst r1) as [|y s1] eqn:F.
    + destruct (IH _ _ H) as [H0 | (c' & Hc' & HP)]; [left; exact H0|].
      right. exists c'. split; [right; exact Hc' | exact HP].
    + inversion H. subst r. right. exists c. split; [left; reflexivity|].
      destruct (Hvisit _ _ _ E) as [H0 | HP]; [congruence | exact HP].
Qed.

Lemma traverseFromNode_descent (m : Mapping) :
  forall fuel nodeId v r,
    traverseFromNode fuel nodeId m v = Ok r ->
    fst r = [] \/ descent_from m nodeId (fst r).
Proof.
  induction fuel as [|fuel IH]; intros nodeId v r H; [discriminate|].
  rewrite traverseFromNode_S in H.
  destruct (negb (truthy nodeId) || Set_has v nodeId) eqn:G.
  { inversion H. left. reflexivity. }
  apply orb_false_iff in G. destruct G as (Tn & _). apply negb_false_iff in Tn.
  destruct (mget m nodeId) as [node|] eqn:Hn.
  2:{ inversion H. left. reflexivity. }
  assert (Hp : present m nodeId) by (split; [exact Tn | congruence]).
  assert (Hsingle : descent_from m nodeId [nodeId]).
  { split; [exists []; reflexivity|].
    split; [apply chained_one | constructor; [exact Hp | constructor]]. }
  destruct (children node) as [[|c cs]|] eqn:Hc.
  1,3: inversion H; right; exact Hsingle.
  destruct (firstBranch _ (c :: cs) (Set_add v nodeId)) as [r1| |] eqn:E;
    simpl in H; try discriminate.
  inversion H. subst r. simpl. right.
  apply (firstBranch_pick _ (descent_from m)
           (fun c0 v0 r0 H0 => IH c0 v0 r0 H0)) in E.
  destruct E as [-> | (c' & Hc' & (rest & Es) & Hch & Hall)]; [exact Hsingle|].
  split; [eexists; reflexivity|]. rewrite Es in *. split.
  - constructor; [|exact Hch]. exists node, (c :: cs). auto.
  - constructor; [exact Hp | exact Hall].
Qed.

Lemma traverseFromNode_starts (m : Mapping) (fuel : nat) (nodeId : string)
    (v : list string) (r : list string * list string) :
  traverseFromNode fuel nodeId m v = Ok r ->
  present m nodeId -> ~ In nodeId v -> exists rest, fst r = nodeId :: rest.
Proof.
  intros H (Tn & Pn) Hv. destruct fuel as [|fuel]; [discriminate|].
  rewrite traverseFromNode_S in H.
  apply Set_has_not_In in Hv. rewrite Tn, Hv in H. cbn [negb orb] in H.
  destruct (mget m nodeId) as [node|]; [|congruence].
  destruct (children node) as [[|c cs]|].
  1,3: inversion H; exists []; reflexivity.
  destruct (firstBranch _ _ _) as [r1| |]; simpl in H; try discriminate.
  inversion H. eexists. reflexivity.
Qed.


(** ** The reconstructed path, whatever the mapping *)

Lemma expandPath_loop_present (m : Mapping) (fuel : nat) :
  forall path result r,
    expandPath_loop fuel m path result = Ok r ->
    Forall (present m) path -> Forall (present m) result -> Forall (present m) r.
Proof.
  induction path as [|nodeId rest IH]; intros result r H Hpath Hres; simpl in H.
  - inversion H. subst. exact Hres.
  - inversion Hpath as [|? ? Hn Hrest]. subst.
    assert (Hres1 : Forall (present m) (result ++ [nodeId])).
    { apply Forall_app. split; [exact Hres | constructor; [exact Hn | constructor]]. }
    destruct (mget m nodeId) as [node|]; [|apply (IH _ _ H Hrest Hres1)].
    destruct (children node) as [[|c cs]|]; try apply (IH _ _ H Hrest Hres1).
    destruct (traverseFromNode fuel c m _) as [r1| |] eqn:E; simpl in H; try discriminate.
    inversion H. subst r. apply Forall_app. split; [exact Hres1|].
    destruct (traverseFromNode_descent m _ _ _ _ E) as [-> | (_ & _ & Hall)];
      [constructor | exact Hall].
Qed.

Lemma Forall_Set_of (P : string -> Prop) (l : list string) :
  Forall P l -> Forall P (Set_of l).
Proof.
  rewrite !Forall_forall. intros H x Hx. apply H. apply Set_of_In. exact Hx.
Qed.

Lemma reconstructMessagePath_sound (conversation : Conversation) (fuel : nat)
    (path : list string) :
  reconstructMessagePath fuel conversation = Ok path ->
  NoDup path /\ Forall (present (mapping conversation)) path.
Proof.
  unfold reconstructMessagePath. set (m := mapping conversation). intros H.
  assert (Htrav : forall root0,
            (r <- traverseFromNode fuel root0 m [] ;; Ok (fst r)) = Ok path ->
            NoDup path /\ Forall (present m) path).
  { intros root0 H0.
    destruct (traverseFromNode fuel root0 m []) as [[seq v']| |] eqn:E; simpl in H0;
      try discriminate.
    inversion H0. subst seq. split.
    - apply (traverseFromNode_traversed m _ _ _ _ _ E).
    - destruct (traverseFromNode_descent m _ _ _ _ E) as [E0 | (_ & _ & Hall)].
      + simpl in E0. subst. constructor.
      + exact Hall. }
  destruct (keys m); [inversion H; split; constructor|].
  destruct (findRootNodes m) as [|root0 roots]; [inversion H; split; constructor|].
  destruct (or_null (current_node conversation)) as [cur|]; [|apply (Htrav _ H)].
  destruct (mget m cur); [|apply (Htrav _ H)].
  unfold getPathToRoot, expandPath in H.
  destruct (getPathToRoot_loop fuel m (Some cur) []) as [p| |] eqn:E; simpl in H;
    try discriminate.
  destruct (expandPath_loop fuel m p []) as [r| |] eqn:E1; simpl in H; try discriminate.
  inversion H. split; [apply Set_of_NoDup|]. apply Forall_Set_of.
  apply (expandPath_loop_present m fuel p [] r E1); [|constructor].
  destruct (getPathToRoot_loop_linked m fuel (Some cur) [] p E) as (pre & _ & _ & Hp & _).
  - constructor.
  - constructor.
  - intros h rest E0. discriminate E0.
  - exact Hp.
Qed.


(** X8.  A mapping without a root (empty, or with every node naming a parent
    that is in the mapping, as when all nodes lie on parent cycles) converts,
    with any fuel and without entering a walk, to the record of an empty
    conversation: no messages, null [currentId], no models. *)
Theorem rootless_mapping_converts_to_empty (parseFloat : string -> jsnum)
    (conversation : Conversation) (index fuel : nat) :
  findRootNodes (mapping conversation) = [] ->
  transformConversation parseFloat fuel conversation index
    = Ok (assemble parseFloat conversation index []) /\
  messages (assemble parseFloat conversation index []) = [] /\
  currentId (assemble parseFloat conversation index []) = None /\
  out_models (assemble parseFloat conversation index []) = None.
Proof.
  intros Hroots. split; [|repeat split].
  rewrite transformConversation_unfold. unfold reconstructMessagePath. rewrite Hroots.
  destruct (keys (mapping conversation)); reflexivity.
Qed.

(** ** The filter loop as a filter *)

Lemma filterStep_project (parseFloat : string -> jsnum) (conversation : Conversation)
    (st : FilterState) (k : string) :
  filterStep parseFloat conversation st k =
  match projectNode parseFloat conversation k with
  | [] => st
  | q :: _ =>
      {| includedIds := Set_add (includedIds st) k;
         messageMap := Map_set (messageMap st) k (length (st_messages st));
         st_messages := st_messages st ++ [q] |}
  end.
Proof.
  unfold filterStep, projectNode, qualifies.
  destruct (mget (mapping conversation) k) as [node|]; [|reflexivity].
  destruct (message node) as [msg|]; [|reflexivity].
  destruct (String.eqb (normalizeRole (author_role msg)) "user");
    destruct (String.eqb (normalizeRole (author_role msg)) "assistant");
    destruct (truthy (extractContent (Some msg))); reflexivity.
Qed.

Lemma projectNode_qualifies (parseFloat : string -> jsnum) (conversation : Conversation)
    (k : string) :
  (qualifies conversation k = true -> exists q, projectNode parseFloat conversation k = [q]) /\
  (qualifies conversation k = false -> projectNode parseFloat conversation k = []).
Proof.
  unfold projectNode. split; intros H.
  - rewrite H. unfold qualifies in H.
    destruct (mget (mapping conversation) k) as [node|]; [|discriminate].
    destruct (message node) as [msg|]; [|discriminate]. eauto.
  - rewrite H. destruct (mget (mapping conversation) k) as [node|]; [|reflexivity].
    destruct (message node); reflexivity.
Qed.

Lemma filterNodes_as_filter_from (parseFloat : string -> jsnum) (conversation : Conversation)
    (path : list string) :
  forall st,
    NoDup path -> (forall k, In k path -> ~ In k (includedIds st)) ->
    let st' := fold_left (filterStep parseFloat conversation) path st in
    includedIds st' = includedIds st ++ filter (qualifies conversation) path /\
    st_messages st' = st_messages st ++ flat_map (projectNode parseFloat conversation) path.
Proof.
  induction path as [|k path IH]; intros st Hnd Hfresh; simpl.
  - rewrite !app_nil_r. split; reflexivity.
  - inversion Hnd as [|? ? Hk Hnd']. subst.
    assert (Hk0 : ~ In k (includedIds st)) by (apply Hfresh; left; reflexivity).
    destruct (IH (filterStep parseFloat conversation st k) Hnd') as (Hi & Hm).
    { intros x Hx Hin. apply filterStep_included in Hin. destruct Hin as [Hin | ->].
      - apply (Hfresh x); [right; exact Hx | exact Hin].
      - exact (Hk Hx). }
    cbv zeta in Hi, Hm. rewrite Hi, Hm. rewrite filterStep_project.
    destruct (projectNode_qualifies parseFloat conversation k) as (Hyes & Hno).
    destruct (qualifies conversation k) eqn:Q.
    + destruct (Hyes eq_refl) as (q & ->). simpl.
      rewrite (Set_add_fresh _ _ Hk0), <- !app_assoc. split; reflexivity.
    + rewrite (Hno eq_refl). split; reflexivity.
Qed.

(** X9.  On a path without repetition (and every reconstructed path is one)
    the filter loop keeps exactly the ids that pass its three tests, in path
    order, and builds one message for each of them, in the same order. *)
Theorem filterNodes_keeps_qualifying_ids (parseFloat : string -> jsnum)
    (conversation : Conversation) (path : list string) :
  NoDup path ->
  let st := filterNodes parseFloat conversation path in
  includedIds st = filter (qualifies conversation) path /\
  st_messages st = flat_map (projectNode parseFloat conversation) path /\
  length (st_messages st) = length (includedIds st).
Proof.
  intros Hnd. cbv zeta.
  destruct (filterNodes_as_filter_from parseFloat conversation path emptyState Hnd)
    as (Hi & Hm); [intros k _ []|].
  cbv zeta in Hi, Hm. simpl in Hi, Hm. split; [exact Hi|]. split; [exact Hm|].
  apply (filterNodes_ok parseFloat conversation path Hnd).
Qed.

(** ** The messages of the output *)

Lemma update_Forall {A : Type} (P : A -> Prop) (f : A -> A) (i : nat) (l : list A) :
  (forall x, P x -> P (f x)) -> Forall P l -> Forall P (update i f l).
Proof.
  intros Hf. revert i. induction l as [|x l IH]; intros i H; [destruct i; constructor|].
  inversion H. subst. destruct i; simpl; constructor; auto.
Qed.

Lemma wireParents_Forall (P : QwenMessage -> Prop) (fuel : nat) (m : Mapping)
    (inc : list string) (msgMap : list (string * nat)) :
  (forall p q, P q -> P (set_links p q)) ->
  forall ids heap heap',
    wireParents fuel m inc msgMap ids heap = Ok heap' -> Forall P heap -> Forall P heap'.
Proof.
  intros Hset. induction ids as [|k rest IH]; intros heap heap' H Hall; simpl in H.
  - inversion H. subst. exact Hall.
  - destruct (Map_get msgMap k) as [i|]; [|apply (IH _ _ H Hall)].
    destruct (mget m k) as [node|]; [|discriminate].
    destruct (findIncludedAncestor fuel (parent node) inc m) as [p| |]; simpl in H;
      try discriminate.
    apply (IH _ _ H). apply update_Forall; [apply Hset | exact Hall].
Qed.

Lemma wireChildren_Forall (P : QwenMessage -> Prop) (msgMap : list (string * nat)) :
  (forall c q, P q -> P (push_child c q)) ->
  forall ids heap, Forall P heap -> Forall P (wireChildren msgMap ids heap).
Proof.
  intros Hpush. induction ids as [|k rest IH]; intros heap Hall; simpl; [exact Hall|].
  destruct (Map_get msgMap k) as [i|]; [|apply IH, Hall].
  destruct (or_null _) as [pid|]; [|apply IH, Hall].
  destruct (Map_get msgMap pid) as [j|]; [|apply IH, Hall].
  apply IH. apply update_Forall; [apply Hpush | exact Hall].
Qed.

Lemma buildQwenMessage_well_formed (node : Node) (msg : Message) (r text : string)
    (ts : option jsnum) (conversation : Conversation) :
  r = "user" \/ r = "assistant" -> text <> "" ->
  (forall n, ts = Some n -> integral n) ->
  well_formed (buildQwenMessage node msg r text ts conversation).
Proof.
  intros Hr Ht Hts. unfold well_formed, buildQwenMessage.
  destruct (String.eqb_spec r "assistant") as [-> | Hne]; simpl.
  - split; [|exact Hts]. right. split; [reflexivity|]. split; [reflexivity|].
    exists text. auto.
  - split; [|exact Hts]. left. auto.
Qed.

Lemma projectNode_well_formed (parseFloat : string -> jsnum) (conversation : Conversation)
    (k : string) :
  Forall well_formed (projectNode parseFloat conversation k).
Proof.
  unfold projectNode.
  destruct (mget (mapping conversation) k) as [node|] eqn:Hn; [|constructor].
  destruct (message node) as [msg|] eqn:Hm; [|constructor].
  destruct (qualifies conversation k) eqn:Q; [|constructor].
  constructor; [|constructor].
  unfold qualifies in Q. rewrite Hn, Hm in Q. apply andb_true_iff in Q.
  destruct Q as (Hr & Ht). apply buildQwenMessage_well_formed.
  - apply orb_true_iff in Hr. destruct Hr as [Hr | Hr]; apply String.eqb_eq in Hr; auto.
  - apply truthy_true_nonempty, Ht.
  - intros n. apply sanitizeTimestamp_integral.
Qed.

Lemma well_formed_set_links (p : option string) (q : QwenMessage) :
  well_formed q -> well_formed (set_links p q).
Proof. intros H. exact H. Qed.

Lemma well_formed_push_child (c : string) (q : QwenMessage) :
  well_formed q -> well_formed (push_child c q).
Proof. intros H. exact H. Qed.

(** X10.  Every message of a record [transformConversation] returns is well
    formed: its role is ["user"] or ["assistant"], a user message carries a
    non-empty text in [content], an assistant message has an empty [content]
    and a non-empty text in the one entry of its [content_list], and its
    timestamp is null, an integer or an infinity; and there are at most as
    many messages as the reconstructed path has ids. *)
Theorem output_messages_are_well_formed (parseFloat : string -> jsnum)
    (conversation : Conversation) (index fuel : nat) (out : OutputConversation) :
  transformConversation parseFloat fuel conversation index = Ok out ->
  Forall well_formed (messages out) /\
  exists path,
    reconstructMessagePath fuel conversation = Ok path /\
    length (messages out) <= length path.
Proof.
  rewrite transformConversation_unfold.
  destruct (reconstructMessagePath fuel conversation) as [path| |] eqn:Hpath;
    try discriminate.
  cbv zeta.
  destruct (wireParents fuel _ _ _ _ _) as [wired| |] eqn:Hw; try discriminate.
  intros H. inversion H. subst out. simpl.
  destruct (reconstructMessagePath_sound conversation fuel path Hpath) as (Hnd & _).
  destruct (filterNodes_as_filter_from parseFloat conversation path emptyState Hnd)
    as (Hi & Hm); [intros k _ []|].
  cbv zeta in Hi, Hm. simpl in Hi, Hm.
  fold (filterNodes parseFloat conversation path) in Hi, Hm.
  assert (H0 : Forall well_formed (st_messages (filterNodes parseFloat conversation path))).
  { rewrite Hm. apply Forall_flat_map. apply Forall_forall. intros k _.
    apply projectNode_well_formed. }
  split.
  - apply wireChildren_Forall; [apply well_formed_push_child|].
    apply (wireParents_Forall well_formed _ _ _ _ well_formed_set_links _ _ _ Hw H0).
  - exists path. split; [reflexivity|].
    pose proof (filterNodes_ok parseFloat conversation path Hnd) as (Hinc & Hlen & Hidx).
    assert (Hl1 : length wired = length (st_messages (filterNodes parseFloat conversation path))).
    { clear - Hw. revert Hw.
      generalize (st_messages (filterNodes parseFloat conversation path)) as heap.
      generalize (includedIds (filterNodes parseFloat conversation path)) at 2 as ids.
      induction ids as [|k rest IH]; intros heap Hw; simpl in Hw.
      - inversion Hw. reflexivity.
      - destruct (Map_get _ k) as [i|]; [|apply IH, Hw].
        destruct (mget _ k) as [node|]; [|discriminate].
        destruct (findIncludedAncestor _ _ _ _) as [p| |]; simpl in Hw; try discriminate.
        rewrite (IH _ Hw). apply update_length. }
    assert (Hl2 : forall ids heap, length (wireChildren
                    (messageMap (filterNodes parseFloat conversation path)) ids heap)
                  = length heap).
    { induction ids as [|k rest IH]; intros heap; simpl; [reflexivity|].
      destruct (Map_get _ k) as [i|]; [|apply IH].
      destruct (or_null _) as [pid|]; [|apply IH].
      destruct (Map_get _ pid) as [j|]; [|apply IH].
      rewrite IH. apply update_length. }
    rewrite Hl2, Hl1, Hlen, Hi. apply List.filter_length_le.
Qed.

(** ** No exception *)











(** ** Links name surviving nodes *)

Lemma findIncludedAncestor_included (m : Mapping) (inc : list string) :
  forall fuel start p,
    findIncludedAncestor fuel start inc m = Ok (Some p) -> In p inc /\ p <> "".
Proof.
  intros fuel start p H. apply findIncludedAncestor_nearest in H.
  destruct H as (T & I & _). split; [exact I | apply truthy_true_nonempty, T].
Qed.

Lemma wireParents_links_within (fuel : nat) (m : Mapping) (inc : list string)
    (msgMap : list (string * nat)) :
  forall ids heap heap',
    wireParents fuel m inc msgMap ids heap = Ok heap' ->
    Forall (links_within inc) heap -> Forall (links_within inc) heap'.
Proof.
  induction ids as [|k rest IH]; intros heap heap' H Hall; simpl in H.
  - inversion H. subst. exact Hall.
  - destruct (Map_get msgMap k) as [i|]; [|apply (IH _ _ H Hall)].
    destruct (mget m k) as [node|]; [|discriminate].
    destruct (findIncludedAncestor fuel (parent node) inc m) as [p| |] eqn:E; simpl in H;
      try discriminate.
    apply (IH _ _ H). apply update_Forall; [|exact Hall].
    intros q _. split; simpl.
    + intros a Ha. subst p. apply (findIncludedAncestor_included m inc _ _ _ E).
    + intros x [].
Qed.

Lemma wireChildren_links_within (inc : list string) (msgMap : list (string * nat)) :
  forall ids heap,
    incl ids inc ->
    Forall (links_within inc) heap -> Forall (links_within inc) (wireChildren msgMap ids heap).
Proof.
  induction ids as [|k rest IH]; intros heap Hincl Hall; simpl; [exact Hall|].
  assert (Hrest : incl rest inc) by (intros x Hx; apply Hincl; right; exact Hx).
  destruct (Map_get msgMap k) as [i|]; [|apply IH; assumption].
  destruct (or_null _) as [pid|]; [|apply IH; assumption].
  destruct (Map_get msgMap pid) as [j|]; [|apply IH; assumption].
  apply IH; [exact Hrest|]. apply update_Forall; [|exact Hall].
  intros q (Hp & Hc). split; [exact Hp|]. simpl.
  intros x Hx. apply in_app_iff in Hx. destruct Hx as [Hx | [<- | []]].
  - apply Hc, Hx.
  - apply Hincl. left. reflexivity.
Qed.

(** X12.  On every conversation on which [transformConversation] returns,
    with or without cycles, each [parentId] of the output is null or the
    non-empty key of a surviving node, and each entry of a [childrenIds] is
    the key of a surviving node: no link names a filtered-out node. *)
Theorem links_name_surviving_nodes (parseFloat : string -> jsnum)
    (conversation : Conversation) (index fuel : nat) (out : OutputConversation) :
  transformConversation parseFloat fuel conversation index = Ok out ->
  exists path,
    reconstructMessagePath fuel conversation = Ok path /\
    Forall (links_within (includedIds (filterNodes parseFloat conversation path)))
      (messages out).
Proof.
  rewrite transformConversation_unfold.
  destruct (reconstructMessagePath fuel conversation) as [path| |] eqn:Hpath;
    try discriminate.
  cbv zeta.
  destruct (wireParents fuel _ _ _ _ _) as [wired| |] eqn:Hw; try discriminate.
  intros H. inversion H. subst out. simpl. exists path. split; [reflexivity|].
  apply wireChildren_links_within; [apply incl_refl|].
  apply (wireParents_links_within _ _ _ _ _ _ _ Hw).
  destruct (reconstructMessagePath_sound conversation fuel path Hpath) as (Hnd & _).
  pose proof (filterNodes_ok parseFloat conversation path Hnd) as (_ & Hlen & Hidx).
  apply Forall_forall. intros q Hq.
  destruct (In_nth_error _ _ Hq) as (i & Hi).
  assert (Hik : exists k, nth_error (includedIds (filterNodes parseFloat conversation path)) i
                          = Some k).
  { destruct (nth_error (includedIds _) i) eqn:E; [eauto|].
    apply nth_error_None in E. assert (i < length (st_messages (filterNodes parseFloat conversation path)))
      by (apply nth_error_Some; congruence). lia. }
  destruct Hik as (k & Hk).
  destruct (Hidx i k Hk) as (_ & node & msg & q' & _ & _ & Hq' & _ & Hp & Hc).
  assert (q' = q) by congruence. subst q'.
  split.
  - intros p E. rewrite Hp in E. discriminate E.
  - rewrite Hc. intros x [].
Qed.

(** ** When the current node is kept *)

Lemma fold_Set_add_NoDup_id (l acc : list string) :
  NoDup (acc ++ l) -> fold_left Set_add l acc = acc ++ l.
Proof.
  revert acc. induction l as [|x l IH]; intros acc H; simpl.
  - symmetry. apply app_nil_r.
  - assert (Hx : ~ In x acc).
    { apply NoDup_remove_2 in H. intros Hin. apply H. apply in_app_iff. auto. }
    rewrite (Set_add_fresh _ _ Hx). rewrite IH; rewrite <- app_assoc; [reflexivity | exact H].
Qed.

Lemma Set_of_NoDup_id (l : list string) : NoDup l -> Set_of l = l.
Proof. intros H. unfold Set_of. apply (fold_Set_add_NoDup_id l []). exact H. Qed.

Lemma firstBranch_cons
    (visit : string -> list string -> outcome (list string * list string))
    (c : string) (cs v : list string) :
  firstBranch visit (c :: cs) v =
  (r <- visit c v ;;
   match fst r with
   | [] => firstBranch visit cs (snd r)
   | _ :: _ => Ok r
   end).
Proof. reflexivity. Qed.

Lemma descent_follows_first_children (m : Mapping) :
  forall l y v fuel,
    chained (firstChild m) (y :: l) -> Forall (present m) (y :: l) -> NoDup (y :: l) ->
    (forall x, In x (y :: l) -> ~ In x v) ->
    unvisited m v < fuel ->
    exists more v', traverseFromNode fuel y m v = Ok ((y :: l) ++ more, v').
Proof.
  induction l as [|z l IH]; intros y v fuel Hch Hpres Hnd Hdisj Hf.
  - destruct (traverseFromNode_finishes m fuel y v Hf) as ([seq v'] & H).
    inversion Hpres as [|? ? Hy _]. subst.
    destruct (traverseFromNode_starts m fuel y v _ H Hy) as (rest & E).
    { apply Hdisj. left. reflexivity. }
    simpl in E. subst seq. exists rest, v'. exact H.
  - destruct fuel as [|fuel]; [lia|].
    inversion Hch as [| |? ? ? (node & cs & Hnode & Hchildren) Hch']. subst.
    inversion Hpres as [|? ? (Ty & _) Hpres']. subst.
    inversion Hnd as [|? ? Hy Hnd']. subst.
    assert (Hyv : ~ In y v) by (apply Hdisj; left; reflexivity).
    destruct (IH z (Set_add v y) fuel Hch' Hpres' Hnd') as (more & v' & Hz).
    + intros x Hx Hin. apply Set_add_In in Hin. destruct Hin as [Hin | ->].
      * apply (Hdisj x); [right; exact Hx | exact Hin].
      * exact (Hy Hx).
    + pose proof (unvisited_lt m v y (mget_In_keys _ _ _ Hnode) Hyv). lia.
    + exists more, v'. rewrite traverseFromNode_S.
      apply Set_has_not_In in Hyv. rewrite Ty, Hyv. cbn [negb orb].
      rewrite Hnode, Hchildren, firstBranch_cons, Hz. reflexivity.
Qed.

(** X13.  On a mapping without parent cycles, when every node on the
    ancestor path of the current node has the next node of that path as the
    first entry of its [children], the reconstructed path begins with the
    whole ancestor path, root first, and so contains the current node (the
    descent below the current node follows). *)
Theorem current_node_kept_on_first_child_path (conversation : Conversation)
    (fuel : nat) (cur : string) (path : list string) :
  acyclic (mapping conversation) ->
  length (mapping conversation) + 2 <= fuel ->
  current_node conversation = Some cur ->
  present (mapping conversation) cur ->
  getPathToRoot fuel cur (mapping conversation) = Ok path ->
  chained (firstChild (mapping conversation)) path ->
  exists rest,
    reconstructMessagePath fuel conversation = Ok (path ++ rest) /\
    In cur (path ++ rest).
Proof.
  set (m := mapping conversation).
  intros Hac Hf Hcur (Tc & Pc) Hpath Hfirst.
  destruct (mget m cur) as [cnode|] eqn:Hc; [|congruence].
  unfold getPathToRoot in Hpath.
  destruct (getPathToRoot_loop_linked m fuel (Some cur) [] path Hpath)
    as (pre0 & _ & Hlinked & Hpres & _);
    [constructor | constructor | intros h rest E; discriminate E |].
  pose proof (chained_parent_NoDup m path Hac Hlinked) as Hnd.
  assert (Hlast : exists pre, path = pre ++ [cur]).
  { destruct fuel as [|fuel']; [discriminate|]. simpl in Hpath. rewrite Tc, Hc in Hpath.
    destruct (getPathToRoot_loop_linked m fuel' _ [cur] path Hpath) as (pre & E & _).
    - constructor.
    - constructor; [split; [exact Tc | fold m; congruence] | constructor].
    - intros h rest E. inversion E. subst. unfold parentOf. rewrite Hc.
      unfold or_null. destruct (truthy_opt (parent cnode)) eqn:T; [|reflexivity].
      destruct (parent cnode) as [p|]; [|discriminate]. simpl in *. rewrite T. reflexivity.
    - exists pre. exact E. }
  assert (Hexp : exists rest, expandPath fuel path m = Ok (path ++ rest)).
  { unfold expandPath. destruct path as [|p0 rest0].
    { destruct Hlast as (pre & E). destruct pre; discriminate. }
    simpl. inversion Hpres as [|? ? (Tp & Pp) Hpres']. subst.
    destruct (mget m p0) as [node|] eqn:Hp0; [|congruence].
    assert (Hdesc : forall c, exists seq v',
               traverseFromNode fuel c m (Set_of [p0]) = Ok (seq, v')).
    { intros c. destruct (traverseFromNode_finishes m fuel c (Set_of [p0])) as ([s v'] & H).
      - pose proof (unvisited_le_length m (Set_of [p0])). lia.
      - eauto. }
    assert (Hfinal : forall c seq v',
               traverseFromNode fuel c m (Set_of [p0]) = Ok (seq, v') ->
               Set_of ([p0] ++ seq) = [p0] ++ seq).
    { intros c seq v' Ht. apply Set_of_NoDup_id.
      destruct (traverseFromNode_traversed m _ _ _ _ _ Ht) as (_ & Hn & Hfresh).
      simpl. constructor; [|exact Hn].
      intros Hin. apply (Hfresh p0 Hin). apply Set_of_In. left. reflexivity. }
    destruct rest0 as [|y rest1].
    - (* the path is the current node alone *)
      destruct (children node) as [[|c cs]|].
      1,3: simpl; exists []; reflexivity.
      destruct (Hdesc c) as (seq & v' & Ht). rewrite Ht. simpl.
      exists seq. f_equal. apply (Hfinal c seq v' Ht).
    - inversion Hfirst as [| |? ? ? (node' & cs & Hn' & Hch') Hfirst']. subst.
      assert (node' = node) by (fold m in Hn'; congruence). subst node'.
      rewrite Hch'.
      inversion Hnd as [|? ? Hp0nd Hnd']. subst.
      destruct (descent_follows_first_children m rest1 y (Set_of [p0]) fuel Hfirst' Hpres' Hnd')
        as (more & v' & Ht).
      + intros x Hx Hin. apply Set_of_In in Hin. destruct Hin as [<- | []]. exact (Hp0nd Hx).
      + pose proof (unvisited_le_length m (Set_of [p0])). lia.
      + rewrite Ht. simpl. exists more. f_equal.
        change (p0 :: (y :: rest1) ++ more) with ([p0] ++ ((y :: rest1) ++ more)).
        apply (Hfinal y _ v' Ht). }
  destruct Hexp as (rest & Hexp). exists rest. split.
  - unfold reconstructMessagePath. fold m.
    destruct (keys m) as [|k0 ks] eqn:Hk.
    { pose proof (mget_In_keys m cur cnode Hc) as Hin. rewrite Hk in Hin. destruct Hin. }
    destruct (climb_to_root m (S (length m)) cur cnode Hc (ancestor_runs_out m cur Hac))
      as (r & j & _ & Hr).
    apply isRoot_In in Hr.
    destruct (findRootNodes m) as [|root0 roots]; [destruct Hr|].
    rewrite Hcur, (or_null_truthy cur Tc), Hc.
    unfold getPathToRoot. rewrite Hpath. simpl. exact Hexp.
  - destruct Hlast as (pre & ->). rewrite <- app_assoc. apply in_app_iff. right. left. reflexivity.
Qed.

(** ** The order of the batch *)

Lemma Qminus_positive (p q : Q) :
  (0 <? Qnum (Qminus p q))%Z = negb (Qle_bool p q).
Proof.
  unfold Qminus, Qplus, Qopp, Qle_bool. simpl.
  destruct (Z.ltb_spec 0 (Qnum p * Z.pos (Qden q) + - Qnum q * Z.pos (Qden p)));
    destruct (Z.leb_spec (Qnum p * Z.pos (Qden q)) (Qnum q * Z.pos (Qden p)));
    try reflexivity; exfalso; rewrite Z.mul_opp_l in *; lia.
Qed.

Lemma Number_sub_positive (a b : jsnum) :
  Number_isNaN a = false -> Number_isNaN b = false ->
  Number_positive (Number_sub b a) = negb (Number_le b a).
Proof.
  destruct a as [|[|]|p], b as [|[|]|q]; simpl; try discriminate; try reflexivity.
  intros _ _. apply Qminus_positive.
Qed.

Lemma Number_le_total (a b : jsnum) :
  Number_isNaN a = false -> Number_isNaN b = false ->
  Number_le a b = false -> Number_le b a = true.
Proof.
  destruct a as [|[|]|p], b as [|[|]|q]; simpl; try discriminate; try reflexivity.
  intros _ _ H. apply Qle_bool_iff.
  destruct (Qle_bool p q) eqn:E; [discriminate|].
  apply Qlt_le_weak. apply Qnot_le_lt. intros Hle. apply Qle_bool_iff in Hle. congruence.
Qed.

Lemma Number_le_trans (a b c : jsnum) :
  Number_le a b = true -> Number_le b c = true -> Number_le a c = true.
Proof.
  destruct a as [|[|]|p], b as [|[|]|q], c as [|[|]|r]; simpl;
    try discriminate; try reflexivity.
  rewrite !Qle_bool_iff. apply Qle_trans.
Qed.

Section Sorting.

Variable parseFloat : string -> jsnum.

Local Abbreviation key := (getComparableTimestamp parseFloat).
Local Abbreviation cmp := (compareConversations parseFloat).

Lemma key_not_NaN (c : Conversation) : Number_isNaN (key c) = false.
Proof. apply integral_not_NaN, getComparableTimestamp_integral. Qed.

Lemma cmp_positive (x y : Conversation) :
  Number_positive (cmp x y) = negb (Number_le (key y) (key x)).
Proof. unfold compareConversations. apply Number_sub_positive; apply key_not_NaN. Qed.

Lemma insertSorted_Permutation (x : Conversation) (l : list Conversation) :
  Permutation (x :: l) (insertSorted cmp x l).
Proof.
  induction l as [|y l IH]; simpl; [apply Permutation_refl|].
  destruct (Number_positive (cmp x y)); [|apply Permutation_refl].
  eapply perm_trans; [apply perm_swap|]. apply perm_skip, IH.
Qed.

Lemma insertSorted_HdRel (a x : Conversation) (l : list Conversation) :
  notOlder parseFloat a x -> HdRel (notOlder parseFloat) a l ->
  HdRel (notOlder parseFloat) a (insertSorted cmp x l).
Proof.
  intros Hax Hal. destruct l as [|y l]; simpl; [constructor; exact Hax|].
  destruct (Number_positive (cmp x y)); constructor; [|exact Hax].
  inversion Hal. assumption.
Qed.

Lemma insertSorted_Sorted (x : Conversation) (l : list Conversation) :
  Sorted (notOlder parseFloat) l -> Sorted (notOlder parseFloat) (insertSorted cmp x l).
Proof.
  induction 1 as [|y l Hl IH Hy]; simpl; [repeat constructor|].
  destruct (Number_positive (cmp x y)) eqn:E; rewrite cmp_positive in E.
  - constructor; [exact IH|]. apply insertSorted_HdRel; [|exact Hy].
    unfold notOlder. apply negb_true_iff in E.
    apply Number_le_total; [apply key_not_NaN | apply key_not_NaN | exact E].
  - constructor; [constructor; assumption|]. constructor.
    unfold notOlder. apply negb_false_iff in E. exact E.
Qed.

Lemma insertSorted_stable (x t : Conversation) (l : list Conversation) :
  filter (sameKey parseFloat t) (insertSorted cmp x l) =
  filter (sameKey parseFloat t) (x :: l).
Proof.
  induction l as [|y l IH]; [reflexivity|].
  simpl insertSorted. destruct (Number_positive (cmp x y)) eqn:E; [|reflexivity].
  rewrite cmp_positive in E. apply negb_true_iff in E.
  simpl filter in *. rewrite IH.
  destruct (sameKey parseFloat t x) eqn:Sx; [|reflexivity].
  destruct (sameKey parseFloat t y) eqn:Sy; [|reflexivity].
  exfalso. unfold sameKey in Sx, Sy.
  apply andb_true_iff in Sx. apply andb_true_iff in Sy.
  destruct Sx as (Htx & _). destruct Sy as (_ & Hyt).
  rewrite (Number_le_trans _ _ _ Hyt Htx) in E. discriminate E.
Qed.

Lemma sortConversations_perm (conversations : list Conversation) :
  Permutation conversations (sortConversations parseFloat conversations).
Proof.
  unfold sortConversations, Array_sort.
  induction conversations as [|x l IH]; simpl; [constructor|].
  eapply perm_trans; [apply perm_skip, IH | apply insertSorted_Permutation].
Qed.

(** X14.  [sortConversations] returns the conversations it was given, each
    as often as it was given, ordered by sort key with the most recent first:
    every conversation stands before all those with a smaller key. *)
Theorem sortConversations_most_recent_first (conversations : list Conversation) :
  Permutation conversations (sortConversations parseFloat conversations) /\
  StronglySorted (notOlder parseFloat) (sortConversations parseFloat conversations).
Proof.
  split; [apply sortConversations_perm|].
  unfold sortConversations, Array_sort.
  - apply Sorted_StronglySorted.
    + intros a b c Hab Hbc. unfold notOlder in *. eapply Number_le_trans; eassumption.
    + induction conversations as [|x l IH]; simpl; [constructor|].
      apply insertSorted_Sorted, IH.
Qed.

(** X15.  The sort is stable: the conversations that share a sort key stand
    in the output in the order they had in the input. *)
Theorem sortConversations_keeps_order_of_ties (t : Conversation)
    (conversations : list Conversation) :
  filter (sameKey parseFloat t) (sortConversations parseFloat conversations) =
  filter (sameKey parseFloat t) conversations.
Proof.
  unfold sortConversations, Array_sort.
  induction conversations as [|x l IH]; [reflexivity|].
  simpl fold_right. rewrite insertSorted_stable. simpl. rewrite IH. reflexivity.
Qed.

End Sorting.

(** ** Ids and titles *)

Lemma string_of_index_inj (i j : nat) : string_of_index i = string_of_index j -> i = j.
Proof.
  unfold string_of_index. intros H.
  apply DecimalNat.Unsigned.to_uint_inj.
  assert (E : Some (Nat.to_uint i) = Some (Nat.to_uint j)).
  { rewrite <- !NilEmpty.usu. rewrite H. reflexivity. }
  inversion E. reflexivity.
Qed.

Lemma or_null_nonempty (o : option string) (s : string) : or_null o = Some s -> s <> "".
Proof. intros H. apply or_null_Some in H. apply truthy_true_nonempty. tauto. Qed.

(** X16.  The id and the title of an output record are never empty; a
    non-empty [conversation_id] is kept as the id, else a non-empty [id]; and
    two conversations with neither get the same fallback id only when they
    stand at the same position. *)
Theorem output_id_and_title_never_empty (parseFloat : string -> jsnum)
    (conversation : Conversation) (index : nat) (msgs : list QwenMessage) :
  let out := assemble parseFloat conversation index msgs in
  out_id out <> "" /\ out_title out <> "" /\
  (forall s, or_null (conversation_id conversation) = Some s -> out_id out = s) /\
  (forall s, or_null (conversation_id conversation) = None ->
             or_null (conv_id conversation) = Some s -> out_id out = s) /\
  (anonymous conversation ->
   forall other index' msgs',
     anonymous other ->
     out_id (assemble parseFloat other index' msgs') = out_id out -> index' = index).
Proof.
  simpl. split; [|split; [|split; [|split]]].
  - destruct (or_null (conversation_id conversation)) as [s|] eqn:E.
    + eapply or_null_nonempty, E.
    + destruct (or_null (conv_id conversation)) as [s|] eqn:E1.
      * eapply or_null_nonempty, E1.
      * discriminate.
  - destruct (or_null (title conversation)) as [s|] eqn:E.
    + eapply or_null_nonempty, E.
    + discriminate.
  - intros s ->. reflexivity.
  - intros s -> ->. reflexivity.
  - intros (-> & ->) other index' msgs' (-> & ->) H.
    apply string_of_index_inj. simpl in H. inversion H. reflexivity.
Qed.

(** ** The batch *)

Lemma transformEach_spec (parseFloat : string -> jsnum) (fuel : nat) :
  forall conversations first outs,
    transformEach parseFloat fuel conversations first = Ok outs ->
    length outs = length conversations /\
    forall j c, nth_error conversations j = Some c ->
      exists out, nth_error outs j = Some out /\
                  transformConversation parseFloat fuel c (first + j) = Ok out.
Proof.
  induction conversations as [|c0 rest IH]; intros first outs H; simpl in H.
  - inversion H. split; [reflexivity|]. intros [|j] c Hc; discriminate.
  - destruct (transformConversation parseFloat fuel c0 first) as [out0| |] eqn:E;
      simpl in H; try discriminate.
    destruct (transformEach parseFloat fuel rest (S first)) as [outs0| |] eqn:E1;
      simpl in H; try discriminate.
    inversion H. subst outs. destruct (IH _ _ E1) as (Hlen & Hnth).
    split; [simpl; rewrite Hlen; reflexivity|].
    intros [|j] c Hc; simpl in Hc.
    + inversion Hc. subst c. exists out0. rewrite Nat.add_0_r. auto.
    + destruct (Hnth j c Hc) as (out & Ho & Ht). exists out. split; [exact Ho|].
      rewrite <- Ht. f_equal. lia.
Qed.

Lemma transformEach_finishes (parseFloat : string -> jsnum) (fuel : nat) :
  forall conversations first,
    (forall c, In c conversations ->
       acyclic (mapping c) /\ length (mapping c) + 2 <= fuel) ->
    exists outs, transformEach parseFloat fuel conversations first = Ok outs.
Proof.
  induction conversations as [|c0 rest IH]; intros first Hall; simpl; [eauto|].
  destruct (Hall c0 (or_introl eq_refl)) as (Hac & Hf).
  destruct (relink_core parseFloat c0 first fuel Hac Hf) as (_ & out & _ & Hout & _).
  rewrite Hout. simpl.
  destruct (IH (S first)) as (outs & Houts); [intros c Hc; apply Hall; right; exact Hc|].
  rewrite Houts. simpl. eauto.
Qed.

(** X17.  When the batch conversion returns, it yields one record per
    conversation kept (all of them, or the first [limit] of the sorted list),
    the record at position j being the conversion, with index j, of the j-th
    most recent conversation; and it does return when no mapping has a parent
    cycle and the fuel exceeds every mapping size by two. *)
Theorem convertConversations_converts_most_recent (parseFloat : string -> jsnum)
    (fuel : nat) (limit : option nat) (conversations : list Conversation) :
  let sorted := sortConversations parseFloat conversations in
  let limited := match limit with Some n => firstn n sorted | None => sorted end in
  (forall outs,
     convertConversations parseFloat fuel limit conversations = Ok outs ->
     length outs = match limit with
                   | Some n => Nat.min n (length conversations)
                   | None => length conversations
                   end /\
     forall j c, nth_error limited j = Some c ->
       exists out, nth_error outs j = Some out /\
                   transformConversation parseFloat fuel c j = Ok out) /\
  ((forall c, In c conversations ->
      acyclic (mapping c) /\ length (mapping c) + 2 <= fuel) ->
   exists outs, convertConversations parseFloat fuel limit conversations = Ok outs).
Proof.
  cbv zeta.
  assert (Hperm : Permutation conversations (sortConversations parseFloat conversations)).
  { apply sortConversations_perm. }
  split.
  - intros outs H. unfold convertConversations in H.
    apply transformEach_spec in H. destruct H as (Hlen & Hnth). split.
    + rewrite Hlen. destruct limit as [n|].
      * rewrite length_firstn, <- (Permutation_length Hperm). reflexivity.
      * symmetry. apply (Permutation_length Hperm).
    + exact Hnth.
  - intros Hall. unfold convertConversations. apply transformEach_finishes.
    intros c Hc. apply Hall. apply (Permutation_in _ (Permutation_sym Hperm)).
    destruct limit as [n|]; [|exact Hc].
    rewrite <- (firstn_skipn n (sortConversations parseFloat conversations)).
    apply in_or_app. left. exact Hc.
Qed.

(** ** Trimmed text *)

Lemma trimStart_startsBlank (s : string) : startsBlank (trimStart s) = false.
Proof.
  induction s as [|c s IH]; simpl; [reflexivity|].
  destruct (isWhiteSpace c) eqn:E; [exact IH | simpl; exact E].
Qed.

Lemma trimStart_id (s : string) : startsBlank s = false -> trimStart s = s.
Proof. destruct s as [|c s]; simpl; [reflexivity|]. intros ->. reflexivity. Qed.

Lemma trimEnd_cons (c : ascii) (s : string) :
  trimEnd (String c s) =
  match trimEnd s with
  | EmptyString => if isWhiteSpace c then EmptyString else String c EmptyString
  | t => String c t
  end.
Proof. reflexivity. Qed.

Lemma trimEnd_empty (s : string) : trimEnd s = "" <-> allBlank s = true.
Proof.
  induction s as [|c s IH]; [simpl; tauto|].
  rewrite trimEnd_cons. simpl allBlank. rewrite andb_true_iff, <- IH.
  destruct (trimEnd s) as [|d t].
  - destruct (isWhiteSpace c); split; try tauto; try discriminate.
    intros (H & _). discriminate H.
  - split; [discriminate|]. intros (_ & H). discriminate H.
Qed.

Lemma trimEnd_endsBlank (s : string) : endsBlank (trimEnd s) = false.
Proof.
  induction s as [|c s IH]; [reflexivity|].
  rewrite trimEnd_cons. destruct (trimEnd s) as [|d t].
  - destruct (isWhiteSpace c) eqn:E; [reflexivity | simpl; exact E].
  - exact IH.
Qed.

Lemma trimEnd_id (s : string) : endsBlank s = false -> trimEnd s = s.
Proof.
  induction s as [|c s IH]; [reflexivity|].
  intros H. rewrite trimEnd_cons. destruct s as [|d t].
  - simpl in *. rewrite H. reflexivity.
  - rewrite (IH H). reflexivity.
Qed.

Lemma trimEnd_startsBlank (s : string) :
  startsBlank s = false -> startsBlank (trimEnd s) = false.
Proof.
  destruct s as [|c s]; [reflexivity|]. intros H. simpl in H.
  rewrite trimEnd_cons. destruct (trimEnd s); [rewrite H|]; simpl; [exact H | exact H].
Qed.

Lemma trim_trimmed (s : string) :
  startsBlank (trim s) = false /\ endsBlank (trim s) = false /\ trim (trim s) = trim s.
Proof.
  unfold trim at 1 2.
  assert (H1 : startsBlank (trimEnd (trimStart s)) = false)
    by apply trimEnd_startsBlank, trimStart_startsBlank.
  assert (H2 : endsBlank (trimEnd (trimStart s)) = false) by apply trimEnd_endsBlank.
  split; [exact H1|]. split; [exact H2|].
  unfold trim. rewrite (trimStart_id _ H1). apply trimEnd_id, H2.
Qed.

Lemma trimStart_empty (s : string) : trimStart s = "" <-> allBlank s = true.
Proof.
  induction s as [|c s IH]; simpl; [tauto|].
  destruct (isWhiteSpace c); simpl; [exact IH|].
  split; discriminate.
Qed.

Lemma trim_empty (s : string) : trim s = "" <-> allBlank s = true.
Proof.
  unfold trim. rewrite <- trimStart_empty. split.
  - intros H. apply trimEnd_empty in H.
    pose proof (trimStart_startsBlank s) as Hs.
    destruct (trimStart s) as [|c t]; [reflexivity|].
    simpl in H, Hs. rewrite Hs in H. discriminate H.
  - intros ->. reflexivity.
Qed.

Lemma allBlank_append (a b : string) :
  allBlank (a ++ b) = allBlank a && allBlank b.
Proof.
  induction a as [|c a IH]; simpl; [reflexivity|].
  rewrite IH. apply andb_assoc.
Qed.

Lemma allBlank_join (l : list string) :
  allBlank (join newline l) = true <-> Forall (fun s => allBlank s = true) l.
Proof.
  unfold join. induction l as [|x l IH]; simpl.
  - split; [constructor | reflexivity].
  - destruct l as [|y l].
    + split; [intros H; repeat constructor; exact H | intros H; inversion H; assumption].
    + rewrite !allBlank_append, !andb_true_iff, IH. split.
      * intros (Hx & Hl). constructor; assumption.
      * intros H. inversion H. subst. split; assumption.
Qed.

(** X18.  The text [extractContent] returns is trimmed: it neither begins
    nor ends with a white-space character, and trimming it again changes
    nothing. *)
Theorem extractContent_is_trimmed (message : option Message) :
  let text := extractContent message in
  startsBlank text = false /\ endsBlank text = false /\ trim text = text.
Proof.
  cbv zeta. unfold extractContent.
  destruct message as [msg|]; [|repeat split].
  destruct (content_parts msg); [|repeat split].
  apply trim_trimmed.
Qed.

(** X19.  A message extracts to the empty string exactly when every
    fragment its parts emit consists of white space only (in particular when
    they emit nothing); the filter loop then skips its node, whatever its
    role. *)
Theorem blank_messages_are_dropped (parseFloat : string -> jsnum) (msg : Message)
    (parts : list Part) :
  content_parts msg = Some parts ->
  (extractContent (Some msg) = "" <->
   Forall (fun s => allBlank s = true) (flat_map emitted parts)) /\
  (Forall (fun s => allBlank s = true) (flat_map emitted parts) ->
   forall conversation st nodeId node,
     mget (mapping conversation) nodeId = Some node -> message node = Some msg ->
     filterStep parseFloat conversation st nodeId = st).
Proof.
  intros Hparts.
  assert (Hiff : extractContent (Some msg) = "" <->
                 Forall (fun s => allBlank s = true) (flat_map emitted parts)).
  { simpl. rewrite Hparts, fold_pushPart. simpl. rewrite trim_empty. apply allBlank_join. }
  split; [exact Hiff|].
  intros Hblank conversation st nodeId node Hn Hm.
  apply Hiff in Hblank. unfold filterStep. rewrite Hn, Hm, Hblank.
  destruct (negb _ && negb _); reflexivity.
Qed.

(** ** Models *)

Lemma transformConversation_messages_Forall (P : QwenMessage -> Prop)
    (parseFloat : string -> jsnum) (conversation : Conversation) (index fuel : nat)
    (out : OutputConversation) :
  (forall p q, P q -> P (set_links p q)) ->
  (forall c q, P q -> P (push_child c q)) ->
  (forall k, Forall P (projectNode parseFloat conversation k)) ->
  transformConversation parseFloat fuel conversation index = Ok out ->
  Forall P (messages out).
Proof.
  intros Hset Hpush Hproj. rewrite transformConversation_unfold.
  destruct (reconstructMessagePath fuel conversation) as [path| |] eqn:Hpath;
    try discriminate.
  cbv zeta.
  destruct (wireParents fuel _ _ _ _ _) as [wired| |] eqn:Hw; try discriminate.
  intros H. inversion H. subst out. simpl.
  destruct (reconstructMessagePath_sound conversation fuel path Hpath) as (Hnd & _).
  destruct (filterNodes_as_filter_from parseFloat conversation path emptyState Hnd)
    as (Hi & Hm); [intros k _ []|].
  cbv zeta in Hi, Hm. simpl in Hi, Hm.
  fold (filterNodes parseFloat conversation path) in Hi, Hm.
  apply wireChildren_Forall; [exact Hpush|].
  apply (wireParents_Forall P _ _ _ _ Hset _ _ _ Hw).
  rewrite Hm. apply Forall_flat_map. apply Forall_forall. intros k _. apply Hproj.
Qed.

Lemma modelSlug_cases (msg : Message) (conversation : Conversation) (s : string) :
  or_null (if truthy_opt (model_slug msg) then model_slug msg
           else or_null (default_model_slug conversation)) = Some s ->
  truthy s = true /\
  (model_slug msg = Some s \/ default_model_slug conversation = Some s).
Proof.
  intros H. apply or_null_Some in H. destruct H as (H & Ht). split; [exact Ht|].
  destruct (truthy_opt (model_slug msg)); [left; exact H|].
  right. apply or_null_Some in H. exact (proj1 H).
Qed.

Lemma modelSlug_default (msg : Message) (conversation : Conversation) (d : string) :
  or_null (default_model_slug conversation) = Some d ->
  exists s, or_null (if truthy_opt (model_slug msg) then model_slug msg
                     else or_null (default_model_slug conversation)) = Some s.
Proof.
  intros Hd. destruct (truthy_opt (model_slug msg)) eqn:E.
  - destruct (model_slug msg) as [s|]; [|discriminate E].
    exists s. apply or_null_truthy. exact E.
  - rewrite Hd. exists d. apply or_null_truthy. apply or_null_Some in Hd. exact (proj2 Hd).
Qed.

Lemma buildQwenMessage_contributes (node : Node) (msg : Message) (r text : string)
    (ts : option jsnum) (conversation : Conversation) (s : string) :
  contributes (buildQwenMessage node msg r text ts conversation) s <->
  or_null (if truthy_opt (model_slug msg) then model_slug msg
           else or_null (default_model_slug conversation)) = Some s.
Proof.
  unfold contributes, buildQwenMessage. cbv zeta.
  set (slug := or_null (if truthy_opt (model_slug msg) then _ else _)).
  destruct (String.eqb r "assistant"); simpl; split.
  - intros (_ & [(_ & H) | (l & H & _)]); [exact H | discriminate H].
  - intros H. split; [|left; split; [reflexivity | exact H]].
    unfold slug in H. apply or_null_Some in H. exact (proj2 H).
  - intros (_ & [(H & _) | (l & H & Hin)]); [discriminate H|].
    inversion H. subst l. destruct slug as [t|]; [|destruct Hin].
    destruct Hin as [<- | []]. reflexivity.
  - intros H. split.
    + unfold slug in H. apply or_null_Some in H. exact (proj2 H).
    + right. exists [s]. rewrite H. split; [reflexivity | left; reflexivity].
Qed.

(** X20.  The models of an output record come from the conversation: the
    list, when not null, is not empty, has no repetition, and each entry is a
    non-empty string that is the [default_model_slug] of the conversation or
    the [model_slug] of a message that passed the filter.  When the
    conversation has a non-empty [default_model_slug], the models are null
    only if no message survived. *)
Theorem output_models_come_from_the_conversation (parseFloat : string -> jsnum)
    (conversation : Conversation) (index fuel : nat) (out : OutputConversation) :
  transformConversation parseFloat fuel conversation index = Ok out ->
  (forall l, out_models out = Some l ->
     l <> [] /\ NoDup l /\
     forall s, In s l -> s <> "" /\ model_source conversation s) /\
  (forall d, or_null (default_model_slug conversation) = Some d ->
     messages out <> [] -> out_models out <> None).
Proof.
  intros Hout.
  assert (Hmodels : out_models out = modelsOrNull (collectModels (messages out))).
  { revert Hout. rewrite transformConversation_unfold.
    destruct (reconstructMessagePath fuel conversation) as [path| |]; try discriminate.
    cbv zeta. destruct (wireParents fuel _ _ _ _ _) as [wired| |]; try discriminate.
    intros H. inversion H. reflexivity. }
  split.
  - intros l Hl. rewrite Hmodels in Hl.
    destruct (collectModels (messages out)) as [|x rest] eqn:Hc; [discriminate Hl|].
    simpl in Hl. inversion Hl. subst l. split; [discriminate|].
    rewrite <- Hc, collectModels_fold.
    split; [apply fold_collectStep_NoDup; constructor|].
    intros s Hs. apply fold_collectStep_In in Hs.
    destruct Hs as [[] | (q & Hq & Hcon)].
    split; [apply truthy_true_nonempty; exact (proj1 Hcon)|].
    assert (Hall : Forall (fun q => forall s, contributes q s -> model_source conversation s)
                     (messages out)).
    { apply (transformConversation_messages_Forall _ parseFloat conversation index fuel out);
        [intros p q0 H; exact H | intros c q0 H; exact H | | exact Hout].
      intros k. unfold projectNode.
      destruct (mget (mapping conversation) k) as [node|] eqn:Hn; [|constructor].
      destruct (message node) as [msg|] eqn:Hm; [|constructor].
      destruct (qualifies conversation k) eqn:Q; constructor; [|constructor].
      intros s0 H0. apply buildQwenMessage_contributes, modelSlug_cases in H0.
      destruct H0 as (_ & [H0 | H0]); [|left; exact H0].
      right. exists k, node, msg. repeat split; assumption. }
    rewrite Forall_forall in Hall. exact (Hall q Hq s Hcon).
  - intros d Hd Hne. rewrite Hmodels.
    assert (Hall : Forall (fun q => exists s, contributes q s) (messages out)).
    { apply (transformConversation_messages_Forall _ parseFloat conversation index fuel out);
        [intros p q0 H; exact H | intros c q0 H; exact H | | exact Hout].
      intros k. unfold projectNode.
      destruct (mget (mapping conversation) k) as [node|]; [|constructor].
      destruct (message node) as [msg|]; [|constructor].
      destruct (qualifies conversation k); constructor; [|constructor].
      destruct (modelSlug_default msg conversation d Hd) as (s & Hs).
      exists s. apply buildQwenMessage_contributes. exact Hs. }
    destruct (messages out) as [|q rest] eqn:Hmsgs; [congruence|].
    inversion Hall as [|? ? (s & Hs) _]. subst.
    assert (Hin : In s (collectModels (q :: rest))).
    { rewrite collectModels_fold. apply fold_collectStep_In. right.
      exists q. split; [left; reflexivity | exact Hs]. }
    destruct (collectModels (q :: rest)); [destruct Hin | discriminate].
Qed.

(** ** The properties at concrete inputs *)

Lemma chainPath_NoDup : NoDup chainPath.
Proof. unfold chainPath. repeat constructor; simpl; intuition discriminate. Qed.

Lemma sanitizeTimestamp_idempotent_witness :
  sanitizeTimestamp decimalParseFloat (VStr "12.7abc") = Some (Fin (inject_Z 12)) /\
  integral (Fin (inject_Z 12)) /\
  sanitizeTimestamp decimalParseFloat (VNum (Fin (inject_Z 12))) = Some (Fin (inject_Z 12)).
Proof.
  split; [vm_compute; reflexivity|].
  apply (sanitizeTimestamp_idempotent decimalParseFloat (VStr "12.7abc")).
  vm_compute. reflexivity.
Defined.

Lemma comparable_timestamp_follows_updated_at_witness :
  updated_at (assemble decimalParseFloat datedConversation 0 []) =
    Some (Fin (inject_Z 1700000000)) /\
  getComparableTimestamp decimalParseFloat datedConversation = Fin (inject_Z 1700000000).
Proof.
  split; [vm_compute; reflexivity|].
  apply (proj1 (proj2 (comparable_timestamp_follows_updated_at decimalParseFloat
                         datedConversation 0 []))).
  vm_compute. reflexivity.
Defined.





Lemma rootless_mapping_converts_to_empty_witness :
  findRootNodes (mapping rootlessConversation) = [] /\
  transformConversation decimalParseFloat 0 rootlessConversation 0
    = Ok (assemble decimalParseFloat rootlessConversation 0 []).
Proof.
  split; [reflexivity|].
  apply (rootless_mapping_converts_to_empty decimalParseFloat rootlessConversation 0 0).
  reflexivity.
Defined.

Lemma filterNodes_keeps_qualifying_ids_witness :
  NoDup chainPath /\
  includedIds (filterNodes decimalParseFloat chainConversation chainPath) = ["a"; "b"; "d"] /\
  length (st_messages (filterNodes decimalParseFloat chainConversation chainPath)) = 3.
Proof.
  split; [exact chainPath_NoDup|].
  destruct (filterNodes_keeps_qualifying_ids decimalParseFloat chainConversation chainPath
              chainPath_NoDup) as (Hi & _ & Hl).
  split; [exact Hi|]. rewrite Hl, Hi. reflexivity.
Defined.

Lemma chainConversation_converts :
  exists out, transformConversation decimalParseFloat 7 chainConversation 0 = Ok out.
Proof. vm_compute. eexists. reflexivity. Qed.

Lemma output_messages_are_well_formed_witness :
  exists out,
    transformConversation decimalParseFloat 7 chainConversation 0 = Ok out /\
    Forall well_formed (messages out).
Proof.
  destruct chainConversation_converts as (out & E).
  exists out. split; [exact E|].
  exact (proj1 (output_messages_are_well_formed decimalParseFloat chainConversation 0 7 out E)).
Defined.


Lemma links_name_surviving_nodes_witness :
  exists out path,
    transformConversation decimalParseFloat 7 chainConversation 0 = Ok out /\
    reconstructMessagePath 7 chainConversation = Ok path /\
    Forall (links_within (includedIds (filterNodes decimalParseFloat chainConversation path)))
      (messages out).
Proof.
  destruct chainConversation_converts as (out & E).
  destruct (links_name_surviving_nodes decimalParseFloat chainConversation 0 7 out E)
    as (path & Hp & Hl).
  exists out, path. split; [exact E|]. split; assumption.
Defined.

Lemma current_node_kept_on_first_child_path_witness :
  acyclic (mapping chainConversation) /\
  getPathToRoot 7 "d" (mapping chainConversation) = Ok chainPath /\
  chained (firstChild (mapping chainConversation)) chainPath /\
  exists rest,
    reconstructMessagePath 7 chainConversation = Ok (chainPath ++ rest) /\
    In "d" (chainPath ++ rest).
Proof.
  assert (Hch : chained (firstChild (mapping chainConversation)) chainPath).
  { unfold chainPath.
    repeat (apply chained_cons; [do 2 eexists; split; reflexivity|]).
    apply chained_one. }
  split; [apply acyclicb_spec; reflexivity|].
  split; [reflexivity|]. split; [exact Hch|].
  apply (current_node_kept_on_first_child_path chainConversation 7 "d" chainPath).
  - apply acyclicb_spec. reflexivity.
  - simpl. lia.
  - reflexivity.
  - split; [reflexivity | discriminate].
  - reflexivity.
  - exact Hch.
Defined.

Lemma output_id_and_title_never_empty_witness :
  or_null (conversation_id datedConversation) = Some "c" /\
  out_id (assemble decimalParseFloat datedConversation 0 []) = "c".
Proof.
  split; [reflexivity|].
  apply (proj1 (proj2 (proj2 (output_id_and_title_never_empty decimalParseFloat
                                datedConversation 0 [])))).
  reflexivity.
Defined.

Lemma convertConversations_converts_most_recent_witness :
  exists outs,
    convertConversations decimalParseFloat 2 (Some 2) stampedBatch = Ok outs /\
    length outs = 2 /\
    exists out,
      nth_error outs 0 = Some out /\
      transformConversation decimalParseFloat 2 (stampedConversation "new" 30) 0 = Ok out.
Proof.
  pose proof (convertConversations_converts_most_recent decimalParseFloat 2 (Some 2)
                stampedBatch) as H.
  cbv zeta in H. destruct H as (Hs & Hf).
  destruct Hf as (outs & Ho).
  - intros c Hc. simpl in Hc.
    destruct Hc as [<-|[<-|[<-|[]]]];
      (split; [apply acyclicb_spec; reflexivity | simpl; lia]).
  - exists outs. split; [exact Ho|].
    destruct (Hs outs Ho) as (Hl & Hn).
    split; [exact Hl|].
    apply (Hn 0 (stampedConversation "new" 30)). reflexivity.
Defined.

Lemma blank_messages_are_dropped_witness :
  content_parts blankMessage = Some [PString "  "; PString newline] /\
  extractContent (Some blankMessage) = "" /\
  filterStep decimalParseFloat
    (conversationOf None [entry "a" None [] (Some blankMessage)]) emptyState "a" = emptyState.
Proof.
  split; [reflexivity|].
  destruct (blank_messages_are_dropped decimalParseFloat blankMessage
              [PString "  "; PString newline] eq_refl) as (Hiff & Hdrop).
  assert (Hb : Forall (fun s => allBlank s = true)
                 (flat_map emitted [PString "  "; PString newline]))
    by (repeat constructor).
  split; [exact (proj2 Hiff Hb)|].
  eapply (Hdrop Hb); reflexivity.
Defined.

Lemma output_models_come_from_the_conversation_witness :
  exists out,
    transformConversation decimalParseFloat 5 modelledConversation 0 = Ok out /\
    out_models out = Some ["gpt-4"; "o1"] /\
    model_source modelledConversation "o1".
Proof.
  assert (E : exists out,
            transformConversation decimalParseFloat 5 modelledConversation 0 = Ok out /\
            out_models out = Some ["gpt-4"; "o1"])
    by (vm_compute; eexists; split; reflexivity).
  destruct E as (out & E & Hm).
  exists out. split; [exact E|]. split; [exact Hm|].
  destruct (output_models_come_from_the_conversation decimalParseFloat
              modelledConversation 0 5 out E) as (Hsrc & _).
  destruct (Hsrc ["gpt-4"; "o1"] Hm) as (_ & _ & Hin).
  apply (Hin "o1"). right. left. reflexivity.
Defined.
